(** * Blog synchronisation script ([scripts/sync-blog.ts]): a shallow embedding

    The development follows the script top-down:
    - JavaScript strings as sequences of UTF-16 code units;
    - the fragment of the regular-expression engine the script relies on
      (backtracking matcher, global [replace], global [match], [split]);
    - the Number arithmetic of the reading-time formula (binary64);
    - [calculateReadingTime], [generatePostId], [parseMarkdownFile],
      [syncBlog] and the accessors the script writes into [blog-data.ts]
      ([getAllTags], [sortPostsByDate]). *)

From Stdlib Require Import ZArith Lia Bool Reals Lra.
From stdpp Require Import base list strings sorting gmap.

Local Open Scope Z_scope.

(** ** Strings *)

(** A JavaScript string is a sequence of 16-bit code units.  None of the
    regular expressions of the script carries the [u] flag, so every string
    operation below works on code units. *)
Definition jsstring := list Z.

(** ASCII literals, for readable examples. *)
Definition str (s : string) : jsstring :=
  map (fun a => Z.of_N (Ascii.N_of_ascii a)) (String.list_ascii_of_string s).

Definition in_range (lo hi c : Z) : bool := (lo <=? c) && (c <=? hi).

Module Chr.
Definition tab := 9.
Definition newline := 10.
Definition space := 32.
Definition bang := 33.
Definition hash := 35.
Definition lparen := 40.
Definition rparen := 41.
Definition star := 42.
Definition hyphen := 45.
Definition dot := 46.
Definition slash := 47.
Definition lbracket := 91.
Definition rbracket := 93.
Definition underscore := 95.
Definition backtick := 96.
End Chr.

(** ** Character classes *)

Definition cset := Z -> bool.

Definition is_char (x : Z) : cset := fun c => c =? x.
Definition cnot (p : cset) : cset := fun c => negb (p c).
Definition cany : cset := fun _ => true.

(** LineTerminator: LF, CR, LS, PS. *)
Definition is_line_terminator : cset :=
  fun c => (c =? 10) || (c =? 13) || (c =? 8232) || (c =? 8233).

(** [\s]: WhiteSpace and LineTerminator code points. *)
Definition is_space : cset :=
  fun c =>
    in_range 9 13 c || (c =? 32) || (c =? 160) || (c =? 5760)
    || in_range 8192 8202 c || (c =? 8232) || (c =? 8233) || (c =? 8239)
    || (c =? 8287) || (c =? 12288) || (c =? 65279).

(** [.] without the [s] flag. *)
Definition is_dot : cset := cnot is_line_terminator.

(** [[一-龥]] *)
Definition is_cjk : cset := in_range 19968 40869.

Definition is_hyphen : cset := is_char Chr.hyphen.
Definition is_lower : cset := in_range 97 122.
Definition is_digit : cset := in_range 48 57.

(** ** Regular expressions

    The constructs that occur in the script: classes, quantified classes
    (greedy or lazy, with bounds), sequence, alternation, one capturing
    group and the two anchors. *)

Inductive re : Type :=
| Cls (p : cset)
| Rep (lazy : bool) (lo : nat) (hi : option nat) (p : cset)
| Cat (r1 r2 : re)
| Alt (r1 r2 : re)
| Cap (r : re)
| Bol
| Eol.

(** Matcher state: index of the next code unit, the input still to read and
    the captures closed so far. *)
Record mstate := MState {
  ms_pos : nat;
  ms_rest : jsstring;
  ms_caps : list jsstring
}.

Definition cont := mstate -> option mstate.

Definition or_else {A} (x : option A) (y : option A) : option A :=
  match x with Some _ => x | None => y end.

Definition hi_allows (hi : option nat) : bool :=
  match hi with Some O => false | _ => true end.

Definition hi_pred (hi : option nat) : option nat :=
  match hi with Some n => Some (Nat.pred n) | None => None end.

(** Quantified class [p{lo,hi}]: the greedy form tries one more code unit
    before it tries the continuation, the lazy form the other way round. *)
Fixpoint rep_match (lazy : bool) (p : cset) (lo : nat) (hi : option nat)
    (s : jsstring) (pos : nat) (caps : list jsstring) (k : cont)
    {struct s} : option mstate :=
  match s with
  | c :: t =>
      if hi_allows hi && p c then
        match lo with
        | S lo' => rep_match lazy p lo' (hi_pred hi) t (S pos) caps k
        | O =>
            if lazy then
              or_else (k (MState pos s caps))
                      (rep_match lazy p O (hi_pred hi) t (S pos) caps k)
            else
              or_else (rep_match lazy p O (hi_pred hi) t (S pos) caps k)
                      (k (MState pos s caps))
        end
      else
        match lo with O => k (MState pos s caps) | S _ => None end
  | [] => match lo with O => k (MState pos [] caps) | S _ => None end
  end.

Fixpoint rmatch (r : re) (st : mstate) (k : cont) : option mstate :=
  match r with
  | Cls p =>
      match ms_rest st with
      | c :: t => if p c then k (MState (S (ms_pos st)) t (ms_caps st)) else None
      | [] => None
      end
  | Rep lazy lo hi p =>
      rep_match lazy p lo hi (ms_rest st) (ms_pos st) (ms_caps st) k
  | Cat r1 r2 => rmatch r1 st (fun st' => rmatch r2 st' k)
  | Alt r1 r2 => or_else (rmatch r1 st k) (rmatch r2 st k)
  | Cap r0 =>
      rmatch r0 st (fun st' =>
        k (MState (ms_pos st') (ms_rest st')
             (ms_caps st' ++ [take (ms_pos st' - ms_pos st) (ms_rest st)])))
  | Bol => match ms_pos st with O => k st | S _ => None end
  | Eol => match ms_rest st with [] => k st | _ :: _ => None end
  end.

(** One match attempt at index [pos], where [s] is the input from [pos] on:
    the length of the match and its captures. *)
Definition exec (r : re) (pos : nat) (s : jsstring) : option (nat * list jsstring) :=
  match rmatch r (MState pos s []) Some with
  | Some st => Some ((ms_pos st - pos)%nat, ms_caps st)
  | None => None
  end.

(** Replacement templates: literal text and [$n]. *)
Inductive repl_item := RLit (s : jsstring) | RGroup (n : nat).

Definition expand (tmpl : list repl_item) (caps : list jsstring) : jsstring :=
  flat_map (fun it =>
    match it with
    | RLit s => s
    | RGroup n => nth (Nat.pred n) caps []
    end) tmpl.

(** [String.prototype.replace] with a global regular expression.  [skip]
    counts the code units of the current match that are still to be dropped;
    after an empty match the scan advances by one code unit. *)
Fixpoint replace_from (r : re) (tmpl : list repl_item) (pos skip : nat)
    (s : jsstring) : jsstring :=
  match s with
  | [] =>
      match skip, exec r pos [] with
      | O, Some (_, caps) => expand tmpl caps
      | _, _ => []
      end
  | c :: t =>
      match skip with
      | S n => replace_from r tmpl (S pos) n t
      | O =>
          match exec r pos s with
          | Some (O, caps) => expand tmpl caps ++ c :: replace_from r tmpl (S pos) O t
          | Some (S n, caps) => expand tmpl caps ++ replace_from r tmpl (S pos) n t
          | None => c :: replace_from r tmpl (S pos) O t
          end
      end
  end.

Definition replace (r : re) (tmpl : list repl_item) (s : jsstring) : jsstring :=
  replace_from r tmpl O O s.

(** [String.prototype.match] with a global regular expression: the matched
    substrings, or [null] when there is none. *)
Fixpoint match_from (r : re) (pos skip : nat) (s : jsstring) : list jsstring :=
  match s with
  | [] =>
      match skip, exec r pos [] with
      | O, Some _ => [[]]
      | _, _ => []
      end
  | c :: t =>
      match skip with
      | S n => match_from r (S pos) n t
      | O =>
          match exec r pos s with
          | Some (O, _) => [] :: match_from r (S pos) O t
          | Some (S n, _) => take (S n) s :: match_from r (S pos) n t
          | None => match_from r (S pos) O t
          end
      end
  end.

Definition js_match (r : re) (s : jsstring) : option (list jsstring) :=
  match match_from r O O s with
  | [] => None
  | m :: ms => Some (m :: ms)
  end.

(** [x || []] on the result of [match]. *)
Definition or_empty {A} (x : option (list A)) : list A :=
  match x with Some l => l | None => [] end.

(** [String.prototype.split] with a regular expression separator.  [cur]
    holds, reversed, the code units read since the last separator. *)
Fixpoint split_from (r : re) (pos skip : nat) (cur : jsstring) (s : jsstring)
    : list jsstring :=
  match s with
  | [] => [rev cur]
  | c :: t =>
      match skip with
      | S n => split_from r (S pos) n [] t
      | O =>
          match exec r pos s with
          | Some (O, caps) =>
              match cur with
              | [] => split_from r (S pos) O [c] t
              | _ :: _ => rev cur :: caps ++ split_from r (S pos) O [c] t
              end
          | Some (S n, caps) => rev cur :: caps ++ split_from r (S pos) n [] t
          | None => split_from r (S pos) O (c :: cur) t
          end
      end
  end.

Definition split (r : re) (s : jsstring) : list jsstring :=
  match s with
  | [] => match exec r O [] with Some _ => [] | None => [[]] end
  | _ :: _ => split_from r O O [] s
  end.

(** [String.prototype.trim], [substring(0, n)] and [length]. *)
Fixpoint trimStart (s : jsstring) : jsstring :=
  match s with
  | c :: t => if is_space c then trimStart t else s
  | [] => []
  end.

Definition trim (s : jsstring) : jsstring := rev (trimStart (rev (trimStart s))).

Definition substring0 (n : nat) (s : jsstring) : jsstring := take n s.

Definition slen (s : jsstring) : Z := Z.of_nat (length s).

(** ** Number arithmetic

    The reading-time formula divides and adds in binary64.  A finite,
    non-negative Number is kept as [mant * 2 ^ expo]; division and addition
    round the exact result to 53 significant bits, ties to even.  The
    exponent is left unbounded: the values of the formula lie between
    [1/250] and the largest array length, far from the subnormal and the
    overflow range. *)

Record num := Num { mant : Z; expo : Z }.

Definition num_zero : num := Num 0 0.

(** Round half to even of the non-negative quotient [n / d]. *)
Definition rne (n d : Z) : Z :=
  let q := n / d in
  let r := n mod d in
  if 2 * r <? d then q
  else if d <? 2 * r then q + 1
  else if Z.even q then q else q + 1.

(** [n / (d * 2 ^ e)] as a quotient of integers, for [e] of either sign. *)
Definition scale_num (e n : Z) : Z := n * 2 ^ Z.max 0 (- e).
Definition scale_den (e d : Z) : Z := d * 2 ^ Z.max 0 e.

(** The binary exponent of [n / d]: the [l] with [2^l <= n/d < 2^(l+1)]. *)
Definition ilog2_ratio (n d : Z) : Z :=
  let k := Z.log2 n - Z.log2 d in
  if scale_den k d <=? scale_num k n then k else k - 1.

(** The binary64 value nearest to [n / d], for [0 <= n] and [0 < d]. *)
Definition round_ratio (n d : Z) : num :=
  if n <=? 0 then num_zero
  else
    let e := ilog2_ratio n d - 52 in
    Num (rne (scale_num e n) (scale_den e d)) e.

(** A Number as an exact quotient. *)
Definition num_n (x : num) : Z := mant x * 2 ^ Z.max 0 (expo x).
Definition num_d (x : num) : Z := 2 ^ Z.max 0 (- expo x).

(** [a / b] on integers below [2^53], which convert to Number exactly. *)
Definition Num_div (a b : Z) : num := round_ratio a b.

(** [x + y] *)
Definition Num_add (x y : num) : num :=
  round_ratio (num_n x * num_d y + num_n y * num_d x) (num_d x * num_d y).

(** [Math.ceil] *)
Definition Math_ceil (x : num) : Z := - ((- num_n x) / num_d x).

(** [Math.max] on integers. *)
Definition Math_max (a b : Z) : Z := Z.max a b.

(** ** The regular expressions of the script *)

Infix ">>" := Cat (at level 60, right associativity).

Definition chr (x : Z) : re := Cls (is_char x).
Definition cor (p q : cset) : cset := fun c => p c || q c.

(** [[\s\S]] *)
Definition space_or_not : cset := cor is_space (cnot is_space).
(** [[^`]] *)
Definition not_backtick : cset := cnot (is_char Chr.backtick).
(** [[*_]] *)
Definition is_emph : cset := cor (is_char Chr.star) (is_char Chr.underscore).
(** [[^a-z0-9一-龥]] *)
Definition slug_keep : cset := cor is_lower (cor is_digit is_cjk).

(** [/```[\s\S]*?```/] *)
Definition re_code_block : re :=
  chr Chr.backtick >> chr Chr.backtick >> chr Chr.backtick
  >> Rep true 0 None space_or_not
  >> chr Chr.backtick >> chr Chr.backtick >> chr Chr.backtick.

(** [/`[^`]*`/] *)
Definition re_inline_code : re :=
  chr Chr.backtick >> Rep false 0 None not_backtick >> chr Chr.backtick.

(** [/\[.*?\]\(.*?\)/] *)
Definition re_link : re :=
  chr Chr.lbracket >> Rep true 0 None is_dot >> chr Chr.rbracket
  >> chr Chr.lparen >> Rep true 0 None is_dot >> chr Chr.rparen.

(** [/!\[.*?\]\(.*?\)/] *)
Definition re_image : re := chr Chr.bang >> re_link.

(** [/#{1,6}\s/] *)
Definition re_heading : re := Rep false 1 (Some 6%nat) (is_char Chr.hash) >> Cls is_space.

(** [/[*_]{1,2}(.*?)[*_]{1,2}/] *)
Definition re_emphasis : re :=
  Rep false 1 (Some 2%nat) is_emph
  >> Cap (Rep true 0 None is_dot)
  >> Rep false 1 (Some 2%nat) is_emph.

(** [/\n/] *)
Definition re_newline : re := chr Chr.newline.

(** [/[一-龥]/] *)
Definition re_cjk : re := Cls is_cjk.

(** [/\s+/] *)
Definition re_spaces : re := Rep false 1 None is_space.

(** [/[^a-z0-9一-龥]/] *)
Definition re_non_slug : re := Cls (cnot slug_keep).

(** [/-+/] *)
Definition re_hyphens : re := Rep false 1 None is_hyphen.

(** [/^-|-$/] *)
Definition re_edge_hyphen : re := Alt (Bol >> chr Chr.hyphen) (chr Chr.hyphen >> Eol).

(** ** [calculateReadingTime] *)

(** The chain of replacements that removes the Markdown syntax; the script
    writes it twice, in [calculateReadingTime] and in [parseMarkdownFile]. *)
Definition plainText (content : jsstring) : jsstring :=
  replace re_newline [RLit [Chr.space]]
    (replace re_emphasis [RGroup 1]
      (replace re_heading []
        (replace re_link []
          (replace re_image []
            (replace re_inline_code []
              (replace re_code_block [] content)))))).

Definition chineseChars (plain : jsstring) : Z :=
  Z.of_nat (length (or_empty (js_match re_cjk plain))).

Definition englishWords (plain : jsstring) : Z :=
  Z.of_nat (length (List.filter (fun word => 0 <? slen word)
                      (split re_spaces (replace re_cjk [] plain)))).

Definition calculateReadingTime (content : jsstring) : Z :=
  let plain := plainText content in
  let readingTime :=
    Math_ceil (Num_add (Num_div (chineseChars plain) 200)
                       (Num_div (englishWords plain) 250)) in
  Math_max 1 readingTime.

(** ** [generatePostId] *)

(** [String.prototype.slice] *)
Definition slice (s : jsstring) (from to : Z) : jsstring :=
  let len := slen s in
  let clamp i := if i <? 0 then Z.max (len + i) 0 else Z.min i len in
  let a := clamp from in
  let b := clamp to in
  take (Z.to_nat (Z.max (b - a) 0)) (drop (Z.to_nat a) s).

(** [path.basename(path, suffix)] of Node's POSIX flavour, which scans the
    path from its end. *)
Record bn_state := BnState {
  bn_start : Z;
  bn_end : Z;
  bn_matchedSlash : bool;
  bn_extIdx : Z;
  bn_firstNonSlashEnd : Z;
  bn_break : bool
}.

Definition charCodeAt (s : jsstring) (i : Z) : Z := nth (Z.to_nat i) s (-1).

Definition bn_step_suffix (suffix : jsstring) (st : bn_state) (i code : Z) : bn_state :=
  if code =? Chr.slash then
    if negb (bn_matchedSlash st) then
      BnState (i + 1) (bn_end st) (bn_matchedSlash st) (bn_extIdx st)
              (bn_firstNonSlashEnd st) true
    else st
  else
    let st1 :=
      if bn_firstNonSlashEnd st =? -1 then
        BnState (bn_start st) (bn_end st) false (bn_extIdx st) (i + 1) false
      else st in
    if 0 <=? bn_extIdx st1 then
      if code =? charCodeAt suffix (bn_extIdx st1) then
        let extIdx := bn_extIdx st1 - 1 in
        BnState (bn_start st1) (if extIdx =? -1 then i else bn_end st1)
                (bn_matchedSlash st1) extIdx (bn_firstNonSlashEnd st1) false
      else
        BnState (bn_start st1) (bn_firstNonSlashEnd st1) (bn_matchedSlash st1) (-1)
                (bn_firstNonSlashEnd st1) false
    else st1.

Definition bn_step_plain (st : bn_state) (i code : Z) : bn_state :=
  if code =? Chr.slash then
    if negb (bn_matchedSlash st) then
      BnState (i + 1) (bn_end st) (bn_matchedSlash st) (bn_extIdx st)
              (bn_firstNonSlashEnd st) true
    else st
  else if bn_end st =? -1 then
    BnState (bn_start st) (i + 1) false (bn_extIdx st) (bn_firstNonSlashEnd st) false
  else st.

(** The [for (i = path.length - 1; i >= 0; --i)] loop, on the reversed path. *)
Fixpoint bn_loop (step : bn_state -> Z -> Z -> bn_state) (rpath : jsstring)
    (i : Z) (st : bn_state) : bn_state :=
  match rpath with
  | [] => st
  | code :: rest =>
      let st' := step st i code in
      if bn_break st' then st' else bn_loop step rest (i - 1) st'
  end.

Definition basename (path suffix : jsstring) : jsstring :=
  let init extIdx := BnState 0 (-1) true extIdx (-1) false in
  if (0 <? slen suffix) && (slen suffix <=? slen path) then
    if bool_decide (suffix = path) then []
    else
      let st := bn_loop (bn_step_suffix suffix) (rev path) (slen path - 1)
                        (init (slen suffix - 1)) in
      let end_ :=
        if bn_start st =? bn_end st then bn_firstNonSlashEnd st
        else if bn_end st =? -1 then slen path
        else bn_end st in
      slice path (bn_start st) end_
  else
    let st := bn_loop bn_step_plain (rev path) (slen path - 1) (init (-1)) in
    if bn_end st =? -1 then [] else slice path (bn_start st) (bn_end st).

(** [String.prototype.toLowerCase], for the ASCII letters only: the other code
    units are kept as they are, where the host also maps code units outside
    ASCII (U+212A to [k], U+0130 to [i] and U+0307).  A statement that
    depends on the lower-casing of such code units takes the function of the
    host as a parameter, see [generatePostId_with]. *)
Definition toLowerCase (s : jsstring) : jsstring :=
  map (fun c => if in_range 65 90 c then c + 32 else c) s.

(** The three replacements of [generatePostId], on the lower-cased name. *)
Definition slugify (name : jsstring) : jsstring :=
  replace re_edge_hyphen []
    (replace re_hyphens [RLit [Chr.hyphen]]
      (replace re_non_slug [RLit [Chr.hyphen]] name)).

Definition generatePostId (filename : jsstring) : jsstring :=
  slugify (toLowerCase (basename filename (str ".md"))).

(** [generatePostId] for a host whose [String.prototype.toLowerCase] is
    [String_toLowerCase]: the function of the script with the lower-casing it
    calls as a parameter.  [generatePostId] is its instance at the ASCII
    mapping. *)
Definition generatePostId_with (String_toLowerCase : jsstring -> jsstring)
    (filename : jsstring) : jsstring :=
  slugify (String_toLowerCase (basename filename (str ".md"))).

(** ** Records *)

(** [interface PostFrontMatter]; an absent key is [None]. *)
Record PostFrontMatter := {
  fm_title : option jsstring;
  fm_date : option jsstring;
  fm_excerpt : option jsstring;
  fm_tags : option (list jsstring);
  fm_featured : option bool
}.

(** [interface BlogPost] *)
Record BlogPost := {
  post_id : jsstring;
  post_title : jsstring;
  post_date : jsstring;
  post_excerpt : jsstring;
  post_content : jsstring;
  post_tags : list jsstring;
  post_readingTime : Z;
  post_featured : bool
}.

(** Truthiness of a [string | undefined]: [undefined] and [''] are falsy. *)
Definition truthy (x : option jsstring) : bool :=
  match x with
  | Some (_ :: _) => true
  | Some [] | None => false
  end.

(** [x || d] on strings, [x || []] on arrays, [x || false] on booleans. *)
Definition or_str (x : option jsstring) (d : jsstring) : jsstring :=
  match x with
  | Some (c :: s) => c :: s
  | Some [] | None => d
  end.

Definition or_array {A} (x : option (list A)) (d : list A) : list A :=
  match x with Some l => l | None => d end.

Definition or_bool (x : option bool) (d : bool) : bool :=
  match x with Some true => true | Some false | None => d end.

(** ** Sorting

    [Array.prototype.sort] is stable, and for a consistent comparator every
    stable sort returns the same array; it is modelled by insertion.  The
    comparator returns a Number, [None] standing for [NaN], which the sort
    reads as [+0].  With a comparator that is not consistent the language
    leaves the order to the engine; insertion then is one order an engine
    may produce. *)

Definition SortCompare {A} (comparefn : A -> A -> option Z) (x y : A) : Z :=
  match comparefn x y with Some v => v | None => 0 end.

Fixpoint sort_insert {A} (comparefn : A -> A -> option Z) (x : A) (l : list A) : list A :=
  match l with
  | [] => [x]
  | y :: l' =>
      if SortCompare comparefn x y <=? 0 then x :: y :: l'
      else y :: sort_insert comparefn x l'
  end.

Fixpoint Array_sort {A} (comparefn : A -> A -> option Z) (l : list A) : list A :=
  match l with
  | [] => []
  | x :: l' => sort_insert comparefn x (Array_sort comparefn l')
  end.

(** The comparison of [sort()] without a comparator: strings by code units. *)
Fixpoint string_compare (x y : jsstring) : comparison :=
  match x, y with
  | [], [] => Eq
  | [], _ :: _ => Lt
  | _ :: _, [] => Gt
  | a :: x', b :: y' =>
      match a ?= b with
      | Eq => string_compare x' y'
      | c => c
      end
  end.

Definition default_compare (x y : jsstring) : option Z :=
  Some (match string_compare x y with Lt => -1 | Eq => 0 | Gt => 1 end).

(** ** Console *)

Inductive level := LOG | WARN | ERROR.

Inductive message :=
| MsgStart
| MsgNoFiles
| MsgFound (n : nat)
| MsgProcessing (file : jsstring)
| MsgParsed (title : jsstring)
| MsgMissingField (filePath : jsstring)
| MsgParseError (filePath : jsstring)
| MsgUpdated
| MsgStats
| MsgTotal (n : nat)
| MsgFeatured (n : nat)
| MsgTagCount (n : nat)
| MsgOutput (outputPath : jsstring)
| MsgDone
| MsgGitAdd
| MsgGitCommit
| MsgGitPush
| MsgSyncError.

Definition console := list (level * message).

(** A [Set], in insertion order. *)
Definition Set_add (x : jsstring) (s : list jsstring) : list jsstring :=
  if bool_decide (x ∈ s) then s else s ++ [x].

Definition Set_of (l : list jsstring) : list jsstring :=
  fold_left (fun s x => Set_add x s) l [].

(** ** The script, in its environment *)

Section Script.

(** What the script takes from its host: the file system, the front-matter
    parser ([gray-matter]), the date parser, the clock and the JSON
    printer.  [None] is a thrown exception (a rejected promise), except for
    [Date_getTime], where it is [NaN].  [matter] is the answer of the parser
    to a content it is given for the first time: the library keeps its
    answers by content, and asked again about a content that made it throw it
    returns empty data, for which [parseMarkdownFile] prints the warning of
    the missing field in place of the error. *)
Variable cwd : jsstring.
Variable path_join : list jsstring -> jsstring.
Variable glob : jsstring -> jsstring -> option (list jsstring).
Variable readFile : jsstring -> option jsstring.
Variable writeFile : jsstring -> jsstring -> option unit.
Variable matter : jsstring -> option (PostFrontMatter * jsstring).
Variable Date_getTime : jsstring -> option Z.
Variable now_toISOString : jsstring.
Variable JSON_stringify : list BlogPost -> jsstring.
Variable blog_data_template : jsstring -> jsstring -> jsstring.

(** [(a, b) => new Date(b.date).getTime() - new Date(a.date).getTime()] *)
Definition by_date_desc (a b : BlogPost) : option Z :=
  match Date_getTime (post_date b), Date_getTime (post_date a) with
  | Some tb, Some ta => Some (tb - ta)
  | _, _ => None
  end.

(** [parseMarkdownFile]: the record, or [null], and what it prints.  The
    [catch] turns a failed read or a failed parse of the front matter into
    [console.error] and [null]. *)
Definition parseMarkdownFile (filePath : jsstring) : option BlogPost * console :=
  match readFile filePath with
  | None => (None, [(ERROR, MsgParseError filePath)])
  | Some fileContent =>
      match matter fileContent with
      | None => (None, [(ERROR, MsgParseError filePath)])
      | Some (frontMatter, content) =>
          if negb (truthy (fm_title frontMatter)) || negb (truthy (fm_date frontMatter))
          then (None, [(WARN, MsgMissingField filePath)])
          else
            let id := generatePostId (basename filePath []) in
            let readingTime := calculateReadingTime content in
            let excerpt := or_str (fm_excerpt frontMatter) [] in
            let excerpt :=
              if negb (truthy (Some excerpt)) then
                let plain := trim (plainText content) in
                substring0 150 plain ++ (if 150 <? slen plain then str "..." else [])
              else excerpt in
            (Some {| post_id := id;
                     post_title := default [] (fm_title frontMatter);
                     post_date := default [] (fm_date frontMatter);
                     post_excerpt := excerpt;
                     post_content := content;
                     post_tags := or_array (fm_tags frontMatter) [];
                     post_readingTime := readingTime;
                     post_featured := or_bool (fm_featured frontMatter) false |},
             [])
      end
  end.

(** The text of [blog-data.ts]: a template around the time stamp and
    [JSON.stringify(posts, null, 2)]. *)
Definition generateBlogDataContent (posts : list BlogPost) : jsstring :=
  blog_data_template now_toISOString (JSON_stringify posts).

Definition blogPostsDir : jsstring := path_join [cwd; str "blog-posts"].
Definition outputPath : jsstring :=
  path_join [cwd; str "src"; str "static"; str "blog-data.ts"].

(** The [for (const file of markdownFiles)] loop: the posts pushed and the
    lines printed. *)
Fixpoint parseAll (markdownFiles : list jsstring) : list BlogPost * console :=
  match markdownFiles with
  | [] => ([], [])
  | file :: rest =>
      let filePath := path_join [blogPostsDir; file] in
      let '(post, out) := parseMarkdownFile filePath in
      let '(posts, out') := parseAll rest in
      match post with
      | Some p =>
          (p :: posts,
           (LOG, MsgProcessing file) :: out ++ (LOG, MsgParsed (post_title p)) :: out')
      | None => (posts, (LOG, MsgProcessing file) :: out ++ out')
      end
  end.

(** The outcome of a run: the exit status, the console and the file
    written, if any. *)
Record outcome := {
  exit_code : Z;
  printed : console;
  written : option (jsstring * jsstring)
}.

(** [syncBlog] once [glob] has returned. *)
Definition syncFiles (markdownFiles : list jsstring) : outcome :=
  let found :=
    match markdownFiles with
    | [] => (LOG, MsgNoFiles)
    | _ :: _ => (LOG, MsgFound (length markdownFiles))
    end in
  let '(posts, out) := parseAll markdownFiles in
  let posts := Array_sort by_date_desc posts in
  let content := generateBlogDataContent posts in
  let out := (LOG, MsgStart) :: found :: out in
  match writeFile outputPath content with
  | None => {| exit_code := 1; printed := out ++ [(ERROR, MsgSyncError)]; written := None |}
  | Some _ =>
      let stats :=
        [(LOG, MsgUpdated); (LOG, MsgStats);
         (LOG, MsgTotal (length posts));
         (LOG, MsgFeatured (length (List.filter post_featured posts)));
         (LOG, MsgTagCount (length (Set_of (flat_map post_tags posts))));
         (LOG, MsgOutput outputPath)] in
      let hints :=
        match posts with
        | [] => []
        | _ :: _ => [(LOG, MsgDone); (LOG, MsgGitAdd); (LOG, MsgGitCommit); (LOG, MsgGitPush)]
        end in
      {| exit_code := 0; printed := out ++ stats ++ hints;
         written := Some (outputPath, content) |}
  end.

Definition syncBlog : outcome :=
  match glob (str "**/*.md") blogPostsDir with
  | None =>
      {| exit_code := 1; printed := [(LOG, MsgStart); (ERROR, MsgSyncError)];
         written := None |}
  | Some markdownFiles => syncFiles markdownFiles
  end.

(** *** The accessors written into [blog-data.ts] *)

(** [getAllTags], over the [blogPosts] constant of the generated module. *)
Definition getAllTags (blogPosts : list BlogPost) : list jsstring :=
  let tags :=
    fold_left (fun tags post =>
                 fold_left (fun tags tag => Set_add tag tags) (post_tags post) tags)
              blogPosts [] in
  Array_sort default_compare tags.

(** Arrays live in a store, so that a function can change the array it is
    given.  [[...posts]] allocates a copy and [sort] works in place on the
    array it is called on and returns it. *)
Definition spread (posts : positive) (h : gmap positive (list BlogPost))
    : option (positive * gmap positive (list BlogPost)) :=
  match h !! posts with
  | Some l => let a := fresh (dom h) in Some (a, <[a := l]> h)
  | None => None
  end.

Definition sort_in_place (comparefn : BlogPost -> BlogPost -> option Z)
    (a : positive) (h : gmap positive (list BlogPost))
    : option (positive * gmap positive (list BlogPost)) :=
  match h !! a with
  | Some l => Some (a, <[a := Array_sort comparefn l]> h)
  | None => None
  end.

Definition sortPostsByDate (posts : positive) (h : gmap positive (list BlogPost))
    : option (positive * gmap positive (list BlogPost)) :=
  match spread posts h with
  | Some (copy, h1) => sort_in_place by_date_desc copy h1
  | None => None
  end.

(** *** Order of dates *)

Definition parseable (p : BlogPost) : Prop := is_Some (Date_getTime (post_date p)).

(** [a] is not older than [b]. *)
Definition date_ge (a b : BlogPost) : Prop :=
  forall ta tb,
    Date_getTime (post_date a) = Some ta ->
    Date_getTime (post_date b) = Some tb ->
    tb <= ta.

End Script.

(** ** Vocabulary of the statements *)

(** The non-empty tokens of a text, whitespace being the separator. *)
Fixpoint tokens_aux (cur : jsstring) (s : jsstring) : list jsstring :=
  match s with
  | [] => match cur with [] => [] | _ :: _ => [rev cur] end
  | c :: t =>
      if is_space c then
        match cur with
        | [] => tokens_aux [] t
        | _ :: _ => rev cur :: tokens_aux [] t
        end
      else tokens_aux (c :: cur) t
  end.

Definition tokens (s : jsstring) : list jsstring := tokens_aux [] s.

Definition cjkCount (plain : jsstring) : Z :=
  Z.of_nat (length (List.filter is_cjk plain)).

Definition wordCount (plain : jsstring) : Z :=
  Z.of_nat (length (tokens (List.filter (cnot is_cjk) plain))).

(** The formula of the estimator on the two counts. *)
Definition minutes (cjk words : Z) : Z :=
  Math_ceil (Num_add (Num_div cjk 200) (Num_div words 250)).

(** Length of the longest prefix in a class. *)
Fixpoint span_len (p : cset) (s : jsstring) : nat :=
  match s with
  | c :: t => if p c then S (span_len p t) else O
  | [] => O
  end.

(** What [/-+/g -> '-'] computes: runs of hyphens shrink to one hyphen.
    [after_hyphen] tells that the code unit before [s] was a hyphen. *)
Fixpoint collapse (after_hyphen : bool) (s : jsstring) : jsstring :=
  match s with
  | [] => []
  | c :: t =>
      if is_hyphen c then
        if after_hyphen then collapse true t else Chr.hyphen :: collapse true t
      else c :: collapse false t
  end.

(** What [/-$/] removes. *)
Fixpoint drop_last_hyphen (s : jsstring) : jsstring :=
  match s with
  | [] => []
  | c :: t =>
      match t with
      | [] => if is_hyphen c then [] else [c]
      | _ :: _ => c :: drop_last_hyphen t
      end
  end.

Definition trim_hyphens (s : jsstring) : jsstring :=
  match s with
  | [] => []
  | c :: t => if is_hyphen c then drop_last_hyphen t else c :: drop_last_hyphen t
  end.

(** Script [Han], on the Basic Multilingual Plane: radicals, ideographic
    marks and numerals, Extension A, the unified ideographs and the
    compatibility ideographs. *)
Definition is_han : cset :=
  fun c =>
    in_range 11904 11929 c || in_range 11931 12019 c || in_range 12032 12245 c
    || (c =? 12293) || (c =? 12295) || in_range 12321 12329 c
    || in_range 12344 12347 c || in_range 13312 19903 c
    || in_range 19968 40959 c || in_range 63744 64109 c
    || in_range 64112 64217 c.

(** The class [[a-z0-9\p{Han}-]] of the pattern an id is said to match. *)
Definition id_char : cset := cor is_lower (cor is_digit (cor is_han is_hyphen)).

(** [[a-z0-9\p{Han}-]+] *)
Definition matches_id_pattern (s : jsstring) : Prop :=
  s <> [] /\ Forall (fun c => id_char c = true) s.

Definition no_leading_hyphen (s : jsstring) : Prop := head s <> Some Chr.hyphen.
Definition no_trailing_hyphen (s : jsstring) : Prop := last s <> Some Chr.hyphen.
Definition no_double_hyphen (s : jsstring) : Prop :=
  forall i : nat, ~ (s !! i = Some Chr.hyphen /\ s !! S i = Some Chr.hyphen).

(** The same, as a recursive check. *)
Fixpoint single_hyphens (s : jsstring) : bool :=
  match s with
  | a :: t =>
      match t with
      | b :: _ => negb (is_hyphen a && is_hyphen b) && single_hyphens t
      | [] => true
      end
  | [] => true
  end.

(** The code units the Markdown patterns start from: a text without them is
    left alone by the first six replacements. *)
Definition is_marker : cset :=
  fun c =>
    (c =? Chr.backtick) || (c =? Chr.lbracket) || (c =? Chr.hash)
    || (c =? Chr.star) || (c =? Chr.underscore).

Definition newline_to_space (c : Z) : Z := if c =? Chr.newline then Chr.space else c.

(** Texts of one language class. *)
Definition cjk_only (s : jsstring) : bool := forallb is_cjk s.
Definition no_cjk (s : jsstring) : bool := forallb (cnot is_cjk) s.
Definition plain_words_only (s : jsstring) : bool :=
  forallb (fun c => negb (is_cjk c) && negb (is_marker c)) s.

Definition nonempty (word : jsstring) : bool := 0 <? slen word.

Definition not_hyphen : cset := cnot is_hyphen.

(** What [generatePostId] keeps or writes. *)
Definition slug_char (c : Z) : Prop := slug_keep c = true \/ c = Chr.hyphen.

Definition unmarked (s : jsstring) : Prop := Forall (fun c => is_marker c = false) s.

(** The order a comparator induces: [x] may stay before [y]. *)
Definition cmp_le {A} (comparefn : A -> A -> option Z) (x y : A) : Prop :=
  SortCompare comparefn x y <= 0.

(** Strict lexicographic order on code units. *)
Definition str_lt (x y : jsstring) : Prop := string_compare x y = Lt.

(** The excerpt of a body without an explicit one: the first 150 code units
    of the trimmed plain text, and the marker when something was cut. *)
Definition ellipsis : jsstring := str "...".

Definition auto_excerpt (content : jsstring) : jsstring :=
  let plain := trim (plainText content) in
  if decide (length plain <= 150)%nat then plain else take 150 plain ++ ellipsis.

(** Front matter with a field set, and with its empty strings dropped. *)
Definition with_excerpt (e : option jsstring) (fm : PostFrontMatter) : PostFrontMatter :=
  {| fm_title := fm_title fm; fm_date := fm_date fm; fm_excerpt := e;
     fm_tags := fm_tags fm; fm_featured := fm_featured fm |}.

Definition drop_empty (x : option jsstring) : option jsstring :=
  match x with Some [] => None | _ => x end.

Definition without_empty_required (fm : PostFrontMatter) : PostFrontMatter :=
  {| fm_title := drop_empty (fm_title fm); fm_date := drop_empty (fm_date fm);
     fm_excerpt := fm_excerpt fm; fm_tags := fm_tags fm;
     fm_featured := fm_featured fm |}.

(** The real value of a Number, and the powers of two. *)
Definition P (e : Z) : R := powerRZ 2 e.
Definition num_val (x : num) : R := (IZR (num_n x) / IZR (num_d x))%R.

(** The real value of the Number nearest to a quotient. *)
Definition fl_val (n d : Z) : R := num_val (round_ratio n d).

(** The ceiling of the exact quotient [(5 c + 4 w) / 1000]. *)
Definition exact_minutes (c w : Z) : Z := - ((- (5 * c + 4 * w)) / 1000).

(** The integer part of [n / d] in units of [2^k]. *)
Definition grid_floor (k n d : Z) : Z := scale_num k n / scale_den k d.

(** The margin below [r = Mr * 2^(E-52)] inside which a sum still rounds to
    [r]: half a unit, or a quarter when [r] is a power of two. *)
Definition margin_below (Mr E : Z) : R :=
  if Mr =? 2 ^ 52 then P (E - 54) else P (E - 53).

(** *** A date parser for the examples

    The date-only ISO form [YYYY-MM-DD], read as midnight UTC; every other
    string is unparseable.  The statements below hold for every parser. *)

Definition days_from_civil (y m d : Z) : Z :=
  let y' := if m <=? 2 then y - 1 else y in
  let era := y' / 400 in
  let yoe := y' - era * 400 in
  let mp := (m + 9) mod 12 in
  let doy := (153 * mp + 2) / 5 + d - 1 in
  let doe := yoe * 365 + yoe / 4 - yoe / 100 + doy in
  era * 146097 + doe - 719468.

Definition is_leap (y : Z) : bool :=
  ((y mod 4 =? 0) && negb (y mod 100 =? 0)) || (y mod 400 =? 0).

Definition days_in_month (y m : Z) : Z :=
  if m =? 2 then (if is_leap y then 29 else 28)
  else if (m =? 4) || (m =? 6) || (m =? 9) || (m =? 11) then 30
  else 31.

Definition digits_val (ds : list Z) : Z :=
  fold_left (fun acc c => acc * 10 + (c - 48)) ds 0.

Definition iso_getTime (s : jsstring) : option Z :=
  match s with
  | [y1; y2; y3; y4; h1; m1; m2; h2; d1; d2] =>
      if is_hyphen h1 && is_hyphen h2
         && forallb is_digit [y1; y2; y3; y4; m1; m2; d1; d2]
      then
        let y := digits_val [y1; y2; y3; y4] in
        let m := digits_val [m1; m2] in
        let d := digits_val [d1; d2] in
        if in_range 1 12 m && in_range 1 (days_in_month y m) d
        then Some (days_from_civil y m d * 86400000)
        else None
      else None
  | _ => None
  end.

(** *** Data for the examples *)

(** Three hundred words after a backtick that nothing closes. *)
Definition open_code_span : jsstring :=
  Chr.backtick :: concat (repeat (str " a") 300).

Definition reads (fileContent : jsstring) : jsstring -> option jsstring :=
  fun _ => Some fileContent.

Definition reads_except (missing fileContent : jsstring) : jsstring -> option jsstring :=
  fun filePath => if bool_decide (filePath = missing) then None else Some fileContent.

Definition parses (fm : PostFrontMatter) (content : jsstring)
    : jsstring -> option (PostFrontMatter * jsstring) :=
  fun _ => Some (fm, content).

Definition join_slash (parts : list jsstring) : jsstring :=
  match parts with
  | [] => str "."
  | p :: ps => fold_left (fun acc q => acc ++ Chr.slash :: q) ps p
  end.

Definition fm_run : PostFrontMatter :=
  {| fm_title := Some (str "Run"); fm_date := Some (str "2024-01-15");
     fm_excerpt := None; fm_tags := None; fm_featured := None |}.

Definition fm_no_date : PostFrontMatter :=
  {| fm_title := Some (str "Run"); fm_date := None;
     fm_excerpt := None; fm_tags := None; fm_featured := None |}.

Definition fm_empty_title : PostFrontMatter :=
  {| fm_title := Some []; fm_date := Some (str "2024-01-15");
     fm_excerpt := None; fm_tags := None; fm_featured := None |}.

Definition post_dated (id date : string) : BlogPost :=
  {| post_id := str id; post_title := str id; post_date := str date;
     post_excerpt := []; post_content := []; post_tags := [];
     post_readingTime := 1; post_featured := false |}.

Definition post_jan : BlogPost := post_dated "jan" "2024-01-01".
Definition post_feb : BlogPost := post_dated "feb" "2024-02-01".
Definition post_tbd : BlogPost := post_dated "tbd" "TBD".

Definition write_ok : jsstring -> jsstring -> option unit := fun _ _ => Some tt.
Definition print_count (posts : list BlogPost) : jsstring :=
  repeat Chr.star (length posts).
Definition paste (now json : jsstring) : jsstring := now ++ json.

(** ** The other accessors written into [blog-data.ts] *)

(** [Array.prototype.includes], on strings. *)
Definition Array_includes (x : jsstring) (l : list jsstring) : bool :=
  existsb (fun y => bool_decide (y = x)) l.

(** [getPostById]: [blogPosts.find(post => post.id === id)]. *)
Definition getPostById (blogPosts : list BlogPost) (id : jsstring) : option BlogPost :=
  List.find (fun post => bool_decide (post_id post = id)) blogPosts.

(** [getFeaturedPosts]: [blogPosts.filter(post => post.featured)]. *)
Definition getFeaturedPosts (blogPosts : list BlogPost) : list BlogPost :=
  List.filter (fun post => post_featured post) blogPosts.

(** [getPostsByTag]: [blogPosts.filter(post => post.tags.includes(tag))]. *)
Definition getPostsByTag (blogPosts : list BlogPost) (tag : jsstring) : list BlogPost :=
  List.filter (fun post => Array_includes tag (post_tags post)) blogPosts.

(** ** More of [String.prototype] and [Array.prototype] *)

(** [s.startsWith(t)], [s.includes(t)] and [s.endsWith(t)]. *)
Fixpoint startsWith (s t : jsstring) {struct t} : bool :=
  match t, s with
  | [], _ => true
  | _ :: _, [] => false
  | y :: t', x :: s' => (x =? y) && startsWith s' t'
  end.

Fixpoint String_includes (s t : jsstring) : bool :=
  startsWith s t ||
  match s with
  | [] => false
  | _ :: s' => String_includes s' t
  end.

Definition endsWith (s t : jsstring) : bool := startsWith (rev s) (rev t).

(** [s.split(sep)] for a string [sep]: the separators are found from left to
    right and do not overlap; [skip] counts the code units of a separator
    that are still to be passed.  An empty separator splits between the code
    units. *)
Fixpoint split_str_from (sep : jsstring) (skip : nat) (cur : jsstring) (s : jsstring)
    : list jsstring :=
  match s with
  | [] => [rev cur]
  | c :: t =>
      match skip with
      | S n => split_str_from sep n cur t
      | O =>
          if startsWith s sep
          then rev cur :: split_str_from sep (length sep - 1) [] t
          else split_str_from sep O (c :: cur) t
      end
  end.

Definition split_str (sep s : jsstring) : list jsstring :=
  match sep with
  | [] => map (fun c => [c]) s
  | _ :: _ => split_str_from sep 0 [] s
  end.

(** [a.join(sep)] *)
Fixpoint Array_join (sep : jsstring) (a : list jsstring) : jsstring :=
  match a with
  | [] => []
  | [x] => x
  | x :: rest => x ++ sep ++ Array_join sep rest
  end.

(** [a.findIndex(f)], which is [-1] when no element passes, and [a[i]], which
    is [undefined] outside of the array. *)
Fixpoint findIndex_from {A} (f : A -> bool) (i : Z) (a : list A) : Z :=
  match a with
  | [] => -1
  | x :: rest => if f x then i else findIndex_from f (i + 1) rest
  end.

Definition findIndex {A} (f : A -> bool) (a : list A) : Z := findIndex_from f 0 a.

Definition Array_at {A} (a : list A) (i : Z) : option A :=
  if i <? 0 then None else a !! Z.to_nat i.

(** ** The site's links ([static/site-metadata.ts]) *)

(** [getBasePath], with [import.meta.env.BASE_URL] as its argument, and the
    links built from it. *)
Module SiteMetadata.

Definition getBasePath (BASE_URL : jsstring) : jsstring :=
  let baseUrl := BASE_URL in
  if bool_decide (baseUrl = str "/") then [] else baseUrl.

Definition navLinks (BASE_URL : jsstring) : list (jsstring * jsstring) :=
  [(str "Summary", getBasePath BASE_URL ++ str "/summary");
   (str "Blog", getBasePath BASE_URL ++ str "/blog");
   (str "About", str "https://github.com/weipanner/about")].

End SiteMetadata.

(** The second copy of the module, whose [getBasePath] also removes a final
    slash. *)
Module SiteMetadataTrim.

Definition getBasePath (BASE_URL : jsstring) : jsstring :=
  let baseUrl := BASE_URL in
  if bool_decide (baseUrl = str "/") then []
  else if endsWith baseUrl (str "/") then slice baseUrl 0 (-1) else baseUrl.

Definition navLinks (BASE_URL : jsstring) : list (jsstring * jsstring) :=
  [(str "Summary", getBasePath BASE_URL ++ str "/summary");
   (str "Blog", getBasePath BASE_URL ++ str "/blog");
   (str "About", str "https://github.com/weipanner/about")].

End SiteMetadataTrim.

(** ** The pages that read [blog-data.ts] ([pages/blog]) *)

Section Pages.

(** The browser's [String.prototype.toLowerCase] and date parser, and the
    [blogPosts] constant of the generated module. *)
Variable String_toLowerCase : jsstring -> jsstring.
Variable Date_getTime : jsstring -> option Z.
Variable blogPosts : list BlogPost.

(** The array that [sortPostsByDate(posts)] returns: a sorted copy. *)
Definition sortedCopy (posts : list BlogPost) : list BlogPost :=
  Array_sort (by_date_desc Date_getTime) posts.

(** The test of the search box of the list page. *)
Definition matchesSearch (searchTerm : jsstring) (post : BlogPost) : bool :=
  String_includes (String_toLowerCase (post_title post)) (String_toLowerCase searchTerm)
  || String_includes (String_toLowerCase (post_excerpt post)) (String_toLowerCase searchTerm)
  || existsb (fun tag => String_includes (String_toLowerCase tag)
                                         (String_toLowerCase searchTerm))
             (post_tags post).

(** [filteredPosts] and [featuredPosts] of the list page. *)
Definition filteredPosts (selectedTag searchTerm : jsstring) : list BlogPost :=
  let posts := blogPosts in
  let posts :=
    if truthy (Some selectedTag) then getPostsByTag blogPosts selectedTag else posts in
  let posts :=
    if truthy (Some searchTerm) then List.filter (matchesSearch searchTerm) posts
    else posts in
  sortedCopy posts.

Definition featuredPosts : list BlogPost :=
  List.filter (fun post => post_featured post) blogPosts.

(** The post page: the post of the route, its related posts and its
    neighbours by date. *)
Definition currentPost (id : option jsstring) : option BlogPost :=
  if truthy id then getPostById blogPosts (default [] id) else None.

Definition relatedPosts (post : BlogPost) : list BlogPost :=
  take 3
    (List.filter
       (fun p => negb (bool_decide (post_id p = post_id post))
                 && existsb (fun tag => Array_includes tag (post_tags post)) (post_tags p))
       blogPosts).

Definition sortedPosts : list BlogPost := sortedCopy blogPosts.

Definition currentIndex (post : BlogPost) : Z :=
  findIndex (fun p => bool_decide (post_id p = post_id post)) sortedPosts.

Definition prevPost (post : BlogPost) : option BlogPost :=
  if 0 <? currentIndex post then Array_at sortedPosts (currentIndex post - 1) else None.

Definition nextPost (post : BlogPost) : option BlogPost :=
  if currentIndex post <? Z.of_nat (length sortedPosts) - 1
  then Array_at sortedPosts (currentIndex post + 1) else None.

(** The paragraphs of [renderContent]. *)
Definition renderContent (content : jsstring) : list jsstring :=
  split_str [Chr.newline; Chr.newline] content.

End Pages.

(** ** More vocabulary of the statements *)

(** [st'] is reached from [st] by reading [n] code units of the input and
    closing groups that each hold at most [n] code units. *)
Definition advances (st st' : mstate) : Prop :=
  exists n new,
    ms_pos st' = (ms_pos st + n)%nat
    /\ (n <= length (ms_rest st))%nat
    /\ ms_rest st' = drop n (ms_rest st)
    /\ ms_caps st' = ms_caps st ++ new
    /\ Forall (fun c => (length c <= n)%nat) new.

(** A file name, without a directory. *)
Definition no_slash (s : jsstring) : bool := forallb (cnot (is_char Chr.slash)) s.

(** A string of kept code units and single inner hyphens. *)
Definition is_slug (s : jsstring) : bool :=
  forallb (cor slug_keep is_hyphen) s
  && single_hyphens s
  && match head s with Some c => negb (is_hyphen c) | None => true end
  && match last s with Some c => negb (is_hyphen c) | None => true end.

(** The records of one time stamp. *)
Definition has_time (getTime : jsstring -> option Z) (t : Z) (p : BlogPost) : bool :=
  bool_decide (getTime (post_date p) = Some t).

(** The file a line of the console announces, and the lines that tell that a
    file was skipped. *)
Definition processed_file (line : level * message) : option jsstring :=
  match line with
  | (LOG, MsgProcessing file) => Some file
  | _ => None
  end.

Definition is_skip_line (line : level * message) : bool :=
  match line with
  | (WARN, MsgMissingField _) | (ERROR, MsgParseError _) => true
  | _ => false
  end.

(** *** More data for the examples *)

Definition post_with (id date : string) (tags : list string) (featured : bool) : BlogPost :=
  {| post_id := str id; post_title := str id; post_date := str date;
     post_excerpt := []; post_content := []; post_tags := map str tags;
     post_readingTime := 1; post_featured := featured |}.

Definition post_mar : BlogPost := post_with "mar" "2024-03-01" ["run"; "race"] true.
Definition post_apr : BlogPost := post_with "apr" "2024-04-01" ["run"] false.
Definition post_mar2 : BlogPost := post_with "mar-2" "2024-03-01" ["race"] false.

(** * Facts *)

(** ** Examples *)

Example slug_of_dated_name :
  generatePostId (str "2024-01-15-My First_Marathon.md")
  = str "2024-01-15-my-first-marathon".
Proof. reflexivity. Qed.

Example slug_drops_directories :
  generatePostId (str "notes/--Hello  World!!.md") = str "hello-world".
Proof. reflexivity. Qed.

Example slug_keeps_ideographs :
  generatePostId ([36305; 27493] ++ str " 2024.md") = [36305; 27493] ++ str "-2024".
Proof. reflexivity. Qed.

Example plainText_of_markdown :
  plainText (str "# Title" ++ [Chr.newline]
             ++ str "Some **bold** and _it_ text, `code`, [link](http://x) ![img](a.png)."
             ++ [Chr.newline] ++ str "```js" ++ [Chr.newline] ++ str "let x = 1;"
             ++ [Chr.newline] ++ str "```" ++ [Chr.newline] ++ str "end")
  = str "Title Some bold and it text, ,  .  end".
Proof. reflexivity. Qed.

Example split_on_spaces :
  split re_spaces (str "  a b  c ") = [[]; str "a"; str "b"; str "c"; []].
Proof. reflexivity. Qed.

Example one_two_hundredth : Num_div 1 200 = Num 5764607523034235 (-60).
Proof. reflexivity. Qed.

Example reading_time_of_words : calculateReadingTime (str "hello world") = 1.
Proof. reflexivity. Qed.

Example reading_time_of_201_ideographs :
  calculateReadingTime (repeat 36305 201) = 2.
Proof. vm_compute. reflexivity. Qed.

Example iso_getTime_new_year : iso_getTime (str "2024-01-01") = Some 1704067200000.
Proof. reflexivity. Qed.

Example newest_first :
  Array_sort (by_date_desc iso_getTime) [post_jan; post_feb] = [post_feb; post_jan].
Proof. reflexivity. Qed.

(** One file with a title, a date, no excerpt and a body of two hundred
    ideographs. *)
Example record_of_a_run :
  exists post,
    parseMarkdownFile (reads (str "raw"))
      (parses fm_run (concat (repeat [36305; 27493] 100)))
      (str "blog-posts/2024-01-15-run.md") = (Some post, [])
    /\ post_id post = str "2024-01-15-run"
    /\ post_readingTime post = 1
    /\ post_excerpt post = concat (repeat [36305; 27493] 75) ++ str "...".
Proof. eexists. split; [vm_compute; reflexivity|]. by vm_compute. Qed.

(** ** Patterns of one class *)

Lemma exec_cls p pos c t :
  exec (Cls p) pos (c :: t) = if p c then Some (1%nat, []) else None.
Proof.
  unfold exec; cbn [rmatch ms_rest ms_pos ms_caps]. destruct (p c); [|done].
  cbn [ms_pos ms_caps]. do 2 f_equal. lia.
Qed.

Lemma replace_from_cls p tmpl s pos :
  replace_from (Cls p) tmpl pos 0 s
  = flat_map (fun c => if p c then expand tmpl [] else [c]) s.
Proof.
  revert pos. induction s as [|c t IH]; intros pos; [done|].
  cbn [replace_from flat_map]. rewrite exec_cls.
  destruct (p c); rewrite IH; done.
Qed.

Lemma replace_cls_delete p s :
  replace (Cls p) [] s = List.filter (cnot p) s.
Proof.
  unfold replace. rewrite replace_from_cls.
  change (expand [] []) with (@nil Z).
  induction s as [|c t IH]; [done|]. cbn [flat_map List.filter]. unfold cnot at 1.
  destruct (p c); cbn [negb app]; by rewrite IH.
Qed.

Lemma replace_cls_subst p x s :
  replace (Cls p) [RLit [x]] s = map (fun c => if p c then x else c) s.
Proof.
  unfold replace. rewrite replace_from_cls.
  change (expand [RLit [x]] []) with [x].
  induction s as [|c t IH]; [done|]. cbn [flat_map map].
  destruct (p c); cbn [app]; by rewrite IH.
Qed.

Lemma match_from_cls p s pos :
  match_from (Cls p) pos 0 s = map (fun c => [c]) (List.filter p s).
Proof.
  revert pos. induction s as [|c t IH]; intros pos; [done|].
  cbn [match_from List.filter]. rewrite exec_cls.
  destruct (p c); rewrite IH; done.
Qed.

Lemma chineseChars_count plain : chineseChars plain = cjkCount plain.
Proof.
  unfold chineseChars, cjkCount, js_match, re_cjk.
  rewrite match_from_cls.
  destruct (List.filter is_cjk plain) as [|c l]; [done|].
  cbn [map or_empty]. by rewrite <- (length_map (fun c => [c]) (c :: l)).
Qed.

Lemma rep_greedy_unbounded p lo s pos caps :
  rep_match false p lo None s pos caps Some
  = if (lo <=? span_len p s)%nat
    then Some (MState (pos + span_len p s) (drop (span_len p s) s) caps)
    else None.
Proof.
  revert lo pos. induction s as [|c t IH]; intros lo pos.
  - destruct lo; cbn; [|done]. by rewrite Nat.add_0_r.
  - cbn [rep_match hi_allows andb hi_pred span_len]. destruct (p c).
    + destruct lo as [|lo]; rewrite IH.
      * cbn [Nat.leb or_else drop]. by rewrite Nat.add_succ_r.
      * cbn [Nat.leb drop]. destruct (lo <=? span_len p t)%nat; [|done].
        by rewrite Nat.add_succ_r.
    + destruct lo; cbn; [|done]. by rewrite Nat.add_0_r.
Qed.

Lemma exec_plus p pos s :
  exec (Rep false 1 None p) pos s
  = match span_len p s with O => None | S n => Some (S n, []) end.
Proof.
  unfold exec. cbn [rmatch ms_rest ms_pos ms_caps].
  rewrite rep_greedy_unbounded.
  destruct (span_len p s) as [|n]; [done|].
  cbn [Nat.leb ms_pos ms_caps]. do 2 f_equal. lia.
Qed.

Lemma exec_spaces pos s :
  exec re_spaces pos s
  = match span_len is_space s with O => None | S n => Some (S n, []) end.
Proof. apply exec_plus. Qed.

Lemma nonempty_rev_cons c cur : nonempty (rev (c :: cur)) = true.
Proof.
  unfold nonempty, slen. rewrite length_rev. cbn [length]. apply Z.ltb_lt. lia.
Qed.

Lemma split_from_tokens s : forall skip pos cur,
  (skip <= span_len is_space s)%nat ->
  (skip <> O -> cur = []) ->
  List.filter nonempty (split_from re_spaces pos skip cur s) = tokens_aux cur s.
Proof.
  induction s as [|c t IH]; intros skip pos cur Hskip Hcur.
  - cbn [split_from tokens_aux List.filter].
    destruct cur as [|x cur]; [done|]. by rewrite nonempty_rev_cons.
  - cbn [split_from tokens_aux]. cbn [span_len] in Hskip.
    destruct skip as [|n].
    + rewrite exec_spaces. cbn [span_len].
      destruct (is_space c).
      * cbn [app List.filter].
        rewrite (IH (span_len is_space t) (S pos) []) by (done || lia).
        destruct cur as [|x cur]; [done|]. by rewrite nonempty_rev_cons.
      * apply IH; [lia|done].
    + destruct (is_space c); [|lia]. rewrite Hcur by done.
      apply IH; [lia|done].
Qed.

Lemma split_spaces_tokens s :
  List.filter nonempty (split re_spaces s) = tokens s.
Proof.
  destruct s as [|c t]; [done|].
  unfold split, tokens. apply split_from_tokens; [lia|done].
Qed.

Lemma englishWords_count plain : englishWords plain = wordCount plain.
Proof.
  unfold englishWords, wordCount. unfold re_cjk. rewrite replace_cls_delete.
  by rewrite <- split_spaces_tokens.
Qed.

(** ** Number arithmetic: rounding is monotone *)

Lemma P_pos e : (0 < P e)%R.
Proof. apply powerRZ_lt. lra. Qed.

Lemma P_add a b : P (a + b) = (P a * P b)%R.
Proof. apply powerRZ_add. lra. Qed.

Lemma P_0 : P 0 = 1%R.
Proof. reflexivity. Qed.

Lemma P_1 : P 1 = 2%R.
Proof. unfold P. apply (powerRZ_1 2). Qed.

Lemma P_succ e : P (e + 1) = (2 * P e)%R.
Proof. rewrite P_add, P_1. lra. Qed.

Lemma P_neg e : (P (- e) * P e = 1)%R.
Proof. rewrite <- P_add. replace (- e + e) with 0 by lia. apply P_0. Qed.

Lemma P_le a b : a <= b -> (P a <= P b)%R.
Proof.
  intros H. replace b with (a + (b - a)) by lia.
  generalize (b - a) (Zle_minus_le_0 _ _ H). clear b H.
  intros k Hk. revert a. pattern k. apply natlike_ind; [| |exact Hk].
  - intros a. rewrite Z.add_0_r. lra.
  - intros x Hx IH a. replace (a + Z.succ x) with ((a + x) + 1) by lia.
    rewrite P_succ. specialize (IH a). pose proof (P_pos a). pose proof (P_pos (a + x)). lra.
Qed.

Lemma IZR_pow2 k : 0 <= k -> IZR (2 ^ k) = P k.
Proof.
  intros Hk. pattern k. apply natlike_ind; [| |exact Hk].
  - reflexivity.
  - intros x Hx IH. rewrite Z.pow_succ_r by done. rewrite mult_IZR, IH.
    unfold Z.succ. rewrite P_succ. lra.
Qed.

Lemma pow2_pos k : 0 < 2 ^ Z.max 0 k.
Proof. apply Z.pow_pos_nonneg; lia. Qed.

Lemma IZR_pow2_pos k : (0 < IZR (2 ^ Z.max 0 k))%R.
Proof. apply IZR_lt, pow2_pos. Qed.

Lemma p2_ratio a : (IZR (2 ^ Z.max 0 a) / IZR (2 ^ Z.max 0 (- a)))%R = P a.
Proof.
  destruct (Z.le_gt_cases 0 a) as [Ha|Ha].
  - rewrite (Z.max_r 0 a), (Z.max_l 0 (- a)) by lia.
    rewrite !IZR_pow2 by lia. rewrite P_0. lra.
  - rewrite (Z.max_l 0 a), (Z.max_r 0 (- a)) by lia.
    rewrite !IZR_pow2 by lia. pose proof (P_neg a). pose proof (P_pos (- a)).
    rewrite P_0.
    apply (Rmult_eq_reg_r (P (- a))); [|lra].
    unfold Rdiv. rewrite Rmult_assoc, Rinv_l by lra. lra.
Qed.

Lemma scale_ratio e n d :
  0 < d ->
  (IZR (scale_num e n) / IZR (scale_den e d))%R = (IZR n / IZR d * P (- e))%R.
Proof.
  intros Hd. unfold scale_num, scale_den. rewrite !mult_IZR.
  rewrite <- (p2_ratio (- e)). rewrite Z.opp_involutive.
  pose proof (IZR_pow2_pos e). pose proof (IZR_pow2_pos (- e)).
  apply IZR_lt in Hd. field. lra.
Qed.

Lemma log2_bounds n : 0 < n -> (P (Z.log2 n) <= IZR n < P (Z.log2 n + 1))%R.
Proof.
  intros Hn. destruct (Z.log2_spec n Hn) as [H1 H2].
  pose proof (Z.log2_nonneg n).
  rewrite <- !IZR_pow2 by lia. split; [apply IZR_le|apply IZR_lt]; lia.
Qed.

Lemma ilog2_ratio_spec n d :
  0 < n -> 0 < d ->
  let l := ilog2_ratio n d in
  (P l <= IZR n / IZR d < P (l + 1))%R.
Proof.
  intros Hn Hd. unfold ilog2_ratio.
  set (k := Z.log2 n - Z.log2 d).
  destruct (log2_bounds n Hn) as [N1 N2]. destruct (log2_bounds d Hd) as [D1 D2].
  assert (HPk : (P (Z.log2 n) = P k * P (Z.log2 d))%R).
  { rewrite <- P_add. f_equal. unfold k. lia. }
  rewrite P_succ in N2, D2.
  pose proof (P_pos k) as Hk. pose proof (P_pos (Z.log2 d)) as Hld.
  pose proof (IZR_lt _ _ Hn) as Hn'. pose proof (IZR_lt _ _ Hd) as Hd'.
  assert (Hx : (IZR n / IZR d * P (- k) = IZR (scale_num k n) / IZR (scale_den k d))%R)
    by (by rewrite scale_ratio).
  assert (Hsd : (0 < IZR (scale_den k d))%R).
  { apply IZR_lt. unfold scale_den. pose proof (pow2_pos k). lia. }
  pose proof (P_neg k) as Hnk. pose proof (P_pos (- k)) as Hnk'.
  assert (Hup : (IZR n / IZR d < 2 * P k)%R).
  { apply (Rmult_lt_reg_r (IZR d)); [lra|]. field_simplify; [|lra]. nra. }
  assert (Hlo : (P k < 2 * (IZR n / IZR d))%R).
  { apply (Rmult_lt_reg_r (IZR d)); [lra|]. field_simplify; [|lra]. nra. }
  destruct (Z.leb_spec (scale_den k d) (scale_num k n)) as [Hc|Hc]; cbn zeta.
  - split; [|by rewrite P_succ].
    apply IZR_le in Hc.
    assert ((1 <= IZR n / IZR d * P (- k))%R).
    { rewrite Hx. apply (Rmult_le_reg_r (IZR (scale_den k d))); [lra|].
      field_simplify; lra. }
    nra.
  - replace (k - 1 + 1) with k by lia.
    assert (Hk1 : (2 * P (k - 1) = P k)%R).
    { rewrite <- P_succ. f_equal. lia. }
    split; [lra|].
    apply IZR_lt in Hc.
    assert ((IZR n / IZR d * P (- k) < 1)%R).
    { rewrite Hx. apply (Rmult_lt_reg_r (IZR (scale_den k d))); [lra|].
      field_simplify; lra. }
    nra.
Qed.

Lemma rne_between n d : 0 < d -> n / d <= rne n d <= n / d + 1.
Proof.
  intros Hd. unfold rne.
  repeat match goal with |- context [if ?b then _ else _] => destruct b end; lia.
Qed.

Lemma rne_exact a d : 0 < d -> rne (a * d) d = a.
Proof.
  intros Hd. unfold rne. rewrite Z.div_mul, Z.mod_mul by lia.
  destruct (Z.ltb_spec (2 * 0) d); [done|lia].
Qed.

Lemma div_ratio_mono n1 d1 n2 d2 :
  0 < d1 -> 0 < d2 -> n1 * d2 <= n2 * d1 -> n1 / d1 <= n2 / d2.
Proof.
  intros H1 H2 H.
  pose proof (Z.div_mod n1 d1 ltac:(lia)). pose proof (Z.mod_pos_bound n1 d1 H1).
  pose proof (Z.div_mod n2 d2 ltac:(lia)). pose proof (Z.mod_pos_bound n2 d2 H2).
  destruct (Z.le_gt_cases (n1 / d1) (n2 / d2)) as [|Hgt]; [done|].
  assert (d1 * d2 * (n2 / d2 + 1) <= d1 * d2 * (n1 / d1))
    by (apply Z.mul_le_mono_nonneg_l; nia).
  nia.
Qed.

Lemma rne_mono n1 d1 n2 d2 :
  0 < d1 -> 0 < d2 -> n1 * d2 <= n2 * d1 -> rne n1 d1 <= rne n2 d2.
Proof.
  intros H1 H2 H.
  pose proof (div_ratio_mono _ _ _ _ H1 H2 H) as Hq.
  destruct (Z.eq_dec (n1 / d1) (n2 / d2)) as [Heq|Hne].
  - pose proof (Z.div_mod n1 d1 ltac:(lia)). pose proof (Z.mod_pos_bound n1 d1 H1).
    pose proof (Z.div_mod n2 d2 ltac:(lia)). pose proof (Z.mod_pos_bound n2 d2 H2).
    unfold rne. rewrite <- Heq in *.
    set (q := n1 / d1) in *. set (r1 := n1 mod d1) in *. set (r2 := n2 mod d2) in *.
    assert (Hr : r1 * d2 <= r2 * d1) by nia.
    destruct (Z.ltb_spec (2 * r1) d1), (Z.ltb_spec d1 (2 * r1)),
             (Z.ltb_spec (2 * r2) d2), (Z.ltb_spec d2 (2 * r2));
      destruct (Z.even q); try lia; nia.
  - pose proof (rne_between n1 d1 H1). pose proof (rne_between n2 d2 H2). lia.
Qed.

Lemma num_val_eq m e : num_val (Num m e) = (IZR m * P e)%R.
Proof.
  unfold num_val, num_n, num_d. cbn [mant expo]. rewrite mult_IZR.
  rewrite <- (p2_ratio e). unfold Rdiv. lra.
Qed.

Lemma IZR_ratio_le n1 d1 n2 d2 :
  0 < d1 -> 0 < d2 ->
  (IZR n1 / IZR d1 <= IZR n2 / IZR d2)%R <-> n1 * d2 <= n2 * d1.
Proof.
  intros H1 H2. pose proof (IZR_lt _ _ H1) as H1'. pose proof (IZR_lt _ _ H2) as H2'.
  split; intros H.
  - apply le_IZR. rewrite !mult_IZR.
    apply (Rmult_le_compat_r (IZR d1 * IZR d2)) in H; [|nra].
    field_simplify in H; lra.
  - apply IZR_le in H. rewrite !mult_IZR in H.
    apply (Rmult_le_reg_r (IZR d1 * IZR d2)); [nra|]. field_simplify; lra.
Qed.

Lemma scale_den_pos e d : 0 < d -> 0 < scale_den e d.
Proof. intros. unfold scale_den. pose proof (pow2_pos e). lia. Qed.

Lemma round_ratio_mant n d :
  0 < n -> 0 < d -> 2 ^ 52 <= mant (round_ratio n d) <= 2 ^ 53.
Proof.
  intros Hn Hd. unfold round_ratio.
  destruct (Z.leb_spec n 0); [lia|]. cbn [mant].
  set (l := ilog2_ratio n d). set (e := l - 52).
  pose proof (ilog2_ratio_spec n d Hn Hd) as [L1 L2]. fold l in L1, L2.
  pose proof (scale_den_pos e d Hd) as Hsd.
  pose proof (scale_ratio e n d Hd) as Hx.
  assert (E1 : (P l * P (- e) = P 52)%R) by (rewrite <- P_add; f_equal; lia).
  assert (E2 : (P (l + 1) * P (- e) = P 53)%R) by (rewrite <- P_add; f_equal; lia).
  pose proof (P_pos (- e)).
  rewrite <- (IZR_pow2 52) in E1 by lia. rewrite <- (IZR_pow2 53) in E2 by lia.
  split.
  - rewrite <- (rne_exact (2 ^ 52) (scale_den e d)) at 1 by done.
    apply rne_mono; try done.
    apply IZR_ratio_le; try done. rewrite Hx.
    rewrite mult_IZR. replace (IZR (2 ^ 52) * IZR (scale_den e d) / IZR (scale_den e d))%R
      with (IZR (2 ^ 52)) by (field; apply IZR_lt in Hsd; lra).
    rewrite <- E1. nra.
  - rewrite <- (rne_exact (2 ^ 53) (scale_den e d)) at 1 by done.
    apply rne_mono; try done.
    apply IZR_ratio_le; try done. rewrite Hx.
    rewrite mult_IZR. replace (IZR (2 ^ 53) * IZR (scale_den e d) / IZR (scale_den e d))%R
      with (IZR (2 ^ 53)) by (field; apply IZR_lt in Hsd; lra).
    rewrite <- E2. nra.
Qed.

Lemma round_ratio_pos n d :
  0 < n ->
  round_ratio n d
  = Num (rne (scale_num (ilog2_ratio n d - 52) n) (scale_den (ilog2_ratio n d - 52) d))
        (ilog2_ratio n d - 52).
Proof. intros Hn. unfold round_ratio. by destruct (Z.leb_spec n 0); [lia|]. Qed.

Lemma round_ratio_nonpos n d : n <= 0 -> round_ratio n d = num_zero.
Proof. intros Hn. unfold round_ratio. by destruct (Z.leb_spec n 0); [|lia]. Qed.

Lemma num_val_zero : num_val num_zero = 0%R.
Proof. unfold num_zero. rewrite num_val_eq. lra. Qed.

Lemma round_ratio_val_nonneg n d : 0 < d -> (0 <= num_val (round_ratio n d))%R.
Proof.
  intros Hd. destruct (Z.le_gt_cases n 0) as [Hn|Hn].
  - rewrite round_ratio_nonpos by done. rewrite num_val_zero. lra.
  - pose proof (round_ratio_mant n d Hn Hd) as [Hm _].
    destruct (round_ratio n d) as [m e]. cbn [mant] in Hm. rewrite num_val_eq.
    assert (0 <= m) by lia. apply IZR_le in H. pose proof (P_pos e). nra.
Qed.

Lemma round_ratio_mono n1 d1 n2 d2 :
  0 < d1 -> 0 < d2 -> n1 * d2 <= n2 * d1 ->
  (num_val (round_ratio n1 d1) <= num_val (round_ratio n2 d2))%R.
Proof.
  intros H1 H2 H.
  destruct (Z.le_gt_cases n1 0) as [Hn1|Hn1].
  { rewrite (round_ratio_nonpos n1) by done. rewrite num_val_zero.
    by apply round_ratio_val_nonneg. }
  assert (Hn2 : 0 < n2) by nia.
  pose proof (round_ratio_mant n1 d1 Hn1 H1) as [_ M1].
  pose proof (round_ratio_mant n2 d2 Hn2 H2) as [M2 _].
  rewrite (round_ratio_pos n1), (round_ratio_pos n2) in * by done.
  cbn [mant] in M1, M2. rewrite !num_val_eq.
  pose proof (ilog2_ratio_spec n1 d1 Hn1 H1) as [A1 B1].
  pose proof (ilog2_ratio_spec n2 d2 Hn2 H2) as [A2 B2].
  set (l1 := ilog2_ratio n1 d1) in *. set (l2 := ilog2_ratio n2 d2) in *.
  pose proof (proj2 (IZR_ratio_le n1 d1 n2 d2 H1 H2) H) as Hx.
  assert (Hl : l1 <= l2).
  { destruct (Z.le_gt_cases l1 l2) as [|Hgt]; [done|].
    pose proof (P_le (l2 + 1) l1 ltac:(lia)). lra. }
  destruct (Z.eq_dec l1 l2) as [Heq|Hne].
  - rewrite <- Heq. pose proof (P_pos (l1 - 52)).
    apply Rmult_le_compat_r; [lra|]. apply IZR_le, rne_mono.
    + by apply scale_den_pos.
    + by apply scale_den_pos.
    + unfold scale_num, scale_den.
      pose proof (pow2_pos (l1 - 52)). pose proof (pow2_pos (- (l1 - 52))).
      set (a := 2 ^ Z.max 0 (- (l1 - 52))) in *. set (b := 2 ^ Z.max 0 (l1 - 52)) in *.
      replace (n1 * a * (d2 * b)) with (n1 * d2 * (a * b)) by ring.
      replace (n2 * a * (d1 * b)) with (n2 * d1 * (a * b)) by ring.
      apply Z.mul_le_mono_nonneg_r; nia.
  - apply IZR_le in M1, M2. rewrite (IZR_pow2 53) in M1 by lia.
    rewrite (IZR_pow2 52) in M2 by lia.
    assert (E1 : (P 53 * P (l1 - 52) = P (l1 + 1))%R) by (rewrite <- P_add; f_equal; lia).
    assert (E2 : (P 52 * P (l2 - 52) = P l2)%R) by (rewrite <- P_add; f_equal; lia).
    pose proof (P_le (l1 + 1) l2 ltac:(lia)).
    pose proof (P_pos (l1 - 52)). pose proof (P_pos (l2 - 52)). nra.
Qed.

Lemma num_d_pos x : 0 < num_d x.
Proof. apply pow2_pos. Qed.

Lemma Math_ceil_spec x :
  (IZR (Math_ceil x) - 1 < num_val x <= IZR (Math_ceil x))%R.
Proof.
  unfold Math_ceil, num_val. pose proof (num_d_pos x) as Hd.
  set (n := num_n x). set (d := num_d x) in *.
  pose proof (Z.div_mod (- n) d ltac:(lia)). pose proof (Z.mod_pos_bound (- n) d Hd).
  set (q := - n / d) in *.
  assert (Hlo : d * (- q - 1) < n) by nia. assert (Hhi : n <= d * - q) by nia.
  apply IZR_lt in Hlo, Hd. apply IZR_le in Hhi.
  rewrite mult_IZR in Hlo, Hhi. rewrite minus_IZR in Hlo.
  split.
  - apply (Rmult_lt_reg_r (IZR d)); [lra|]. field_simplify; lra.
  - apply (Rmult_le_reg_r (IZR d)); [lra|]. field_simplify; lra.
Qed.

Lemma Math_ceil_mono x y : (num_val x <= num_val y)%R -> Math_ceil x <= Math_ceil y.
Proof.
  intros H. pose proof (Math_ceil_spec x). pose proof (Math_ceil_spec y).
  assert (Hlt : (IZR (Math_ceil x - 1) < IZR (Math_ceil y))%R)
    by (rewrite minus_IZR; lra).
  apply lt_IZR in Hlt. lia.
Qed.

Lemma Num_add_mono x1 y1 x2 y2 :
  (num_val x1 <= num_val x2)%R -> (num_val y1 <= num_val y2)%R ->
  (num_val (Num_add x1 y1) <= num_val (Num_add x2 y2))%R.
Proof.
  intros Hx Hy. unfold Num_add.
  pose proof (num_d_pos x1). pose proof (num_d_pos y1).
  pose proof (num_d_pos x2). pose proof (num_d_pos y2).
  apply round_ratio_mono; [nia|nia|].
  apply IZR_ratio_le; [nia|nia|].
  unfold num_val in Hx, Hy. rewrite !plus_IZR, !mult_IZR.
  apply IZR_lt in H, H0, H1, H2.
  replace ((IZR (num_n x1) * IZR (num_d y1) + IZR (num_n y1) * IZR (num_d x1))
           / (IZR (num_d x1) * IZR (num_d y1)))%R
    with (IZR (num_n x1) / IZR (num_d x1) + IZR (num_n y1) / IZR (num_d y1))%R
    by (field; lra).
  replace ((IZR (num_n x2) * IZR (num_d y2) + IZR (num_n y2) * IZR (num_d x2))
           / (IZR (num_d x2) * IZR (num_d y2)))%R
    with (IZR (num_n x2) / IZR (num_d x2) + IZR (num_n y2) / IZR (num_d y2))%R
    by (field; lra).
  lra.
Qed.

Lemma Num_div_mono a1 a2 b : 0 < b -> a1 <= a2 ->
  (num_val (Num_div a1 b) <= num_val (Num_div a2 b))%R.
Proof. intros Hb Ha. apply round_ratio_mono; [done|done|nia]. Qed.

Lemma minutes_mono c1 w1 c2 w2 :
  c1 <= c2 -> w1 <= w2 -> minutes c1 w1 <= minutes c2 w2.
Proof.
  intros Hc Hw. unfold minutes.
  apply Math_ceil_mono, Num_add_mono; by apply Num_div_mono.
Qed.

(** ** Number arithmetic: the formula against the exact quotient *)

Lemma P_lt a b : a < b -> (P a < P b)%R.
Proof.
  intros H. pose proof (P_le (a + 1) b ltac:(lia)) as H1.
  rewrite P_succ in H1. pose proof (P_pos a). lra.
Qed.

Lemma P_le_inv a b : (P a <= P b)%R -> a <= b.
Proof.
  intros H. destruct (Z.le_gt_cases a b) as [|Hgt]; [done|].
  apply P_lt in Hgt. lra.
Qed.

Lemma P_lt_inv a b : (P a < P b)%R -> a < b.
Proof.
  intros H. destruct (Z.lt_ge_cases a b) as [|Hge]; [done|].
  apply P_le in Hge. lra.
Qed.

Lemma P_half e : (P (e - 1) = P e / 2)%R.
Proof.
  replace e with ((e - 1) + 1) at 2 by lia. rewrite P_succ. lra.
Qed.

Lemma fl_val_mono n1 d1 n2 d2 :
  0 < d1 -> 0 < d2 -> (IZR n1 / IZR d1 <= IZR n2 / IZR d2)%R ->
  (fl_val n1 d1 <= fl_val n2 d2)%R.
Proof.
  intros H1 H2 H. apply round_ratio_mono; [done|done|].
  by apply IZR_ratio_le.
Qed.

Lemma fl_val_ext n1 d1 n2 d2 :
  0 < d1 -> 0 < d2 -> (IZR n1 / IZR d1 = IZR n2 / IZR d2)%R ->
  fl_val n1 d1 = fl_val n2 d2.
Proof.
  intros H1 H2 H. apply Rle_antisym; apply fl_val_mono; try done; lra.
Qed.

Lemma ratio_pos n d : 0 < n -> 0 < d -> (0 < IZR n / IZR d)%R.
Proof.
  intros Hn Hd. apply IZR_lt in Hn, Hd. by apply Rdiv_lt_0_compat.
Qed.

Lemma ratio_pos_inv n d : 0 < d -> (0 < IZR n / IZR d)%R -> 0 < n.
Proof.
  intros Hd H. apply lt_IZR. apply IZR_lt in Hd.
  apply (Rmult_lt_compat_r (IZR d)) in H; [|done].
  unfold Rdiv in H. rewrite Rmult_assoc, Rinv_l in H by lra. lra.
Qed.

Lemma ilog2_ratio_unique n d l :
  0 < n -> 0 < d ->
  (P l <= IZR n / IZR d < P (l + 1))%R -> ilog2_ratio n d = l.
Proof.
  intros Hn Hd [H1 H2].
  pose proof (ilog2_ratio_spec n d Hn Hd) as [L1 L2]. cbn zeta in L1, L2.
  assert (ilog2_ratio n d < l + 1) by (apply P_lt_inv; lra).
  assert (l < ilog2_ratio n d + 1) by (apply P_lt_inv; lra).
  lia.
Qed.

Lemma rne_half n d : 0 < d -> - d <= 2 * (rne n d * d - n) <= d.
Proof.
  intros Hd. unfold rne.
  pose proof (Z.div_mod n d ltac:(lia)). pose proof (Z.mod_pos_bound n d Hd).
  repeat match goal with |- context [if ?b then _ else _] => destruct b eqn:? end;
    rewrite ?Z.ltb_lt, ?Z.ltb_ge in *; nia.
Qed.

(** The rounded value lies on the grid of its binade, within half a unit. *)
Lemma fl_val_grid n d :
  0 < n -> 0 < d ->
  exists m,
    2 ^ 52 <= m <= 2 ^ 53
    /\ fl_val n d = (IZR m * P (ilog2_ratio n d - 52))%R
    /\ (- P (ilog2_ratio n d - 53) <= fl_val n d - IZR n / IZR d
        <= P (ilog2_ratio n d - 53))%R.
Proof.
  intros Hn Hd. unfold fl_val.
  pose proof (round_ratio_mant n d Hn Hd) as Hm.
  rewrite round_ratio_pos in * by done. cbn [mant] in Hm.
  set (e := ilog2_ratio n d - 52) in *.
  eexists. split; [exact Hm|]. rewrite num_val_eq. split; [done|].
  pose proof (scale_den_pos e d Hd) as Hsd.
  pose proof (rne_half (scale_num e n) (scale_den e d) Hsd) as [R1 R2].
  pose proof (scale_ratio e n d Hd) as Hx.
  set (m := rne (scale_num e n) (scale_den e d)) in *.
  apply IZR_le in R1, R2. apply IZR_lt in Hsd.
  rewrite opp_IZR in R1. rewrite !mult_IZR, minus_IZR, mult_IZR in R1, R2.
  assert (Hq : (- (1 / 2) <= IZR m - IZR (scale_num e n) / IZR (scale_den e d) <= 1 / 2)%R).
  { split.
    - apply (Rmult_le_reg_r (IZR (scale_den e d))); [lra|]. field_simplify; lra.
    - apply (Rmult_le_reg_r (IZR (scale_den e d))); [lra|]. field_simplify; lra. }
  rewrite Hx in Hq.
  replace (ilog2_ratio n d - 53) with (e - 1) by (unfold e; lia).
  rewrite P_half. pose proof (P_pos e) as He. pose proof (P_neg e) as Hne.
  destruct Hq as [Q1 Q2].
  set (x := (IZR n / IZR d)%R) in *.
  assert (Hx' : (x = x * P (- e) * P e)%R) by (rewrite Rmult_assoc, Hne; lra).
  split; nra.
Qed.

Lemma ratio_eq_mul n d (y : R) :
  0 < d -> (IZR n / IZR d = y)%R -> (IZR n = y * IZR d)%R.
Proof.
  intros Hd <-. apply IZR_lt in Hd. field. lra.
Qed.

Lemma fl_val_zero d : fl_val 0 d = 0%R.
Proof. unfold fl_val. rewrite round_ratio_nonpos by lia. apply num_val_zero. Qed.

(** A value of at most 53 significant bits is not changed. *)
Lemma fl_val_exact n d M k :
  0 < d -> 0 < M <= 2 ^ 53 ->
  (IZR n / IZR d = IZR M * P k)%R ->
  fl_val n d = (IZR M * P k)%R.
Proof.
  intros Hd [HM0 HM] Hx.
  pose proof (P_pos k) as Hk. pose proof (IZR_lt _ _ HM0) as HM0'.
  assert (Hn : 0 < n) by (apply (ratio_pos_inv n d Hd); rewrite Hx; nra).
  pose proof (ilog2_ratio_spec n d Hn Hd) as [L1 L2]. cbn zeta in L1, L2.
  unfold fl_val. rewrite round_ratio_pos by done. rewrite num_val_eq.
  set (l := ilog2_ratio n d) in *. set (e := l - 52).
  rewrite Hx in L1, L2.
  assert (Hl : l <= k + 53).
  { apply P_le_inv. replace (k + 53) with (53 + k) by lia. rewrite P_add.
    rewrite <- (IZR_pow2 53) by lia. apply IZR_le in HM. nra. }
  pose proof (scale_den_pos e d Hd) as Hsd.
  pose proof (scale_ratio e n d Hd) as Hs. rewrite Hx in Hs.
  assert (Hq : exists q, (IZR q = IZR M * P (k - e))%R) .
  { destruct (Z.le_gt_cases 0 (k - e)) as [Ht|Ht].
    - exists (M * 2 ^ (k - e)). by rewrite mult_IZR, IZR_pow2.
    - assert (Hl' : l = k + 53) by (unfold e in Ht; lia).
      assert (HM' : M = 2 ^ 53).
      { apply Z.le_antisymm; [done|]. apply le_IZR. rewrite (IZR_pow2 53) by lia.
        rewrite Hl' in L1. replace (k + 53) with (53 + k) in L1 by lia.
        rewrite P_add in L1. nra. }
      exists (2 ^ 52). rewrite HM', !IZR_pow2 by lia. rewrite <- P_add. f_equal.
      unfold e. lia. }
  destruct Hq as [q Hq].
  assert (Hke : (P k * P (- e) = P (k - e))%R) by (rewrite <- P_add; f_equal; lia).
  assert (Hsn : scale_num e n = q * scale_den e d).
  { apply eq_IZR. rewrite mult_IZR, Hq, <- Hke.
    rewrite (ratio_eq_mul _ _ _ Hsd Hs). lra. }
  rewrite Hsn, rne_exact by done. rewrite Hq.
  assert (Hke' : (P (k - e) * P e = P k)%R) by (rewrite <- P_add; f_equal; lia).
  rewrite Rmult_assoc, Hke'. done.
Qed.

Lemma rne_tie n d M :
  0 < d -> 2 * n = (2 * M + 1) * d ->
  rne n d = if Z.even M then M else M + 1.
Proof.
  intros Hd H.
  assert (Hn : n = d * M + d / 2 /\ 2 * (d / 2) = d).
  { pose proof (Z.div_mod d 2 ltac:(lia)). pose proof (Z.mod_pos_bound d 2 ltac:(lia)).
    assert (d mod 2 = 0) by lia. lia. }
  destruct Hn as [Hn Hd2].
  assert (Hq : n / d = M) by (symmetry; apply (Z.div_unique n d M (d / 2)); lia).
  assert (Hr : n mod d = d / 2) by (symmetry; apply (Z.mod_unique n d M (d / 2)); lia).
  unfold rne. rewrite Hq, Hr.
  destruct (Z.ltb_spec (2 * (d / 2)) d); [lia|].
  destruct (Z.ltb_spec d (2 * (d / 2))); [lia|]. done.
Qed.

Lemma fl_val_tie n d M e :
  0 < d -> 2 ^ 52 <= M < 2 ^ 53 ->
  (IZR n / IZR d = (IZR M + 1 / 2) * P e)%R ->
  fl_val n d = (IZR (if Z.even M then M else M + 1) * P e)%R.
Proof.
  intros Hd [HM1 HM2] Hx.
  pose proof (P_pos e) as He.
  apply IZR_le in HM1. assert (HM2' : M + 1 <= 2 ^ 53) by lia. apply IZR_le in HM2'.
  rewrite plus_IZR in HM2'. rewrite (IZR_pow2 52) in HM1 by lia.
  rewrite (IZR_pow2 53) in HM2' by lia.
  pose proof (P_pos 52).
  assert (Hn : 0 < n) by (apply (ratio_pos_inv n d Hd); rewrite Hx; nra).
  assert (Hl : ilog2_ratio n d = e + 52).
  { apply ilog2_ratio_unique; [done|done|]. rewrite Hx.
    replace (e + 52 + 1) with (53 + e) by lia.
    replace (e + 52) with (52 + e) by lia. rewrite !P_add. split; nra. }
  unfold fl_val. rewrite round_ratio_pos by done. rewrite num_val_eq, Hl.
  replace (e + 52 - 52) with e by lia.
  pose proof (scale_den_pos e d Hd) as Hsd.
  pose proof (scale_ratio e n d Hd) as Hs. rewrite Hx in Hs.
  pose proof (P_neg e) as Hne.
  assert (Hs' : (IZR (scale_num e n) / IZR (scale_den e d) = IZR M + 1 / 2)%R).
  { rewrite Hs, Rmult_assoc, (Rmult_comm (P e)), Hne. lra. }
  rewrite (rne_tie _ _ M); [done|done|].
  apply eq_IZR. rewrite !mult_IZR, plus_IZR, mult_IZR.
  rewrite (ratio_eq_mul _ _ _ Hsd Hs'). lra.
Qed.

(** A Number [M * 2^k] as a quotient of integers. *)
Lemma dyadic_ratio M k :
  (IZR (num_n (Num M k)) / IZR (num_d (Num M k)) = IZR M * P k)%R.
Proof. apply num_val_eq. Qed.

(** Rounding stays between two neighbours of a grid that the format holds,
    and is exact on them. *)
Lemma fl_val_between n d j k :
  0 < d -> 0 <= j -> j + 1 <= 2 ^ 53 ->
  (IZR j * P k <= IZR n / IZR d <= (IZR j + 1) * P k)%R ->
  (IZR j * P k <= fl_val n d <= (IZR j + 1) * P k)%R
  /\ ((IZR n / IZR d = IZR j * P k)%R -> fl_val n d = (IZR j * P k)%R)
  /\ ((IZR n / IZR d = (IZR j + 1) * P k)%R -> fl_val n d = ((IZR j + 1) * P k)%R).
Proof.
  intros Hd Hj0 Hj [H1 H2].
  assert (Hup : fl_val (num_n (Num (j + 1) k)) (num_d (Num (j + 1) k))
                = ((IZR j + 1) * P k)%R).
  { rewrite <- plus_IZR. apply fl_val_exact; [apply num_d_pos|lia|apply dyadic_ratio]. }
  assert (Hlo : fl_val (num_n (Num j k)) (num_d (Num j k)) = (IZR j * P k)%R).
  { destruct (Z.eq_dec j 0) as [->|Hne].
    - unfold num_n. cbn [mant]. rewrite Z.mul_0_l, fl_val_zero. lra.
    - apply fl_val_exact; [apply num_d_pos|lia|apply dyadic_ratio]. }
  split; [|split].
  - split.
    + rewrite <- Hlo. apply fl_val_mono; [apply num_d_pos|done|].
      by rewrite dyadic_ratio.
    + rewrite <- Hup. apply fl_val_mono; [done|apply num_d_pos|].
      by rewrite dyadic_ratio, plus_IZR.
  - intros E. rewrite <- Hlo. apply fl_val_ext; [done|apply num_d_pos|].
    by rewrite dyadic_ratio.
  - intros E. rewrite <- Hup. apply fl_val_ext; [done|apply num_d_pos|].
    by rewrite dyadic_ratio, plus_IZR.
Qed.

(** Two roundings on one grid, in units of the grid step. *)
Lemma bracket_sum (α β A B : R) (K ja jb : Z) :
  (α + β = IZR K)%R ->
  (IZR ja <= α <= IZR ja + 1)%R -> (IZR jb <= β <= IZR jb + 1)%R ->
  (IZR ja <= A <= IZR ja + 1)%R -> (IZR jb <= B <= IZR jb + 1)%R ->
  (α = IZR ja -> A = IZR ja)%R -> (α = IZR ja + 1 -> A = IZR ja + 1)%R ->
  (β = IZR jb -> B = IZR jb)%R -> (β = IZR jb + 1 -> B = IZR jb + 1)%R ->
  (IZR K - 1 <= A + B <= IZR K + 1)%R.
Proof.
  intros Hsum Ha Hb HA HB Ea Ea' Eb Eb'.
  assert (H1 : ja + jb <= K) by (apply le_IZR; rewrite plus_IZR; lra).
  assert (H2 : K <= ja + jb + 2) by (apply le_IZR; rewrite !plus_IZR; lra).
  assert (Hc : K = ja + jb \/ K = ja + jb + 1 \/ K = ja + jb + 2) by lia.
  destruct Hc as [-> | [-> | ->]]; rewrite ?plus_IZR in *.
  - rewrite Ea, Eb by lra. lra.
  - lra.
  - rewrite Ea', Eb' by lra. lra.
Qed.

(** The larger operand on a grid of step 2, the smaller one on the grid of
    step 1: the two rounding errors cancel down to one unit. *)
Lemma complementary_sum (α β A B : R) (K m j : Z) :
  (α + β = IZR (2 * K))%R ->
  (IZR j <= β <= IZR j + 1)%R ->
  A = IZR (2 * m) -> (- 1 <= A - α <= 1)%R ->
  (IZR j <= B <= IZR j + 1)%R ->
  (β = IZR j -> B = IZR j)%R -> (β = IZR j + 1 -> B = IZR j + 1)%R ->
  (IZR (2 * K) - 1 <= A + B <= IZR (2 * K) + 1)%R.
Proof.
  intros Hsum Hb HA Herr HB Eb Eb'.
  assert (H1 : 2 * K - j - 2 <= 2 * m).
  { apply le_IZR. rewrite !minus_IZR, <- HA. lra. }
  assert (H2 : 2 * m <= 2 * K - j + 1).
  { apply le_IZR. rewrite plus_IZR, minus_IZR, <- HA. lra. }
  destruct (Z.Even_or_Odd j) as [[i ->] | [i ->]].
  - assert (Hm : m = K - i \/ m = K - i - 1) by lia.
    destruct Hm as [-> | ->].
    + replace (2 * (K - i)) with (2 * K - 2 * i) in HA by ring.
      rewrite minus_IZR in HA. lra.
    + replace (2 * (K - i - 1)) with (2 * K - 2 * i - 2) in HA by ring.
      rewrite !minus_IZR in HA. rewrite Eb' by lra. lra.
  - assert (Hm : m = K - i - 1 \/ m = K - i) by lia.
    rewrite plus_IZR in *.
    destruct Hm as [-> | ->].
    + replace (2 * (K - i - 1)) with (2 * K - 2 * i - 2) in HA by ring.
      rewrite !minus_IZR in HA. lra.
    + replace (2 * (K - i)) with (2 * K - 2 * i) in HA by ring.
      rewrite minus_IZR in HA. rewrite Eb by lra. lra.
Qed.

Lemma grid_floor_spec k n d :
  0 < d -> 0 <= n ->
  0 <= grid_floor k n d
  /\ (IZR (grid_floor k n d) * P k <= IZR n / IZR d
      <= (IZR (grid_floor k n d) + 1) * P k)%R.
Proof.
  intros Hd Hn. unfold grid_floor.
  pose proof (scale_den_pos k d Hd) as Hsd.
  assert (Hsn : 0 <= scale_num k n).
  { unfold scale_num. pose proof (pow2_pos (- k)). nia. }
  pose proof (Z.div_mod (scale_num k n) (scale_den k d) ltac:(lia)) as Hdm.
  pose proof (Z.mod_pos_bound (scale_num k n) (scale_den k d) Hsd) as Hmb.
  set (j := scale_num k n / scale_den k d) in *.
  split; [apply Z.div_pos; lia|].
  pose proof (scale_ratio k n d Hd) as Hs.
  assert (H1 : j * scale_den k d <= scale_num k n) by nia.
  assert (H2 : scale_num k n <= (j + 1) * scale_den k d) by nia.
  apply IZR_le in H1, H2. rewrite mult_IZR in H1, H2. rewrite plus_IZR in H2.
  apply IZR_lt in Hsd.
  assert (Hq : (IZR j <= IZR (scale_num k n) / IZR (scale_den k d) <= IZR j + 1)%R).
  { split.
    - apply (Rmult_le_reg_r (IZR (scale_den k d))); [lra|]. field_simplify; lra.
    - apply (Rmult_le_reg_r (IZR (scale_den k d))); [lra|]. field_simplify; lra. }
  rewrite Hs in Hq. pose proof (P_pos k). pose proof (P_neg k) as Hnk.
  set (x := (IZR n / IZR d)%R) in *.
  assert (Hx : (x = x * P (- k) * P k)%R) by (rewrite Rmult_assoc, Hnk; lra).
  split; nra.
Qed.

Lemma units_back (y lo hi : R) k :
  (lo <= y * P (- k) <= hi)%R -> (lo * P k <= y <= hi * P k)%R.
Proof.
  intros [H1 H2]. pose proof (P_pos k). pose proof (P_neg k) as Hn.
  assert (Hy : (y = y * P (- k) * P k)%R) by (rewrite Rmult_assoc, Hn; lra).
  split; nra.
Qed.

Lemma units_eq_inv (y v : R) k : (y = v * P k)%R -> (y * P (- k) = v)%R.
Proof.
  intros ->. pose proof (P_neg k) as Hn.
  rewrite Rmult_assoc, (Rmult_comm (P k)), Hn. lra.
Qed.

(** A quotient below [2^(k+53)] and its rounding, in units of [2^k]. *)
Lemma fl_val_units n d k :
  0 < d -> 0 <= n -> (IZR n / IZR d < P (k + 53))%R ->
  let j := grid_floor k n d in
  let β := (IZR n / IZR d * P (- k))%R in
  let B := (fl_val n d * P (- k))%R in
  (IZR j <= β <= IZR j + 1)%R /\ (IZR j <= B <= IZR j + 1)%R
  /\ (β = IZR j -> B = IZR j) /\ (β = (IZR j + 1)%R -> B = (IZR j + 1)%R).
Proof.
  intros Hd Hn Hlt. cbn zeta.
  destruct (grid_floor_spec k n d Hd Hn) as [Hj0 [G1 G2]].
  set (j := grid_floor k n d) in *.
  pose proof (P_pos k) as Hk. pose proof (P_pos (- k)) as Hnk.
  pose proof (P_neg k) as Hneg.
  assert (Hj : j + 1 <= 2 ^ 53).
  { assert (j < 2 ^ 53); [|lia]. apply lt_IZR. rewrite (IZR_pow2 53) by lia.
    replace (k + 53) with (53 + k) in Hlt by lia. rewrite P_add in Hlt.
    pose proof (P_pos 53). nra. }
  destruct (fl_val_between n d j k Hd Hj0 Hj (conj G1 G2)) as ([B1 B2] & E1 & E2).
  set (x := (IZR n / IZR d)%R) in *. set (y := fl_val n d) in *.
  assert (Hx : (x * P (- k) * P k = x)%R) by (rewrite Rmult_assoc, Hneg; lra).
  assert (Hy : (y * P (- k) * P k = y)%R) by (rewrite Rmult_assoc, Hneg; lra).
  split_and!; nra.
Qed.

Lemma P_split52 E : (P E = IZR (2 ^ 52) * P (E - 52))%R.
Proof.
  rewrite (IZR_pow2 52) by lia. rewrite <- P_add. f_equal. lia.
Qed.

Lemma P_step a b : b = a + 1 -> (P b = 2 * P a)%R.
Proof. intros ->. apply P_succ. Qed.

(** Complementary rounding: when [a + b] is a Number [r] with two spare
    bits, the roundings of [a] and [b] add up to [r] within the margin. *)
Lemma complementary_rounding_ordered na da nb db Mr E :
  0 < da -> 0 < db -> 0 <= nb ->
  (IZR nb / IZR db <= IZR na / IZR da)%R ->
  2 ^ 52 <= Mr < 2 ^ 53 -> Z.even Mr = true ->
  (IZR na / IZR da + IZR nb / IZR db = IZR Mr * P (E - 52))%R ->
  (IZR Mr * P (E - 52) - margin_below Mr E <= fl_val na da + fl_val nb db
   <= IZR Mr * P (E - 52) + P (E - 53))%R.
Proof.
  intros Hda Hdb Hnb Hle [HM1 HM2] Hev Hsum.
  set (a := (IZR na / IZR da)%R) in *. set (b := (IZR nb / IZR db)%R) in *.
  set (r := (IZR Mr * P (E - 52))%R) in *.
  pose proof (P_pos (E - 52)) as HU. pose proof (P_pos (E - 53)) as HH.
  pose proof (P_pos (E - 54)) as HH'.
  pose proof (P_step (E - 53) (E - 52) ltac:(lia)) as EU.
  pose proof (P_step (E - 54) (E - 53) ltac:(lia)) as EH.
  pose proof (P_split52 E) as EE.
  pose proof (P_step (E - 1) E ltac:(lia)) as EE1.
  pose proof (P_step E (E + 1) ltac:(lia)) as EE2.
  pose proof (IZR_le _ _ HM1) as HM1'. pose proof (IZR_lt _ _ HM2) as HM2'.
  replace (2 ^ 53) with (2 * 2 ^ 52) in HM2' by done. rewrite mult_IZR in HM2'.
  assert (H252 : (0 < IZR (2 ^ 52))%R) by (apply IZR_lt; lia).
  assert (Hmarg : (0 <= margin_below Mr E)%R).
  { unfold margin_below. destruct (Mr =? 2 ^ 52); lra. }
  assert (Hr1 : (P E <= r)%R) by (unfold r; nra).
  assert (Hr2 : (r < P (E + 1))%R) by (unfold r; nra).
  destruct (Z.eq_dec nb 0) as [-> | Hnb0].
  { (* b = 0 *)
    assert (Hb : b = 0%R) by (unfold b; lra).
    rewrite fl_val_zero. rewrite Hb, Rplus_0_r in Hsum.
    rewrite (fl_val_exact na da Mr (E - 52)); [fold r; lra|done|lia|done]. }
  assert (Hnb' : 0 < nb) by lia.
  assert (Hb0 : (0 < b)%R) by (by apply ratio_pos).
  assert (Hna : 0 < na) by (apply (ratio_pos_inv na da Hda); fold a; lra).
  pose proof (ilog2_ratio_spec na da Hna Hda) as [L1 L2]. cbn zeta in L1, L2. fold a in L1, L2.
  destruct (fl_val_grid na da Hna Hda) as (mA & HmA & HA & Herr). fold a in Herr.
  set (la := ilog2_ratio na da) in *.
  assert (Hla1 : la < E + 1) by (apply P_lt_inv; lra).
  assert (Hla2 : E - 1 < la + 1) by (apply P_lt_inv; lra).
  assert (Hla : la = E \/ la = E - 1) by lia.
  destruct Hla as [Hla | Hla]; rewrite Hla in *.
  - (* a in the binade of r *)
    assert (Hne : Mr <> 2 ^ 52).
    { intros ->. unfold r in Hsum. lra. }
    unfold margin_below. rewrite (proj2 (Z.eqb_neq _ _) Hne).
    assert (Hblt : (b < P (E - 53 + 53))%R).
    { replace (E - 53 + 53) with E by lia. lra. }
    destruct (fl_val_units nb db (E - 53) Hdb Hnb Hblt) as (Hβ & HB & Eb & Eb').
    fold b in Hβ, Eb, Eb'.
    pose proof (P_neg (E - 53)) as Hneg.
    assert (HUn : (P (E - 52) * P (- (E - 53)) = 2)%R).
    { rewrite EU, Rmult_assoc, (Rmult_comm (P (E - 53))), Hneg. lra. }
    pose proof (complementary_sum (a * P (- (E - 53))) (b * P (- (E - 53)))
                  (fl_val na da * P (- (E - 53))) (fl_val nb db * P (- (E - 53)))
                  Mr mA (grid_floor (E - 53) nb db)) as HC.
    assert (Hs : (fl_val na da * P (- (E - 53)) + fl_val nb db * P (- (E - 53))
                  = (fl_val na da + fl_val nb db) * P (- (E - 53)))%R) by lra.
    rewrite Hs in HC. clear Hs.
    assert (HrU : (r = IZR (2 * Mr) * P (E - 53))%R).
    { unfold r. rewrite mult_IZR, EU. lra. }
    rewrite HrU. replace (P (E - 53)) with (1 * P (E - 53))%R at 2 4 by lra.
    rewrite <- Rmult_minus_distr_r, <- Rmult_plus_distr_r.
    apply units_back, HC; try done.
    + rewrite <- Rmult_plus_distr_r, Hsum. by apply units_eq_inv.
    + rewrite HA, Rmult_assoc, HUn, mult_IZR. lra.
    + pose proof (P_pos (- (E - 53))).
      assert (Hd : ((fl_val na da - a) * P (- (E - 53))
                    = fl_val na da * P (- (E - 53)) - a * P (- (E - 53)))%R) by lra.
      rewrite <- Hd. split; nra.
  - (* a in the binade below *)
    destruct (Z.eq_dec Mr (2 ^ 52)) as [HMr | HMr].
    + (* r is a power of two *)
      unfold margin_below. rewrite HMr, Z.eqb_refl.
      assert (Hr : r = P E) by (unfold r; rewrite HMr; lra).
      destruct (Rle_lt_dec (P (E - 1)) b) as [Hbig | Hsmall].
      * (* a = b = r / 2 *)
        assert (Hb : (b = IZR 1 * P (E - 1))%R) by lra.
        assert (Ha : (a = IZR 1 * P (E - 1))%R) by lra.
        rewrite (fl_val_exact na da 1 (E - 1)), (fl_val_exact nb db 1 (E - 1));
          [|done|lia|done|done|lia|done].
        fold r. lra.
      * assert (Hblt : (b < P (E - 54 + 53))%R).
        { replace (E - 54 + 53) with (E - 1) by lia. lra. }
        destruct (fl_val_units nb db (E - 54) Hdb Hnb Hblt) as (Hβ & HB & Eb & Eb').
        fold b in Hβ, Eb, Eb'.
        pose proof (P_neg (E - 54)) as Hneg.
        assert (HUn : (P (E - 1 - 52) * P (- (E - 54)) = 2)%R).
        { replace (E - 1 - 52) with (E - 53) by lia.
          rewrite EH, Rmult_assoc, (Rmult_comm (P (E - 54))), Hneg. lra. }
        pose proof (complementary_sum (a * P (- (E - 54))) (b * P (- (E - 54)))
                      (fl_val na da * P (- (E - 54))) (fl_val nb db * P (- (E - 54)))
                      (2 ^ 53) mA (grid_floor (E - 54) nb db)) as HC.
        assert (Hs : (fl_val na da * P (- (E - 54)) + fl_val nb db * P (- (E - 54))
                      = (fl_val na da + fl_val nb db) * P (- (E - 54)))%R) by lra.
        rewrite Hs in HC. clear Hs.
        assert (HrU : (r = IZR (2 * 2 ^ 53) * P (E - 54))%R).
        { rewrite Hr, EE. replace (2 * 2 ^ 53) with (4 * 2 ^ 52) by done.
          rewrite mult_IZR, EU, EH. lra. }
        fold r.
        assert (Hgoal : (IZR (2 * 2 ^ 53) * P (E - 54) - 1 * P (E - 54)
                         <= fl_val na da + fl_val nb db
                         <= IZR (2 * 2 ^ 53) * P (E - 54) + 1 * P (E - 54))%R).
        { rewrite <- Rmult_minus_distr_r, <- Rmult_plus_distr_r.
          apply units_back, HC; try done.
          - rewrite <- Rmult_plus_distr_r, Hsum. fold r. by apply units_eq_inv.
          - rewrite HA, Rmult_assoc, HUn, mult_IZR. lra.
          - pose proof (P_pos (- (E - 54))).
            replace (E - 1 - 53) with (E - 54) in Herr by lia.
            assert (Hd : ((fl_val na da - a) * P (- (E - 54))
                          = fl_val na da * P (- (E - 54)) - a * P (- (E - 54)))%R) by lra.
            rewrite <- Hd. split; nra. }
        rewrite <- HrU in Hgoal. lra.
    + (* r is not a power of two *)
      unfold margin_below. rewrite (proj2 (Z.eqb_neq _ _) HMr).
      assert (Halt : (a < P (E - 53 + 53))%R).
      { replace (E - 53 + 53) with E by lia. replace (E - 1 + 1) with E in L2 by lia. lra. }
      assert (Hblt : (b < P (E - 53 + 53))%R) by lra.
      assert (Hna0 : 0 <= na) by lia.
      destruct (fl_val_units na da (E - 53) Hda Hna0 Halt) as (Hα & HA' & Ea & Ea').
      destruct (fl_val_units nb db (E - 53) Hdb Hnb Hblt) as (Hβ & HB & Eb & Eb').
      fold a in Hα, Ea, Ea'. fold b in Hβ, Eb, Eb'.
      pose proof (bracket_sum (a * P (- (E - 53))) (b * P (- (E - 53)))
                    (fl_val na da * P (- (E - 53))) (fl_val nb db * P (- (E - 53)))
                    (2 * Mr) (grid_floor (E - 53) na da) (grid_floor (E - 53) nb db)) as HC.
      assert (Hs : (fl_val na da * P (- (E - 53)) + fl_val nb db * P (- (E - 53))
                    = (fl_val na da + fl_val nb db) * P (- (E - 53)))%R) by lra.
      rewrite Hs in HC. clear Hs.
      assert (HrU : (r = IZR (2 * Mr) * P (E - 53))%R).
      { unfold r. rewrite mult_IZR, EU. lra. }
      rewrite HrU. replace (P (E - 53)) with (1 * P (E - 53))%R at 2 4 by lra.
      rewrite <- Rmult_minus_distr_r, <- Rmult_plus_distr_r.
      apply units_back, HC; try done.
      rewrite <- Rmult_plus_distr_r, Hsum. by apply units_eq_inv.
Qed.

(** A quotient within the margins of [r] rounds to [r]. *)
Lemma fl_val_margin ns ds Mr E :
  0 < ds -> 2 ^ 52 <= Mr < 2 ^ 53 -> Z.even Mr = true ->
  (IZR Mr * P (E - 52) - margin_below Mr E <= IZR ns / IZR ds
   <= IZR Mr * P (E - 52) + P (E - 53))%R ->
  fl_val ns ds = (IZR Mr * P (E - 52))%R.
Proof.
  intros Hds [HM1 HM2] Hev [Hlo Hhi].
  pose proof (P_step (E - 53) (E - 52) ltac:(lia)) as EU.
  pose proof (P_step (E - 54) (E - 53) ltac:(lia)) as EH.
  apply Rle_antisym.
  - (* from above: the tie above r goes to the even mantissa *)
    assert (Ht : fl_val (num_n (Num (2 * Mr + 1) (E - 53))) (num_d (Num (2 * Mr + 1) (E - 53)))
                 = (IZR Mr * P (E - 52))%R).
    { rewrite (fl_val_tie _ _ Mr (E - 52)); [by rewrite Hev|apply num_d_pos|done|].
      rewrite dyadic_ratio, plus_IZR, mult_IZR, EU. lra. }
    rewrite <- Ht. apply fl_val_mono; [done|apply num_d_pos|].
    rewrite dyadic_ratio, plus_IZR, mult_IZR. rewrite EU in Hhi. lra.
  - unfold margin_below in Hlo. destruct (Z.eqb_spec Mr (2 ^ 52)) as [HMr | HMr].
    + (* r is a power of two: the tie lies a quarter of a unit below *)
      set (M := 2 ^ 53 - 1).
      assert (Ht : fl_val (num_n (Num (2 * M + 1) (E - 54))) (num_d (Num (2 * M + 1) (E - 54)))
                   = (IZR Mr * P (E - 52))%R).
      { rewrite (fl_val_tie _ _ M (E - 53)); [|apply num_d_pos|done|].
        - change (Z.even M) with false. cbn match. rewrite HMr.
          change (M + 1) with (2 * 2 ^ 52). rewrite mult_IZR, EU. lra.
        - rewrite dyadic_ratio, plus_IZR, mult_IZR, EH. lra. }
      rewrite <- Ht. apply fl_val_mono; [apply num_d_pos|done|].
      rewrite dyadic_ratio, plus_IZR, mult_IZR.
      change (IZR M) with (IZR (2 * 2 ^ 52 - 1)). rewrite minus_IZR, mult_IZR.
      rewrite HMr, EU, EH in Hlo. lra.
    + assert (Hodd : Z.even (Mr - 1) = false).
      { replace (Mr - 1) with (Z.pred Mr) by lia. rewrite Z.even_pred.
        rewrite <- Z.negb_even. by rewrite Hev. }
      assert (Ht : fl_val (num_n (Num (2 * (Mr - 1) + 1) (E - 53)))
                          (num_d (Num (2 * (Mr - 1) + 1) (E - 53)))
                   = (IZR Mr * P (E - 52))%R).
      { rewrite (fl_val_tie _ _ (Mr - 1) (E - 52)); [|apply num_d_pos|lia|].
        - rewrite Hodd. by replace (Mr - 1 + 1) with Mr by lia.
        - rewrite dyadic_ratio, plus_IZR, mult_IZR, EU. lra. }
      rewrite <- Ht. apply fl_val_mono; [apply num_d_pos|done|].
      rewrite dyadic_ratio, plus_IZR, mult_IZR, minus_IZR. rewrite EU in Hlo. lra.
Qed.

Lemma Num_add_val x y :
  num_val (Num_add x y)
  = fl_val (num_n x * num_d y + num_n y * num_d x) (num_d x * num_d y).
Proof. done. Qed.

Lemma sum_ratio x y :
  (IZR (num_n x * num_d y + num_n y * num_d x) / IZR (num_d x * num_d y)
   = num_val x + num_val y)%R.
Proof.
  unfold num_val. pose proof (num_d_pos x) as Hx. pose proof (num_d_pos y) as Hy.
  apply IZR_lt in Hx, Hy. rewrite plus_IZR, !mult_IZR. field. lra.
Qed.

(** A positive value of fewer than 52 bits as an even mantissa. *)
Lemma even_mantissa Q t :
  0 < Q < 2 ^ 52 ->
  exists Mr E,
    2 ^ 52 <= Mr < 2 ^ 53 /\ Z.even Mr = true
    /\ (IZR Q * P t = IZR Mr * P (E - 52))%R.
Proof.
  intros [HQ0 HQ]. destruct (Z.log2_spec Q HQ0) as [L1 L2].
  pose proof (Z.log2_nonneg Q) as HL0.
  assert (HL : Z.log2 Q < 52) by (apply Z.log2_lt_pow2; lia).
  set (L := Z.log2 Q) in *.
  exists (Q * 2 ^ (52 - L)), (L + t).
  assert (Hp : 2 ^ 52 = 2 ^ L * 2 ^ (52 - L)).
  { rewrite <- Z.pow_add_r by lia. f_equal. lia. }
  assert (Hp' : 2 ^ 53 = 2 ^ Z.succ L * 2 ^ (52 - L)).
  { rewrite <- Z.pow_add_r by lia. f_equal. lia. }
  assert (Hpos : 0 < 2 ^ (52 - L)) by (apply Z.pow_pos_nonneg; lia).
  split_and!.
  - rewrite Hp. apply Z.mul_le_mono_nonneg_r; lia.
  - rewrite Hp'. apply Z.mul_lt_mono_pos_r; lia.
  - rewrite Z.even_mul. replace (52 - L) with (Z.succ (51 - L)) by lia.
    rewrite Z.pow_succ_r by lia. rewrite Z.even_mul. cbn. by rewrite orb_true_r.
  - rewrite mult_IZR, IZR_pow2 by lia. rewrite Rmult_assoc, <- P_add.
    do 2 f_equal. lia.
Qed.

(** Complementary rounding, for the Numbers themselves. *)
Lemma complementary_rounding na da nb db Q t :
  0 < da -> 0 < db -> 0 <= na -> 0 <= nb -> 0 < Q < 2 ^ 52 ->
  (IZR na / IZR da + IZR nb / IZR db = IZR Q * P t)%R ->
  num_val (Num_add (round_ratio na da) (round_ratio nb db)) = (IZR Q * P t)%R.
Proof.
  intros Hda Hdb Hna Hnb HQ Hsum.
  destruct (even_mantissa Q t HQ) as (Mr & E & HM & Hev & Hr). rewrite Hr in *.
  rewrite Num_add_val. apply fl_val_margin; [|done|done|].
  { pose proof (num_d_pos (round_ratio na da)). pose proof (num_d_pos (round_ratio nb db)).
    nia. }
  rewrite sum_ratio. fold (fl_val na da) (fl_val nb db).
  destruct (Rle_lt_dec (IZR nb / IZR db) (IZR na / IZR da)) as [Hle | Hlt].
  - by apply complementary_rounding_ordered.
  - rewrite (Rplus_comm (fl_val na da)).
    apply complementary_rounding_ordered; try done; lra.
Qed.

Lemma exact_minutes_spec c w :
  1000 * (exact_minutes c w - 1) < 5 * c + 4 * w <= 1000 * exact_minutes c w.
Proof.
  unfold exact_minutes.
  pose proof (Z.div_mod (- (5 * c + 4 * w)) 1000 ltac:(lia)).
  pose proof (Z.mod_pos_bound (- (5 * c + 4 * w)) 1000 ltac:(lia)). lia.
Qed.

Lemma P_m10 : (P (- 10) * 1024 = 1)%R.
Proof.
  pose proof (P_neg 10) as H. rewrite <- (IZR_pow2 10) in H by lia.
  exact H.
Qed.

(** Within the range of array lengths the Number formula is the ceiling of
    the exact quotient: the two rounded quotients can miss an integer sum,
    but their sum then rounds back to it. *)
Lemma minutes_exact c w :
  0 <= c < 2 ^ 32 -> 0 <= w < 2 ^ 32 -> minutes c w = exact_minutes c w.
Proof.
  intros [Hc0 Hc] [Hw0 Hw].
  pose proof (exact_minutes_spec c w) as [N1 N2].
  set (n := exact_minutes c w) in *.
  destruct (Z.eq_dec (5 * c + 4 * w) 0) as [H0 | H0].
  { assert (c = 0) as -> by lia. assert (w = 0) as -> by lia. reflexivity. }
  assert (Hn1 : 1 <= n) by lia.
  assert (Hn2 : n < 2 ^ 37) by lia.
  pose proof (Math_ceil_spec (Num_add (Num_div c 200) (Num_div w 250))) as [C1 C2].
  fold (minutes c w) in C1, C2.
  set (V := num_val (Num_add (Num_div c 200) (Num_div w 250))) in *.
  assert (Hup : (V <= IZR n)%R).
  { assert (E : num_val (Num_add (round_ratio (250 * n - w) 250) (round_ratio w 250))
                = (IZR n * P 0)%R).
    { apply complementary_rounding; try lia.
      rewrite minus_IZR, mult_IZR, P_0. field. }
    rewrite P_0, Rmult_1_r in E. rewrite <- E.
    apply Num_add_mono; apply round_ratio_mono; lia. }
  assert (Hlo : (IZR (1024 * (n - 1) + 1) * P (- 10) <= V)%R).
  { set (Q := 1024 * (n - 1) + 1).
    destruct (Z.le_gt_cases (1024 * w) (250 * Q)) as [Hb | Hb].
    - assert (E : num_val (Num_add (round_ratio (250 * Q - 1024 * w) 256000)
                                   (round_ratio w 250))
                  = (IZR Q * P (- 10))%R).
      { apply complementary_rounding; try lia.
        rewrite minus_IZR, !mult_IZR. pose proof P_m10. field_simplify. nra. }
      rewrite <- E. apply Num_add_mono; apply round_ratio_mono; lia.
    - assert (E : num_val (Num_add (round_ratio 0 1) (round_ratio Q 1024))
                  = (IZR Q * P (- 10))%R).
      { apply complementary_rounding; try lia.
        pose proof P_m10. field_simplify. nra. }
      rewrite <- E. apply Num_add_mono; apply round_ratio_mono; lia. }
  assert (Hgt : (IZR n - 1 < V)%R).
  { rewrite plus_IZR, mult_IZR, minus_IZR in Hlo. pose proof P_m10.
    pose proof (P_pos (- 10)). nra. }
  assert (H1 : minutes c w - 1 < n).
  { apply lt_IZR. rewrite minus_IZR. lra. }
  assert (H2 : n - 1 < minutes c w).
  { apply lt_IZR. rewrite minus_IZR. lra. }
  lia.
Qed.

(** ** The replacements of [generatePostId] *)

Lemma is_hyphen_eq c : is_hyphen c = true <-> c = Chr.hyphen.
Proof. unfold is_hyphen, is_char. apply Z.eqb_eq. Qed.

Lemma exec_hyphens pos s :
  exec re_hyphens pos s
  = match span_len is_hyphen s with O => None | S n => Some (S n, []) end.
Proof. apply exec_plus. Qed.

Lemma replace_hyphens_collapse s : forall pos,
  replace_from re_hyphens [RLit [Chr.hyphen]] pos 0 s = collapse false s
  /\ replace_from re_hyphens [RLit [Chr.hyphen]] pos (span_len is_hyphen s) s
     = collapse true s.
Proof.
  induction s as [|c t IH]; intros pos; [done|].
  assert (H0 : replace_from re_hyphens [RLit [Chr.hyphen]] pos 0 (c :: t)
               = collapse false (c :: t)).
  { cbn [replace_from collapse]. rewrite exec_hyphens. cbn [span_len].
    destruct (is_hyphen c).
    - cbn [expand flat_map app]. by rewrite (proj2 (IH (S pos))).
    - by rewrite (proj1 (IH (S pos))). }
  split; [done|].
  cbn [span_len]. destruct (is_hyphen c) eqn:Hc.
  - cbn [replace_from collapse]. rewrite Hc. apply IH.
  - rewrite H0. cbn [collapse]. by rewrite Hc.
Qed.

Lemma exec_edge_start c t :
  exec re_edge_hyphen 0 (c :: t) = if is_hyphen c then Some (1%nat, []) else None.
Proof.
  unfold exec, re_edge_hyphen, chr. cbn [rmatch ms_rest ms_pos ms_caps or_else].
  fold (is_hyphen c). by destruct (is_hyphen c).
Qed.

Lemma exec_edge_inner pos c t :
  exec re_edge_hyphen (S pos) (c :: t)
  = match t with
    | [] => if is_hyphen c then Some (1%nat, []) else None
    | _ :: _ => None
    end.
Proof.
  unfold exec, re_edge_hyphen, chr. cbn [rmatch ms_rest ms_pos ms_caps or_else].
  fold (is_hyphen c). destruct (is_hyphen c), t; cbn; try done.
  do 2 f_equal. lia.
Qed.

Lemma replace_edge_inner s : forall pos,
  replace_from re_edge_hyphen [] (S pos) 0 s = drop_last_hyphen s.
Proof.
  induction s as [|c t IH]; intros pos; [done|].
  cbn [replace_from drop_last_hyphen]. rewrite exec_edge_inner.
  destruct t as [|c' t'].
  - by destruct (is_hyphen c).
  - by rewrite IH.
Qed.

Lemma replace_edge_trim s : replace re_edge_hyphen [] s = trim_hyphens s.
Proof.
  destruct s as [|c t]; [done|].
  unfold replace. cbn [replace_from trim_hyphens]. rewrite exec_edge_start.
  destruct (is_hyphen c); cbn [expand flat_map app]; by rewrite replace_edge_inner.
Qed.

Lemma slugify_eq name :
  slugify name
  = trim_hyphens (collapse false
      (map (fun c => if cnot slug_keep c then Chr.hyphen else c) name)).
Proof.
  unfold slugify. rewrite replace_edge_trim. unfold replace at 1.
  rewrite (proj1 (replace_hyphens_collapse _ 0%nat)).
  unfold re_non_slug. by rewrite replace_cls_subst.
Qed.

Lemma hyphen_is_hyphen : is_hyphen Chr.hyphen = true.
Proof. done. Qed.

Lemma not_hyphen_ne c : is_hyphen c = false -> Some c <> Some Chr.hyphen.
Proof. intros H [= ->]. by rewrite hyphen_is_hyphen in H. Qed.

Lemma single_hyphens_cons a s :
  single_hyphens (a :: s) = true ->
  single_hyphens s = true /\ (is_hyphen a = true -> head s <> Some Chr.hyphen).
Proof.
  destruct s as [|b t]; cbn [single_hyphens head]; [done|].
  intros [H1 H2]%andb_prop. split; [done|]. intros Ha. rewrite Ha in H1.
  apply not_hyphen_ne. by destruct (is_hyphen b).
Qed.

Lemma single_hyphens_intro a s :
  single_hyphens s = true ->
  (is_hyphen a = true -> head s <> Some Chr.hyphen) ->
  single_hyphens (a :: s) = true.
Proof.
  destruct s as [|b t]; [done|]. intros Hs Hh.
  change (negb (is_hyphen a && is_hyphen b) && single_hyphens (b :: t) = true).
  rewrite Hs, andb_true_r. destruct (is_hyphen a) eqn:Ha; [|done].
  destruct (is_hyphen b) eqn:Hb; [|done].
  apply is_hyphen_eq in Hb as ->. by destruct (Hh eq_refl).
Qed.

Lemma collapse_single s : forall b,
  single_hyphens (collapse b s) = true
  /\ (b = true -> head (collapse b s) <> Some Chr.hyphen).
Proof.
  induction s as [|c t IH]; intros b; [done|].
  cbn [collapse]. destruct (is_hyphen c) eqn:Hc.
  - destruct b.
    + apply IH.
    + split; [|done]. apply single_hyphens_intro; [apply IH|].
      intros _. by apply IH.
  - split.
    + apply single_hyphens_intro; [apply IH|]. by rewrite Hc.
    + intros _. by apply not_hyphen_ne.
Qed.

Lemma collapse_Forall (Q : Z -> Prop) s b :
  Q Chr.hyphen -> Forall Q s -> Forall Q (collapse b s).
Proof.
  intros Hq Hs. revert b. induction Hs as [|c t Hc Ht IH]; intros b; [done|].
  cbn [collapse]. destruct (is_hyphen c), b; auto.
Qed.

Lemma drop_last_Forall (Q : Z -> Prop) s : Forall Q s -> Forall Q (drop_last_hyphen s).
Proof.
  induction 1 as [|c t Hc Ht IH]; [done|].
  cbn [drop_last_hyphen]. destruct t; [destruct (is_hyphen c)|]; auto.
Qed.

Lemma drop_last_head s :
  head s <> Some Chr.hyphen -> head (drop_last_hyphen s) <> Some Chr.hyphen.
Proof.
  destruct s as [|c [|c' t]]; cbn [drop_last_hyphen head]; [done| |done].
  by destruct (is_hyphen c).
Qed.

Lemma drop_last_single s :
  single_hyphens s = true -> single_hyphens (drop_last_hyphen s) = true.
Proof.
  induction s as [|c t IH]; [done|]. intros [Ht Hh]%single_hyphens_cons.
  cbn [drop_last_hyphen]. destruct t as [|c' t'].
  - by destruct (is_hyphen c).
  - apply single_hyphens_intro; [by apply IH|].
    intros Hc. by apply drop_last_head, Hh.
Qed.

Lemma drop_last_last s :
  single_hyphens s = true -> last (drop_last_hyphen s) <> Some Chr.hyphen.
Proof.
  induction s as [|c t IH]; [done|]. intros Hs.
  pose proof Hs as [Ht Hh]%single_hyphens_cons.
  cbn [drop_last_hyphen]. destruct t as [|c' t'].
  - destruct (is_hyphen c) eqn:Hc; [done|]. by apply not_hyphen_ne.
  - rewrite last_cons. specialize (IH Ht).
    destruct (last (drop_last_hyphen (c' :: t'))) as [y|] eqn:Hl; [done|].
    apply last_None in Hl.
    destruct (is_hyphen c) eqn:Hc; [|by apply not_hyphen_ne].
    exfalso. specialize (Hh eq_refl). cbn [head] in Hh.
    destruct t' as [|c'' t'']; cbn [drop_last_hyphen] in Hl; [|done].
    destruct (is_hyphen c') eqn:Hc'; [|done].
    apply is_hyphen_eq in Hc' as ->. done.
Qed.

Lemma trim_hyphens_Forall (Q : Z -> Prop) s : Forall Q s -> Forall Q (trim_hyphens s).
Proof.
  destruct 1 as [|c t Hc Ht]; [done|]. cbn [trim_hyphens].
  destruct (is_hyphen c); [|constructor; [done|]]; by apply drop_last_Forall.
Qed.

Lemma trim_hyphens_shape s :
  single_hyphens s = true ->
  no_leading_hyphen (trim_hyphens s) /\ no_trailing_hyphen (trim_hyphens s)
  /\ single_hyphens (trim_hyphens s) = true.
Proof.
  unfold no_leading_hyphen, no_trailing_hyphen.
  destruct s as [|c t]; [done|]. intros [Ht Hh]%single_hyphens_cons.
  cbn [trim_hyphens]. destruct (is_hyphen c) eqn:Hc.
  - split_and!; [by apply drop_last_head, Hh|by apply drop_last_last|by apply drop_last_single].
  - split_and!.
    + by apply not_hyphen_ne.
    + rewrite last_cons. pose proof (drop_last_last t Ht).
      destruct (last (drop_last_hyphen t)); [done|]. by apply not_hyphen_ne.
    + apply single_hyphens_intro; [by apply drop_last_single|]. by rewrite Hc.
Qed.

Lemma single_hyphens_no_double s :
  single_hyphens s = true -> no_double_hyphen s.
Proof.
  induction s as [|a t IH]; intros Hs i [H1 H2]; [done|].
  apply single_hyphens_cons in Hs as [Ht Hh].
  destruct i as [|i].
  - cbn in H1, H2. injection H1 as ->. apply (Hh eq_refl).
    by rewrite head_lookup.
  - by apply (IH Ht i).
Qed.

Lemma is_cjk_is_han c : is_cjk c = true -> is_han c = true.
Proof.
  unfold is_cjk, in_range. intros [H1 H2]%andb_prop.
  apply Z.leb_le in H1, H2.
  assert (H : in_range 19968 40959 c = true).
  { unfold in_range. apply andb_true_intro. split; apply Z.leb_le; lia. }
  unfold is_han. rewrite H. by rewrite orb_true_r.
Qed.

Lemma slug_char_id_char c : slug_char c -> id_char c = true.
Proof.
  unfold slug_char, id_char, slug_keep, cor. intros [H| ->]; [|done].
  destruct (is_lower c); [done|]. destruct (is_digit c); [done|].
  cbn [orb] in H |- *. by rewrite (is_cjk_is_han c H).
Qed.

Lemma slugify_shape name :
  Forall slug_char (slugify name)
  /\ no_leading_hyphen (slugify name)
  /\ no_trailing_hyphen (slugify name)
  /\ no_double_hyphen (slugify name).
Proof.
  rewrite slugify_eq.
  set (m := map _ name).
  assert (Hm : Forall slug_char m).
  { subst m. induction name as [|c t IH]; constructor; [|done].
    unfold slug_char, cnot. destruct (slug_keep c) eqn:Hc; cbn [negb]; auto. }
  pose proof (collapse_single m false) as [Hs _].
  pose proof (trim_hyphens_shape _ Hs) as (H1 & H2 & H3).
  split_and!; [|done|done|by apply single_hyphens_no_double].
  apply trim_hyphens_Forall, collapse_Forall; [by right|done].
Qed.

Lemma filter_hyphen_cons c t :
  is_hyphen c = true ->
  List.filter not_hyphen (c :: t) = List.filter not_hyphen t.
Proof. intros H. cbn [List.filter]. unfold not_hyphen at 1, cnot. by rewrite H. Qed.

Lemma filter_other_cons c t :
  is_hyphen c = false ->
  List.filter not_hyphen (c :: t) = c :: List.filter not_hyphen t.
Proof. intros H. cbn [List.filter]. unfold not_hyphen at 1, cnot. by rewrite H. Qed.

Lemma collapse_filter s : forall b,
  List.filter not_hyphen (collapse b s) = List.filter not_hyphen s.
Proof.
  induction s as [|c t IH]; intros b; [done|].
  cbn [collapse]. destruct (is_hyphen c) eqn:Hc.
  - rewrite (filter_hyphen_cons c t Hc). destruct b; [done|].
    by rewrite filter_hyphen_cons.
  - by rewrite !filter_other_cons, IH.
Qed.

Lemma drop_last_filter s :
  List.filter not_hyphen (drop_last_hyphen s) = List.filter not_hyphen s.
Proof.
  induction s as [|c t IH]; [done|].
  cbn [drop_last_hyphen]. destruct t as [|c' t'].
  - destruct (is_hyphen c) eqn:Hc; [|done]. by rewrite filter_hyphen_cons.
  - destruct (is_hyphen c) eqn:Hc.
    + by rewrite !(filter_hyphen_cons c), IH.
    + by rewrite !(filter_other_cons c), IH.
Qed.

Lemma trim_hyphens_filter s :
  List.filter not_hyphen (trim_hyphens s) = List.filter not_hyphen s.
Proof.
  destruct s as [|c t]; [done|]. cbn [trim_hyphens].
  destruct (is_hyphen c) eqn:Hc.
  - by rewrite filter_hyphen_cons, drop_last_filter.
  - by rewrite !filter_other_cons, drop_last_filter.
Qed.

Lemma slug_keep_not_hyphen c : slug_keep c = true -> is_hyphen c = false.
Proof.
  unfold slug_keep, cor, is_lower, is_digit, is_cjk, in_range, is_hyphen, is_char.
  intros H. apply Z.eqb_neq. intros ->. done.
Qed.

Lemma collapse_all_hyphens s :
  forallb is_hyphen s = true -> collapse true s = [].
Proof.
  induction s as [|c t IH]; [done|]. cbn [forallb collapse].
  intros [Hc Ht]%andb_prop. rewrite Hc. by apply IH.
Qed.

Lemma slugify_empty_iff name :
  slugify name = [] <-> forallb (cnot slug_keep) name = true.
Proof.
  rewrite slugify_eq. set (f := fun c : Z => if cnot slug_keep c then Chr.hyphen else c).
  split.
  - intros H.
    assert (Hf : List.filter not_hyphen (map f name) = []).
    { by rewrite <- (collapse_filter _ false), <- trim_hyphens_filter, H. }
    clear H. induction name as [|c t IH]; [done|].
    cbn [map forallb] in *. unfold f at 1 in Hf. unfold cnot at 1. unfold cnot at 1 in Hf.
    destruct (slug_keep c) eqn:Hc; cbn [negb andb] in *.
    + by rewrite filter_other_cons in Hf by (by apply slug_keep_not_hyphen).
    + apply IH. by rewrite filter_hyphen_cons in Hf.
  - intros H.
    assert (Hall : forallb is_hyphen (map f name) = true).
    { induction name as [|c t IH]; [done|]. cbn [map forallb] in *.
      apply andb_prop in H as [Hc Ht]. unfold f at 1. rewrite Hc.
      by rewrite hyphen_is_hyphen, IH. }
    destruct (map f name) as [|c t]; [done|].
    cbn [forallb] in Hall. apply andb_prop in Hall as [Hc Ht].
    cbn [collapse]. rewrite Hc, (collapse_all_hyphens t Ht). done.
Qed.

(** ** Texts without Markdown markers, and token counts *)

Lemma is_marker_false c :
  is_marker c = false ->
  is_char Chr.backtick c = false /\ is_char Chr.lbracket c = false
  /\ is_char Chr.hash c = false /\ is_emph c = false.
Proof.
  unfold is_marker, is_emph, cor, is_char.
  intros H. repeat (apply orb_false_elim in H as [H ?]).
  split_and!; try done. by apply orb_false_intro.
Qed.

(** A pattern that starts with a marker fails on a marker-free text. *)
Ltac head_fails :=
  intros pos s Hs; destruct Hs as [|c t Hc Ht]; [by destruct pos|];
  apply is_marker_false in Hc as (Hb & Hl & Hh & He);
  cbv beta delta [exec re_code_block re_inline_code re_link re_heading re_emphasis chr];
  cbn [rmatch rep_match ms_rest ms_pos ms_caps hi_allows andb];
  rewrite ?Hb, ?Hl, ?Hh, ?He; try done.

Lemma exec_code_block_unmarked : forall pos s,
  unmarked s -> exec re_code_block pos s = None.
Proof. head_fails. Qed.

Lemma exec_inline_code_unmarked : forall pos s,
  unmarked s -> exec re_inline_code pos s = None.
Proof. head_fails. Qed.

Lemma exec_link_unmarked : forall pos s,
  unmarked s -> exec re_link pos s = None.
Proof. head_fails. Qed.

Lemma exec_heading_unmarked : forall pos s,
  unmarked s -> exec re_heading pos s = None.
Proof. head_fails. Qed.

Lemma exec_emphasis_unmarked : forall pos s,
  unmarked s -> exec re_emphasis pos s = None.
Proof. head_fails. Qed.

Lemma exec_image_unmarked : forall pos s,
  unmarked s -> exec re_image pos s = None.
Proof.
  intros pos s Hs. destruct Hs as [|c t Hc Ht]; [by destruct pos|].
  unfold exec, re_image, chr. cbn [rmatch ms_rest ms_pos ms_caps].
  destruct (is_char Chr.bang c); [|done].
  pose proof (exec_link_unmarked (S pos) t Ht) as H. unfold exec in H.
  by destruct (rmatch re_link _ _).
Qed.

Lemma replace_from_unmarked r tmpl :
  (forall pos s, unmarked s -> exec r pos s = None) ->
  forall s pos, unmarked s -> replace_from r tmpl pos 0 s = s.
Proof.
  intros Hr s. induction s as [|c t IH]; intros pos Hs.
  - cbn. by rewrite Hr.
  - cbn [replace_from]. rewrite Hr by done. f_equal. apply IH. by inversion Hs.
Qed.

Lemma plainText_unmarked s :
  unmarked s -> plainText s = map newline_to_space s.
Proof.
  intros Hs. unfold plainText, replace.
  rewrite (replace_from_unmarked re_code_block) by (done || apply exec_code_block_unmarked).
  rewrite (replace_from_unmarked re_inline_code) by (done || apply exec_inline_code_unmarked).
  rewrite (replace_from_unmarked re_image) by (done || apply exec_image_unmarked).
  rewrite (replace_from_unmarked re_link) by (done || apply exec_link_unmarked).
  rewrite (replace_from_unmarked re_heading) by (done || apply exec_heading_unmarked).
  rewrite (replace_from_unmarked re_emphasis) by (done || apply exec_emphasis_unmarked).
  apply (replace_cls_subst (is_char Chr.newline) Chr.space).
Qed.

Lemma tokens_aux_open cur t :
  cur <> [] -> (1 <= length (tokens_aux cur t))%nat.
Proof.
  revert cur. induction t as [|c t IH]; intros cur Hcur.
  - destruct cur; [done|]. cbn. lia.
  - cbn [tokens_aux]. destruct (is_space c).
    + destruct cur; [done|]. cbn [length]. lia.
    + by apply IH.
Qed.

Lemma tokens_aux_app s t : forall cur,
  (length (tokens_aux cur s) <= length (tokens_aux cur (s ++ t)))%nat.
Proof.
  induction s as [|c s IH]; intros cur.
  - cbn [app tokens_aux]. destruct cur as [|x cur]; [cbn; lia|].
    cbn [length]. by apply tokens_aux_open.
  - cbn [app tokens_aux]. destruct (is_space c).
    + destruct cur; cbn [length]; [apply IH|]. specialize (IH []). lia.
    + apply IH.
Qed.

Lemma filter_length_app (p : cset) (s t : jsstring) :
  (length (List.filter p s) <= length (List.filter p (s ++ t)))%nat.
Proof. rewrite List.filter_app, length_app. lia. Qed.

Lemma cjkCount_app s t : cjkCount s <= cjkCount (s ++ t).
Proof. unfold cjkCount. pose proof (filter_length_app is_cjk s t). lia. Qed.

Lemma wordCount_app s t : wordCount s <= wordCount (s ++ t).
Proof.
  unfold wordCount, tokens. rewrite List.filter_app.
  pose proof (tokens_aux_app (List.filter (cnot is_cjk) s) (List.filter (cnot is_cjk) t) []).
  lia.
Qed.

(** ** Sorting, string order and sets *)

Section InsertionSort.
Context {A : Type} (comparefn : A -> A -> option Z).

Lemma sort_insert_perm x l : sort_insert comparefn x l ≡ₚ x :: l.
Proof.
  induction l as [|y l IH]; [done|]. cbn [sort_insert].
  destruct (SortCompare comparefn x y <=? 0); [done|].
  rewrite IH. apply Permutation_swap.
Qed.

Lemma Array_sort_perm l : Array_sort comparefn l ≡ₚ l.
Proof.
  induction l as [|x l IH]; [done|]. cbn [Array_sort].
  by rewrite sort_insert_perm, IH.
Qed.

Lemma Array_sort_sorted_id l :
  Sorted (cmp_le comparefn) l -> Array_sort comparefn l = l.
Proof.
  induction 1 as [|x l Hl IH Hhd]; [done|].
  cbn [Array_sort]. rewrite IH. destruct Hhd as [|y l' Hxy]; [done|].
  cbn [sort_insert]. unfold cmp_le in Hxy.
  by destruct (Z.leb_spec (SortCompare comparefn x y) 0); [|lia].
Qed.

Variable Q : A -> Prop.
Hypothesis cmp_total : forall x y, Q x -> Q y ->
  ~ cmp_le comparefn x y -> cmp_le comparefn y x.
Hypothesis cmp_trans : forall x y z, Q x -> Q y -> Q z ->
  cmp_le comparefn x y -> cmp_le comparefn y z -> cmp_le comparefn x z.

Lemma sort_insert_sorted x l :
  Q x -> Forall Q l ->
  StronglySorted (cmp_le comparefn) l ->
  StronglySorted (cmp_le comparefn) (sort_insert comparefn x l).
Proof.
  intros Hx Hl Hs. induction Hs as [|y l Hs IH Hy].
  - repeat constructor.
  - apply Forall_cons in Hl as [Qy Ql]. cbn [sort_insert].
    destruct (Z.leb_spec (SortCompare comparefn x y) 0) as [Hxy|Hxy].
    + constructor; [by constructor|]. constructor; [done|].
      rewrite Forall_forall in Hy, Ql |- *. intros z Hz.
      apply (cmp_trans x y z); auto.
    + constructor; [by apply IH|].
      rewrite sort_insert_perm. constructor; [|done].
      apply cmp_total; [done|done|]. unfold cmp_le. lia.
Qed.

Lemma Array_sort_sorted l :
  Forall Q l -> StronglySorted (cmp_le comparefn) (Array_sort comparefn l).
Proof.
  induction 1 as [|x l Hx Hl IH]; [constructor|].
  cbn [Array_sort]. apply sort_insert_sorted; [done| |done].
  by rewrite Array_sort_perm.
Qed.

End InsertionSort.

Lemma string_compare_eq x : forall y, string_compare x y = Eq -> x = y.
Proof.
  induction x as [|a x IH]; intros [|b y]; cbn; try done.
  destruct (Z.compare_spec a b) as [->| |]; [|done|done].
  intros H. f_equal. by apply IH.
Qed.

Lemma string_compare_antisym x : forall y,
  string_compare y x = CompOpp (string_compare x y).
Proof.
  induction x as [|a x IH]; intros [|b y]; cbn; try done.
  rewrite (Z.compare_antisym a b). destruct (a ?= b); cbn; auto.
Qed.

Lemma string_compare_lt_trans x : forall y z,
  string_compare x y = Lt -> string_compare y z = Lt -> string_compare x z = Lt.
Proof.
  induction x as [|a x IH]; intros [|b y] [|c z]; cbn; try done.
  destruct (Z.compare_spec a b) as [->|Hab|Hab]; try done.
  - destruct (b ?= c); try done. apply IH.
  - destruct (Z.compare_spec b c) as [->|Hbc|Hbc]; try done; intros _ _.
    + by rewrite (proj2 (Z.compare_lt_iff a c)).
    + by rewrite (proj2 (Z.compare_lt_iff a c)) by lia.
Qed.

Lemma default_le_iff x y :
  cmp_le default_compare x y <-> string_compare x y <> Gt.
Proof.
  unfold cmp_le, SortCompare, default_compare.
  destruct (string_compare x y); split; first [done | lia].
Qed.

Lemma default_le_total x y :
  ~ cmp_le default_compare x y -> cmp_le default_compare y x.
Proof.
  rewrite !default_le_iff, (string_compare_antisym x y).
  destruct (string_compare x y); cbn; try done. intros H. by destruct H.
Qed.

Lemma default_le_trans x y z :
  cmp_le default_compare x y -> cmp_le default_compare y z ->
  cmp_le default_compare x z.
Proof.
  rewrite !default_le_iff. intros Hxy Hyz.
  destruct (string_compare x y) eqn:E1; [| |done].
  - by apply string_compare_eq in E1 as ->.
  - destruct (string_compare y z) eqn:E2; [| |done].
    + apply string_compare_eq in E2 as ->. by rewrite E1.
    + by rewrite (string_compare_lt_trans x y z E1 E2).
Qed.

Lemma sorted_nodup_strict l :
  StronglySorted (cmp_le default_compare) l -> NoDup l -> StronglySorted str_lt l.
Proof.
  induction 1 as [|x l Hs IH Hx]; intros Hnd; [constructor|].
  apply NoDup_cons in Hnd as [Hnx Hnd]. constructor; [by apply IH|].
  rewrite Forall_forall in Hx |- *. intros y Hy.
  specialize (Hx y Hy). apply default_le_iff in Hx. unfold str_lt.
  destruct (string_compare x y) eqn:E; [|done|done].
  apply string_compare_eq in E as ->. done.
Qed.

Lemma Set_add_elem x y s : y ∈ Set_add x s <-> y = x \/ y ∈ s.
Proof.
  unfold Set_add. case_bool_decide as Hx.
  - split; [by right|]. by intros [->|].
  - rewrite elem_of_app, list_elem_of_singleton. tauto.
Qed.

Lemma Set_add_NoDup x s : NoDup s -> NoDup (Set_add x s).
Proof.
  intros Hs. unfold Set_add. case_bool_decide as Hx; [done|].
  apply NoDup_app. split_and!; [done| |apply NoDup_singleton].
  intros y Hy ->%list_elem_of_singleton. done.
Qed.

Lemma add_tags_spec tags : forall s,
  let s' := fold_left (fun acc tag => Set_add tag acc) tags s in
  (NoDup s -> NoDup s') /\ (forall t, t ∈ s' <-> t ∈ s \/ t ∈ tags).
Proof.
  induction tags as [|x tags IH]; intros s; cbn [fold_left].
  - split; [done|]. intros t. rewrite elem_of_nil. tauto.
  - destruct (IH (Set_add x s)) as [H1 H2]. split.
    + intros Hs. by apply H1, Set_add_NoDup.
    + intros t. rewrite H2, Set_add_elem, elem_of_cons. tauto.
Qed.

Lemma all_tags_spec posts : forall s,
  let s' := fold_left (fun tags post =>
              fold_left (fun tags tag => Set_add tag tags) (post_tags post) tags)
              posts s in
  (NoDup s -> NoDup s')
  /\ (forall t, t ∈ s' <-> t ∈ s \/ exists p, p ∈ posts /\ t ∈ post_tags p).
Proof.
  induction posts as [|p posts IH]; intros s; cbn [fold_left].
  - split; [done|]. intros t. split; [by left|]. intros [|(p & Hp & _)]; [done|].
    by apply elem_of_nil in Hp.
  - destruct (add_tags_spec (post_tags p) s) as [A1 A2].
    destruct (IH (fold_left (fun tags tag => Set_add tag tags) (post_tags p) s)) as [H1 H2].
    split; [auto|]. intros t. rewrite H2, A2. split.
    + intros [[|]|(q & Hq & Ht)]; [by left| |].
      * right. exists p. split; [by left|done].
      * right. exists q. split; [by right|done].
    + intros [|(q & Hq & Ht)]; [by left; left|].
      apply elem_of_cons in Hq as [->|Hq]; [by left; right|].
      right. by exists q.
Qed.

(** ** Reading time *)

Lemma calculateReadingTime_eq content :
  calculateReadingTime content
  = Z.max 1 (minutes (cjkCount (plainText content)) (wordCount (plainText content))).
Proof.
  unfold calculateReadingTime, Math_max, minutes.
  by rewrite chineseChars_count, englishWords_count.
Qed.

Lemma readingTime_extends short long u :
  plainText long = plainText short ++ u ->
  calculateReadingTime short <= calculateReadingTime long.
Proof.
  intros H. rewrite !calculateReadingTime_eq, H.
  apply Z.max_le_compat_l, minutes_mono; [apply cjkCount_app|apply wordCount_app].
Qed.

Lemma cjk_unmarked c : is_cjk c = true -> is_marker c = false.
Proof.
  unfold is_cjk, in_range. intros [H _]%andb_prop. apply Z.leb_le in H.
  unfold is_marker. repeat (apply orb_false_intro); apply Z.eqb_neq;
    unfold Chr.backtick, Chr.lbracket, Chr.hash, Chr.star, Chr.underscore; lia.
Qed.

Lemma cjk_only_unmarked s : cjk_only s = true -> unmarked s.
Proof.
  unfold cjk_only, unmarked. rewrite forallb_forall, Forall_forall.
  intros H c Hc. apply cjk_unmarked, H. by apply list_elem_of_In.
Qed.

Lemma plain_words_unmarked s : plain_words_only s = true -> unmarked s.
Proof.
  unfold plain_words_only, unmarked. rewrite forallb_forall, Forall_forall.
  intros H c Hc. apply list_elem_of_In, H in Hc.
  apply andb_prop in Hc as [_ Hc]. by apply negb_true_iff.
Qed.

Lemma unmarked_extends short ext :
  unmarked (short ++ ext) ->
  plainText (short ++ ext) = plainText short ++ map newline_to_space ext.
Proof.
  intros H. pose proof H as [Hs _]%Forall_app.
  by rewrite !plainText_unmarked, map_app.
Qed.

(** C1.  For every input text the estimator returns
    [max(1, ceil(cjkCount / 200 + wordCount / 250))]: [cjkCount] is the
    number of code units of the range [一-龥] in the text without Markdown
    syntax and [wordCount] the number of non-empty whitespace-separated
    tokens left once those code units are removed.  The quotients and the
    sum are those of Number arithmetic, and as long as the counts are array
    lengths (below [2^32]) the result is the ceiling of the exact quotient
    [(5 cjkCount + 4 wordCount) / 1000].  The result is an integer of at
    least 1, for the empty text as well. *)
Theorem calculateReadingTime_formula (content : jsstring) :
  let plain := plainText content in
  let cjk := Z.of_nat (length (List.filter is_cjk plain)) in
  let words := Z.of_nat (length (tokens (List.filter (cnot is_cjk) plain))) in
  calculateReadingTime content
  = Z.max 1 (Math_ceil (Num_add (Num_div cjk 200) (Num_div words 250)))
  /\ (cjk < 2 ^ 32 -> words < 2 ^ 32 ->
      calculateReadingTime content = Z.max 1 (- ((- (5 * cjk + 4 * words)) / 1000)))
  /\ 1 <= calculateReadingTime content
  /\ calculateReadingTime [] = 1.
Proof.
  cbn zeta. rewrite calculateReadingTime_eq. split_and!; [done| |lia|done].
  intros Hc Hw. fold (cjkCount (plainText content)) (wordCount (plainText content)) in *.
  rewrite minutes_exact; [done| |]; unfold cjkCount, wordCount in *; lia.
Qed.

Lemma generatePostId_instance filename :
  generatePostId filename = generatePostId_with toLowerCase filename.
Proof. reflexivity. Qed.

(** C2, as the script has it.  For every file name, and whatever the
    lower-casing of the host does, the id is made of lower-case letters,
    digits, ideographs and hyphens only, does not start or end with a hyphen
    and has no two hyphens in a row; it may be empty, which happens exactly
    when the lower-cased base name has no code unit of [[a-z0-9一-龥]]. *)
Theorem generatePostId_shape (String_toLowerCase : jsstring -> jsstring)
    (filename : jsstring) :
  let id := generatePostId_with String_toLowerCase filename in
  Forall (fun c => id_char c = true) id
  /\ no_leading_hyphen id
  /\ no_trailing_hyphen id
  /\ no_double_hyphen id
  /\ (id = [] <->
      forallb (cnot slug_keep) (String_toLowerCase (basename filename (str ".md")))
      = true).
Proof.
  cbn zeta. unfold generatePostId_with.
  destruct (slugify_shape (String_toLowerCase (basename filename (str ".md"))))
    as (H1 & H2 & H3 & H4).
  split_and!; [|done|done|done|apply slugify_empty_iff].
  eapply Forall_impl; [exact H1|]. apply slug_char_id_char.
Qed.

(** C2 as stated fails: the file [_.md] gets the empty id, which does not
    match [[a-z0-9\p{Han}-]+]. *)
Lemma generatePostId_can_be_empty :
  ~ (matches_id_pattern (generatePostId (str "_.md"))
     /\ no_leading_hyphen (generatePostId (str "_.md"))
     /\ no_trailing_hyphen (generatePostId (str "_.md"))
     /\ no_double_hyphen (generatePostId (str "_.md"))).
Proof. intros [[Hne _] _]. by apply Hne. Qed.

(** C8, as the script has it.  When one text extends another and both are
    made of ideographs of [一-龥] only, or both are made of words without
    ideographs and without the code units that start Markdown syntax
    (backtick, [[], [#], [*], [_]), the longer text never gets a smaller
    reading time. *)
Theorem readingTime_monotone (short ext : jsstring) :
  cjk_only (short ++ ext) = true \/ plain_words_only (short ++ ext) = true ->
  calculateReadingTime short <= calculateReadingTime (short ++ ext).
Proof.
  intros H. apply (readingTime_extends _ _ (map newline_to_space ext)).
  apply unmarked_extends.
  destruct H; [by apply cjk_only_unmarked|by apply plain_words_unmarked].
Qed.

Lemma readingTime_monotone_witness :
  plain_words_only (str "one two" ++ str " three") = true
  /\ calculateReadingTime (str "one two")
     <= calculateReadingTime (str "one two" ++ str " three").
Proof.
  split; [reflexivity|].
  apply (readingTime_monotone (str "one two") (str " three")).
  right. reflexivity.
Defined.

(** C8 as stated fails: closing the code span removes every word. *)
Lemma readingTime_not_monotone :
  ~ (forall short ext : jsstring,
       cjk_only (short ++ ext) = true \/ no_cjk (short ++ ext) = true ->
       calculateReadingTime short <= calculateReadingTime (short ++ ext)).
Proof.
  intros H. specialize (H open_code_span [Chr.backtick]).
  assert (E1 : calculateReadingTime open_code_span = 2) by (vm_compute; reflexivity).
  assert (E2 : calculateReadingTime (open_code_span ++ [Chr.backtick]) = 1)
    by (vm_compute; reflexivity).
  rewrite E1, E2 in H.
  assert (2 <= 1) by (apply H; right; vm_compute; reflexivity). lia.
Qed.

(** ** Dates *)

Lemma by_date_desc_parseable getTime a b :
  parseable getTime a -> parseable getTime b ->
  exists ta tb,
    getTime (post_date a) = Some ta /\ getTime (post_date b) = Some tb
    /\ SortCompare (by_date_desc getTime) a b = tb - ta.
Proof.
  intros [ta Ha] [tb Hb]. exists ta, tb. split_and!; [done|done|].
  unfold SortCompare, by_date_desc. by rewrite Ha, Hb.
Qed.

Lemma by_date_total getTime a b :
  parseable getTime a -> parseable getTime b ->
  ~ cmp_le (by_date_desc getTime) a b -> cmp_le (by_date_desc getTime) b a.
Proof.
  intros Ha Hb. unfold cmp_le.
  destruct (by_date_desc_parseable getTime a b Ha Hb) as (ta & tb & Ea & Eb & ->).
  destruct (by_date_desc_parseable getTime b a Hb Ha) as (tb' & ta' & Eb' & Ea' & ->).
  simplify_eq. lia.
Qed.

Lemma by_date_trans getTime a b c :
  parseable getTime a -> parseable getTime b -> parseable getTime c ->
  cmp_le (by_date_desc getTime) a b -> cmp_le (by_date_desc getTime) b c ->
  cmp_le (by_date_desc getTime) a c.
Proof.
  intros Ha Hb Hc. unfold cmp_le.
  destruct (by_date_desc_parseable getTime a b Ha Hb) as (ta & tb & Ea & Eb & ->).
  destruct (by_date_desc_parseable getTime b c Hb Hc) as (tb' & tc & Eb' & Ec & ->).
  destruct (by_date_desc_parseable getTime a c Ha Hc) as (ta' & tc' & Ea' & Ec' & ->).
  simplify_eq. lia.
Qed.

Lemma cmp_le_date_ge getTime a b :
  cmp_le (by_date_desc getTime) a b -> date_ge getTime a b.
Proof.
  unfold cmp_le, SortCompare, by_date_desc, date_ge. intros H ta tb Ha Hb.
  rewrite Ha, Hb in H. lia.
Qed.

Lemma date_ge_cmp_le getTime a b :
  parseable getTime a -> parseable getTime b ->
  date_ge getTime a b -> cmp_le (by_date_desc getTime) a b.
Proof.
  intros Ha Hb H. unfold cmp_le.
  destruct (by_date_desc_parseable getTime a b Ha Hb) as (ta & tb & Ea & Eb & ->).
  specialize (H ta tb Ea Eb). lia.
Qed.

Lemma Sorted_date_cmp getTime l :
  Forall (parseable getTime) l -> Sorted (date_ge getTime) l ->
  Sorted (cmp_le (by_date_desc getTime)) l.
Proof.
  intros Hp Hs. induction Hs as [|a l Hs IH Hhd]; [constructor|].
  apply Forall_cons in Hp as [Ha Hl]. constructor; [by apply IH|].
  destruct Hhd as [|b l' Hab]; constructor.
  apply Forall_cons in Hl as [Hb _]. by apply date_ge_cmp_le.
Qed.

Lemma StronglySorted_cmp_date getTime l :
  StronglySorted (cmp_le (by_date_desc getTime)) l ->
  StronglySorted (date_ge getTime) l.
Proof.
  induction 1 as [|a l Hs IH Ha]; constructor; [done|].
  eapply Forall_impl; [exact Ha|]. intros b. apply cmp_le_date_ge.
Qed.

Lemma Array_sort_by_date_sorted getTime l :
  Forall (parseable getTime) l ->
  StronglySorted (date_ge getTime) (Array_sort (by_date_desc getTime) l).
Proof.
  intros Hp. apply StronglySorted_cmp_date.
  apply (Array_sort_sorted _ (parseable getTime)); [| |done].
  - apply by_date_total.
  - apply by_date_trans.
Qed.

(** Sorting twice is sorting once. *)
Lemma Array_sort_by_date_twice getTime l :
  Forall (parseable getTime) l ->
  Array_sort (by_date_desc getTime) (Array_sort (by_date_desc getTime) l)
  = Array_sort (by_date_desc getTime) l.
Proof.
  intros Hp. apply Array_sort_sorted_id, StronglySorted_Sorted.
  apply (Array_sort_sorted _ (parseable getTime)); [| |done].
  - apply by_date_total.
  - apply by_date_trans.
Qed.

(** ** The store *)

Lemma sortPostsByDate_eq getTime (h : gmap positive (list BlogPost)) posts l :
  h !! posts = Some l ->
  sortPostsByDate getTime posts h
  = Some (fresh (dom h),
          <[fresh (dom h) := Array_sort (by_date_desc getTime) l]>
            (<[fresh (dom h) := l]> h)).
Proof.
  intros Hl. unfold sortPostsByDate, spread, sort_in_place. rewrite Hl.
  by rewrite lookup_insert_eq.
Qed.

Lemma fresh_unused (h : gmap positive (list BlogPost)) : h !! fresh (dom h) = None.
Proof. apply not_elem_of_dom, is_fresh. Qed.

(** ** [parseMarkdownFile] *)

Lemma truthy_or_str x : truthy (Some (or_str x [])) = truthy x.
Proof. by destruct x as [[|c s]|]. Qed.

Lemma excerpt_rule plain :
  substring0 150 plain ++ (if 150 <? slen plain then str "..." else [])
  = if decide (length plain <= 150)%nat then plain else take 150 plain ++ ellipsis.
Proof.
  unfold substring0, slen. destruct (Z.ltb_spec 150 (Z.of_nat (length plain))).
  - by rewrite decide_False by lia.
  - rewrite decide_True by lia. rewrite take_ge by lia. apply app_nil_r.
Qed.

(** The record of a file whose front matter has a title and a date. *)
Lemma parseMarkdownFile_record readFile matter filePath fileContent fm content :
  readFile filePath = Some fileContent ->
  matter fileContent = Some (fm, content) ->
  truthy (fm_title fm) = true -> truthy (fm_date fm) = true ->
  parseMarkdownFile readFile matter filePath
  = (Some {| post_id := generatePostId (basename filePath []);
             post_title := default [] (fm_title fm);
             post_date := default [] (fm_date fm);
             post_excerpt :=
               if truthy (fm_excerpt fm) then or_str (fm_excerpt fm) []
               else auto_excerpt content;
             post_content := content;
             post_tags := or_array (fm_tags fm) [];
             post_readingTime := calculateReadingTime content;
             post_featured := or_bool (fm_featured fm) false |}, []).
Proof.
  intros Hr Hm Ht Hd. unfold parseMarkdownFile. rewrite Hr, Hm, Ht, Hd.
  cbn [negb orb]. rewrite truthy_or_str. unfold auto_excerpt.
  rewrite <- excerpt_rule. by destruct (truthy (fm_excerpt fm)).
Qed.

(** The file is skipped when the title or the date is falsy. *)
Lemma parseMarkdownFile_skip readFile matter filePath fileContent fm content :
  readFile filePath = Some fileContent ->
  matter fileContent = Some (fm, content) ->
  truthy (fm_title fm) = false \/ truthy (fm_date fm) = false ->
  parseMarkdownFile readFile matter filePath
  = (None, [(WARN, MsgMissingField filePath)]).
Proof.
  intros Hr Hm H. unfold parseMarkdownFile. rewrite Hr, Hm.
  destruct H as [-> | ->]; [done|]. by rewrite orb_true_r.
Qed.

Lemma parseMarkdownFile_inv readFile matter filePath fileContent fm content post out :
  readFile filePath = Some fileContent ->
  matter fileContent = Some (fm, content) ->
  parseMarkdownFile readFile matter filePath = (Some post, out) ->
  truthy (fm_title fm) = true /\ truthy (fm_date fm) = true.
Proof.
  intros Hr Hm H.
  destruct (truthy (fm_title fm)) eqn:Ht, (truthy (fm_date fm)) eqn:Hd; try done;
    rewrite (parseMarkdownFile_skip _ _ _ _ _ _ Hr Hm) in H by auto; done.
Qed.

(** C3, as the script has it.  In every assembled record a non-empty explicit
    excerpt of the front matter is kept unchanged; otherwise (no excerpt, or
    the empty string) the excerpt is the trimmed plain text of the body when
    that has at most 150 code units, and its first 150 code units followed by
    ["..."] when it is longer. *)
Theorem parseMarkdownFile_excerpt
    (readFile : jsstring -> option jsstring)
    (matter : jsstring -> option (PostFrontMatter * jsstring))
    (filePath fileContent : jsstring) (fm : PostFrontMatter) (content : jsstring)
    (post : BlogPost) (out : console) :
  readFile filePath = Some fileContent ->
  matter fileContent = Some (fm, content) ->
  parseMarkdownFile readFile matter filePath = (Some post, out) ->
  (forall e, fm_excerpt fm = Some e -> e <> [] -> post_excerpt post = e)
  /\ (fm_excerpt fm = None \/ fm_excerpt fm = Some [] ->
      ((length (trim (plainText content)) <= 150)%nat ->
       post_excerpt post = trim (plainText content))
      /\ ((150 < length (trim (plainText content)))%nat ->
          post_excerpt post = take 150 (trim (plainText content)) ++ str "...")).
Proof.
  intros Hr Hm H.
  destruct (parseMarkdownFile_inv _ _ _ _ _ _ _ _ Hr Hm H) as [Ht Hd].
  rewrite (parseMarkdownFile_record _ _ _ _ _ _ Hr Hm Ht Hd) in H.
  injection H as <- _. cbn [post_excerpt]. split.
  - intros e He Hne. rewrite He. by destruct e.
  - intros He.
    assert (Hf : truthy (fm_excerpt fm) = false) by (by destruct He as [-> | ->]).
    rewrite Hf. unfold auto_excerpt. split; intros Hlen.
    + by rewrite decide_True.
    + by rewrite decide_False by lia.
Qed.

Lemma parseMarkdownFile_excerpt_witness :
  exists post,
    parseMarkdownFile (reads (str "raw"))
      (parses (with_excerpt (Some (str "A short run.")) fm_run) (str "Hello **world**"))
      (str "run.md") = (Some post, [])
    /\ post_excerpt post = str "A short run.".
Proof.
  eexists. split; [reflexivity|].
  eapply (parseMarkdownFile_excerpt (reads (str "raw"))
            (parses (with_excerpt (Some (str "A short run.")) fm_run) (str "Hello **world**"))
            (str "run.md") (str "raw")); [reflexivity|reflexivity|reflexivity| |].
  - reflexivity.
  - discriminate.
Defined.

(** C3 as stated fails: an explicit excerpt that is the empty string is not
    kept; the record gets the excerpt made from the body. *)
Lemma empty_excerpt_not_kept :
  ~ (forall readFile matter filePath fileContent fm content post out e,
       readFile filePath = Some fileContent ->
       matter fileContent = Some (fm, content) ->
       parseMarkdownFile readFile matter filePath = (Some post, out) ->
       fm_excerpt fm = Some e ->
       post_excerpt post = e).
Proof.
  intros H.
  specialize (H (reads (str "raw")) (parses (with_excerpt (Some []) fm_run) (str "hi"))
                (str "run.md") (str "raw") _ _ _ _ [] eq_refl eq_refl eq_refl eq_refl).
  discriminate H.
Qed.

(** C9.  When the front matter has a title and a date and gives the excerpt
    as the empty string, the assembler returns a record, the one it returns
    without an excerpt field: the excerpt of the record is the one made from
    the body, the first 150 code units of the trimmed plain text, with the
    ellipsis when that text is longer. *)
Theorem empty_excerpt_regenerated
    (readFile : jsstring -> option jsstring)
    (matter : jsstring -> option (PostFrontMatter * jsstring))
    (filePath fileContent : jsstring) (fm : PostFrontMatter) (content : jsstring) :
  readFile filePath = Some fileContent ->
  matter fileContent = Some (fm, content) ->
  truthy (fm_title fm) = true ->
  truthy (fm_date fm) = true ->
  fm_excerpt fm = Some [] ->
  exists post,
    parseMarkdownFile readFile matter filePath = (Some post, [])
    /\ parseMarkdownFile readFile (parses (with_excerpt None fm) content) filePath
       = (Some post, [])
    /\ post_excerpt post = auto_excerpt content
    /\ post_excerpt post
       = substring0 150 (trim (plainText content))
         ++ (if 150 <? slen (trim (plainText content)) then str "..." else []).
Proof.
  intros Hr Hm Ht Hd He.
  rewrite (parseMarkdownFile_record readFile matter filePath fileContent fm content
             Hr Hm Ht Hd).
  rewrite (parseMarkdownFile_record readFile (parses (with_excerpt None fm) content)
             filePath fileContent (with_excerpt None fm) content Hr eq_refl Ht Hd).
  cbn [with_excerpt fm_title fm_date fm_excerpt fm_tags fm_featured].
  rewrite He. cbn [truthy].
  eexists. split; [reflexivity|]. split; [reflexivity|]. cbn [post_excerpt].
  split; [done|]. unfold auto_excerpt. by rewrite excerpt_rule.
Qed.

Lemma empty_excerpt_regenerated_witness :
  exists post,
    parseMarkdownFile (reads (str "raw"))
      (parses (with_excerpt (Some []) fm_run) (str "Easy  *run*."))
      (str "run.md") = (Some post, [])
    /\ post_excerpt post = str "Easy  run.".
Proof.
  destruct (empty_excerpt_regenerated (reads (str "raw"))
              (parses (with_excerpt (Some []) fm_run) (str "Easy  *run*."))
              (str "run.md") (str "raw") (with_excerpt (Some []) fm_run)
              (str "Easy  *run*.") eq_refl eq_refl eq_refl eq_refl eq_refl)
    as (post & H1 & _ & H3 & _).
  exists post. split; [exact H1|]. rewrite H3. reflexivity.
Defined.

(** C10.  A title or a date that is the empty string is treated as a missing
    one: no record is produced and the warning is printed, as for the front
    matter without that key. *)
Theorem empty_required_field_skipped
    (readFile : jsstring -> option jsstring)
    (matter : jsstring -> option (PostFrontMatter * jsstring))
    (filePath fileContent : jsstring) (fm : PostFrontMatter) (content : jsstring) :
  readFile filePath = Some fileContent ->
  matter fileContent = Some (fm, content) ->
  fm_title fm = Some [] \/ fm_date fm = Some [] ->
  parseMarkdownFile readFile matter filePath
  = (None, [(WARN, MsgMissingField filePath)])
  /\ parseMarkdownFile readFile (parses (without_empty_required fm) content) filePath
     = (None, [(WARN, MsgMissingField filePath)]).
Proof.
  intros Hr Hm H. split.
  - apply (parseMarkdownFile_skip _ _ _ fileContent fm content); [done|done|].
    destruct H as [-> | ->]; auto.
  - apply (parseMarkdownFile_skip _ _ _ fileContent (without_empty_required fm) content);
      [done|done|].
    cbn [without_empty_required fm_title fm_date].
    destruct H as [-> | ->]; auto.
Qed.

Lemma empty_required_field_skipped_witness :
  fm_title fm_empty_title = Some []
  /\ parseMarkdownFile (reads (str "raw")) (parses fm_empty_title (str "body")) (str "run.md")
     = (None, [(WARN, MsgMissingField (str "run.md"))]).
Proof.
  split; [reflexivity|].
  apply (empty_required_field_skipped (reads (str "raw"))
           (parses fm_empty_title (str "body")) (str "run.md") (str "raw")
           fm_empty_title (str "body") eq_refl eq_refl).
  left. reflexivity.
Defined.

(** ** The loop over the files *)

Section Batch.
Context (cwd : jsstring) (path_join : list jsstring -> jsstring)
  (readFile : jsstring -> option jsstring)
  (matter : jsstring -> option (PostFrontMatter * jsstring)).

Lemma parseAll_cons file rest :
  fst (parseAll cwd path_join readFile matter (file :: rest))
  = match fst (parseMarkdownFile readFile matter
                 (path_join [blogPostsDir cwd path_join; file])) with
    | Some p => p :: fst (parseAll cwd path_join readFile matter rest)
    | None => fst (parseAll cwd path_join readFile matter rest)
    end.
Proof.
  cbn [parseAll].
  destruct (parseMarkdownFile _ _ _) as [[p|] out];
    by destruct (parseAll cwd path_join readFile matter rest).
Qed.

Lemma parseAll_app files1 files2 :
  fst (parseAll cwd path_join readFile matter (files1 ++ files2))
  = fst (parseAll cwd path_join readFile matter files1)
    ++ fst (parseAll cwd path_join readFile matter files2).
Proof.
  induction files1 as [|file rest IH]; [done|].
  rewrite <- app_comm_cons, !parseAll_cons, IH.
  by destruct (fst (parseMarkdownFile _ _ _)).
Qed.

Lemma parseAll_skipped files1 file files2 :
  fst (parseMarkdownFile readFile matter (path_join [blogPostsDir cwd path_join; file]))
  = None ->
  fst (parseAll cwd path_join readFile matter (files1 ++ file :: files2))
  = fst (parseAll cwd path_join readFile matter (files1 ++ files2)).
Proof.
  intros H. by rewrite !parseAll_app, parseAll_cons, H.
Qed.

End Batch.

Lemma syncFiles_posts cwd path_join readFile writeFile matter getTime now json tmpl
    files files' :
  fst (parseAll cwd path_join readFile matter files)
  = fst (parseAll cwd path_join readFile matter files') ->
  written (syncFiles cwd path_join readFile writeFile matter getTime now json tmpl files)
  = written (syncFiles cwd path_join readFile writeFile matter getTime now json tmpl files')
  /\ exit_code (syncFiles cwd path_join readFile writeFile matter getTime now json tmpl files)
     = exit_code (syncFiles cwd path_join readFile writeFile matter getTime now json tmpl
                    files').
Proof.
  unfold syncFiles.
  destruct (parseAll cwd path_join readFile matter files) as [posts out].
  destruct (parseAll cwd path_join readFile matter files') as [posts' out'].
  cbn [fst]. intros ->. by destruct (writeFile _ _).
Qed.

(** C4.  A file whose front matter has no title or no date gives the warning
    and no record, and the run goes on: the files after it are still
    assembled, the artifact and the exit status are those of the run without
    the file, and a run over that file alone writes the empty collection,
    prints the one warning and ends with status 0. *)
Theorem missing_field_skipped
    (cwd : jsstring) (path_join : list jsstring -> jsstring)
    (glob : jsstring -> jsstring -> option (list jsstring))
    (readFile : jsstring -> option jsstring)
    (writeFile : jsstring -> jsstring -> option unit)
    (matter : jsstring -> option (PostFrontMatter * jsstring))
    (Date_getTime : jsstring -> option Z) (now : jsstring)
    (JSON_stringify : list BlogPost -> jsstring)
    (template : jsstring -> jsstring -> jsstring)
    (before after : list jsstring) (file fileContent : jsstring)
    (fm : PostFrontMatter) (content : jsstring) :
  readFile (path_join [blogPostsDir cwd path_join; file]) = Some fileContent ->
  matter fileContent = Some (fm, content) ->
  fm_title fm = None \/ fm_date fm = None ->
  parseMarkdownFile readFile matter (path_join [blogPostsDir cwd path_join; file])
  = (None, [(WARN, MsgMissingField (path_join [blogPostsDir cwd path_join; file]))])
  /\ fst (parseAll cwd path_join readFile matter (before ++ file :: after))
     = fst (parseAll cwd path_join readFile matter before)
       ++ fst (parseAll cwd path_join readFile matter after)
  /\ written (syncFiles cwd path_join readFile writeFile matter Date_getTime now
                JSON_stringify template (before ++ file :: after))
     = written (syncFiles cwd path_join readFile writeFile matter Date_getTime now
                  JSON_stringify template (before ++ after))
  /\ exit_code (syncFiles cwd path_join readFile writeFile matter Date_getTime now
                  JSON_stringify template (before ++ file :: after))
     = exit_code (syncFiles cwd path_join readFile writeFile matter Date_getTime now
                    JSON_stringify template (before ++ after))
  /\ (glob (str "**/*.md") (blogPostsDir cwd path_join) = Some [file] ->
      writeFile (outputPath cwd path_join)
        (generateBlogDataContent now JSON_stringify template []) = Some tt ->
      syncBlog cwd path_join glob readFile writeFile matter Date_getTime now
        JSON_stringify template
      = {| exit_code := 0;
           printed :=
             [(LOG, MsgStart); (LOG, MsgFound 1); (LOG, MsgProcessing file);
              (WARN, MsgMissingField (path_join [blogPostsDir cwd path_join; file]));
              (LOG, MsgUpdated); (LOG, MsgStats); (LOG, MsgTotal 0);
              (LOG, MsgFeatured 0); (LOG, MsgTagCount 0);
              (LOG, MsgOutput (outputPath cwd path_join))];
           written :=
             Some (outputPath cwd path_join,
                   generateBlogDataContent now JSON_stringify template []) |}).
Proof.
  intros Hr Hm H.
  assert (Hskip : parseMarkdownFile readFile matter
                    (path_join [blogPostsDir cwd path_join; file])
                  = (None, [(WARN, MsgMissingField
                                     (path_join [blogPostsDir cwd path_join; file]))])).
  { apply (parseMarkdownFile_skip _ _ _ fileContent fm content); [done|done|].
    destruct H as [-> | ->]; auto. }
  assert (Hposts : fst (parseAll cwd path_join readFile matter (before ++ file :: after))
                   = fst (parseAll cwd path_join readFile matter (before ++ after))).
  { apply parseAll_skipped. by rewrite Hskip. }
  split_and!; [done| | | |].
  - by rewrite Hposts, parseAll_app.
  - by apply syncFiles_posts.
  - by apply syncFiles_posts.
  - intros Hg Hw. unfold syncBlog. rewrite Hg. unfold syncFiles. cbn [parseAll].
    rewrite Hskip. cbn [Array_sort]. by rewrite Hw.
Qed.

Lemma missing_field_skipped_witness :
  fm_date fm_no_date = None
  /\ exit_code (syncBlog (str "/site") join_slash (fun _ _ => Some [str "run.md"])
                  (reads (str "raw")) write_ok (parses fm_no_date (str "body"))
                  iso_getTime (str "2024-03-01T00:00:00.000Z") print_count paste) = 0.
Proof.
  split; [reflexivity|].
  destruct (missing_field_skipped (str "/site") join_slash
              (fun _ _ => Some [str "run.md"]) (reads (str "raw")) write_ok
              (parses fm_no_date (str "body")) iso_getTime
              (str "2024-03-01T00:00:00.000Z") print_count paste
              [] [] (str "run.md") (str "raw") fm_no_date (str "body")
              eq_refl eq_refl (or_intror eq_refl))
    as (_ & _ & _ & _ & H).
  rewrite (H eq_refl eq_refl). reflexivity.
Defined.

(** C5.  For every collection of records [getAllTags] returns the tags that
    occur in the tag lists of the records, each of them once, in strictly
    ascending lexicographic order of their code units. *)
Theorem getAllTags_sorted_set (blogPosts : list BlogPost) :
  StronglySorted str_lt (getAllTags blogPosts)
  /\ NoDup (getAllTags blogPosts)
  /\ (forall t, t ∈ getAllTags blogPosts <-> exists p, p ∈ blogPosts /\ t ∈ post_tags p).
Proof.
  unfold getAllTags.
  destruct (all_tags_spec blogPosts []) as [H1 H2]. cbn zeta in H1, H2.
  set (tags := fold_left _ blogPosts []) in *.
  assert (Hnd : NoDup (Array_sort default_compare tags)).
  { rewrite Array_sort_perm. apply H1, NoDup_nil_2. }
  split_and!; [|done|].
  - apply sorted_nodup_strict; [|done].
    apply (Array_sort_sorted default_compare (fun _ => True)).
    + intros x y _ _. apply default_le_total.
    + intros x y z _ _ _. apply default_le_trans.
    + by apply Forall_true.
  - intros t. rewrite Array_sort_perm, H2. rewrite elem_of_nil. tauto.
Qed.

(** C6.  Applied to records with parseable dates that are already in
    descending order of date, [sortPostsByDate] returns an array with the
    same records in the same order. *)
Theorem sortPostsByDate_sorted_input
    (Date_getTime : jsstring -> option Z)
    (h : gmap positive (list BlogPost)) (posts : positive) (l : list BlogPost) :
  h !! posts = Some l ->
  Forall (parseable Date_getTime) l ->
  Sorted (date_ge Date_getTime) l ->
  exists copy h',
    sortPostsByDate Date_getTime posts h = Some (copy, h')
    /\ h' !! copy = Some l.
Proof.
  intros Hl Hp Hs. eexists _, _. split; [by apply sortPostsByDate_eq|].
  rewrite lookup_insert_eq. f_equal.
  by apply Array_sort_sorted_id, Sorted_date_cmp.
Qed.

Lemma sortPostsByDate_sorted_input_witness :
  Forall (parseable iso_getTime) [post_feb; post_jan]
  /\ Sorted (date_ge iso_getTime) [post_feb; post_jan]
  /\ exists copy h',
       sortPostsByDate iso_getTime 1%positive {[ 1%positive := [post_feb; post_jan] ]}
       = Some (copy, h')
       /\ h' !! copy = Some [post_feb; post_jan].
Proof.
  assert (Hp : Forall (parseable iso_getTime) [post_feb; post_jan]).
  { repeat constructor; eexists; vm_compute; reflexivity. }
  assert (Hs : Sorted (date_ge iso_getTime) [post_feb; post_jan]).
  { repeat constructor. intros ta tb Ha Hb. vm_compute in Ha, Hb.
    injection Ha as <-. injection Hb as <-. lia. }
  split; [exact Hp|]. split; [exact Hs|].
  apply (sortPostsByDate_sorted_input iso_getTime
           {[ 1%positive := [post_feb; post_jan] ]} 1%positive [post_feb; post_jan]);
    [reflexivity|exact Hp|exact Hs].
Defined.

(** C7, as the script has it.  [sortPostsByDate] returns a new array that
    holds the records of its argument, in descending order of date when all
    the dates are parseable, and it changes nothing else: the argument holds
    the same records in the same order as before the call, and so does every
    other array. *)
Theorem sortPostsByDate_frame
    (Date_getTime : jsstring -> option Z)
    (h : gmap positive (list BlogPost)) (posts : positive) (l : list BlogPost) :
  h !! posts = Some l ->
  exists copy h' sorted,
    sortPostsByDate Date_getTime posts h = Some (copy, h')
    /\ h !! copy = None
    /\ h' !! copy = Some sorted
    /\ sorted ≡ₚ l
    /\ (Forall (parseable Date_getTime) l -> StronglySorted (date_ge Date_getTime) sorted)
    /\ h' !! posts = Some l
    /\ (forall a, a <> copy -> h' !! a = h !! a).
Proof.
  intros Hl. eexists _, _, _. split; [by apply sortPostsByDate_eq|].
  pose proof (fresh_unused h) as Hf.
  split_and!; [done|by rewrite lookup_insert_eq|apply Array_sort_perm| | |].
  - apply Array_sort_by_date_sorted.
  - rewrite !lookup_insert_ne; [done| |]; intros E; rewrite E in Hf; congruence.
  - intros a Ha. by rewrite !lookup_insert_ne.
Qed.

Lemma sortPostsByDate_frame_witness :
  ({[ 1%positive := [post_jan; post_feb] ]} : gmap positive (list BlogPost)) !! 1%positive
  = Some [post_jan; post_feb]
  /\ exists copy h',
       sortPostsByDate iso_getTime 1%positive {[ 1%positive := [post_jan; post_feb] ]}
       = Some (copy, h')
       /\ h' !! 1%positive = Some [post_jan; post_feb].
Proof.
  assert (Hl : ({[ 1%positive := [post_jan; post_feb] ]} : gmap positive (list BlogPost))
               !! 1%positive = Some [post_jan; post_feb]) by reflexivity.
  split; [exact Hl|].
  destruct (sortPostsByDate_frame iso_getTime
              {[ 1%positive := [post_jan; post_feb] ]} 1%positive [post_jan; post_feb] Hl)
    as (copy & h' & sorted & H1 & _ & _ & _ & _ & H2 & _).
  exists copy, h'. split; [exact H1|exact H2].
Defined.

(** C7 as stated fails on records whose date does not parse: with the record
    dated [TBD] between them, the January record stays before the February
    one. *)
Lemma sortPostsByDate_unparseable_unsorted :
  ~ (forall (Date_getTime : jsstring -> option Z)
            (h : gmap positive (list BlogPost)) (posts : positive) (l : list BlogPost),
       h !! posts = Some l ->
       exists copy h' sorted,
         sortPostsByDate Date_getTime posts h = Some (copy, h')
         /\ h' !! copy = Some sorted
         /\ StronglySorted (date_ge Date_getTime) sorted
         /\ h' !! posts = Some l).
Proof.
  intros H.
  destruct (H iso_getTime {[ 1%positive := [post_jan; post_tbd; post_feb] ]} 1%positive
              [post_jan; post_tbd; post_feb] (lookup_singleton_eq _ _))
    as (copy & h' & sorted & H1 & H2 & H3 & _).
  rewrite (sortPostsByDate_eq _ _ _ _ (lookup_singleton_eq _ _)) in H1. injection H1 as <- <-.
  rewrite lookup_insert_eq in H2. injection H2 as <-.
  change (Array_sort (by_date_desc iso_getTime) [post_jan; post_tbd; post_feb])
    with [post_jan; post_tbd; post_feb] in H3.
  apply StronglySorted_inv in H3 as [_ H3].
  apply Forall_cons in H3 as [_ H3]. apply Forall_cons in H3 as [H3 _].
  specialize (H3 1704067200000 1706745600000 eq_refl eq_refl). lia.
Qed.

(** ** The accessors of the generated module *)

Lemma Array_includes_elem x l : Array_includes x l = true <-> x ∈ l.
Proof.
  unfold Array_includes. rewrite existsb_exists. split.
  - intros (y & Hy & E). apply bool_decide_eq_true in E. subst. by apply list_elem_of_In.
  - intros H. exists x. split; [by apply list_elem_of_In|by apply bool_decide_eq_true].
Qed.

Lemma filter_elem {A} (f : A -> bool) l x : x ∈ List.filter f l <-> x ∈ l /\ f x = true.
Proof. rewrite !list_elem_of_In. apply filter_In. Qed.

Lemma filter_sublist {A} (f : A -> bool) l : sublist (List.filter f l) l.
Proof.
  induction l as [|x l IH]; cbn; [constructor|].
  destruct (f x); by constructor.
Qed.

Lemma StronglySorted_sublist {A} (R : A -> A -> Prop) l1 l2 :
  sublist l1 l2 -> StronglySorted R l2 -> StronglySorted R l1.
Proof.
  intros Hs. induction Hs as [|x l1 l2 Hs IH|x l1 l2 Hs IH]; intros H.
  - constructor.
  - apply StronglySorted_inv in H as [H1 H2]. constructor; [auto|].
    rewrite Forall_forall in *. intros y Hy. apply H2.
    by apply (elem_of_sublist _ _ _ Hy Hs).
  - apply StronglySorted_inv in H as [H1 H2]. auto.
Qed.

Lemma getAllTags_elem blogPosts t :
  t ∈ getAllTags blogPosts <-> exists p, p ∈ blogPosts /\ t ∈ post_tags p.
Proof.
  unfold getAllTags. rewrite Array_sort_perm.
  destruct (all_tags_spec blogPosts []) as [_ H]. rewrite H.
  split; [intros [H0|H0]; [by apply elem_of_nil in H0|done]|by right].
Qed.

(** X1.  [getPostById] returns the first record of [blogPosts] whose id is the
    one asked for: the records before it have other ids.  It returns
    [undefined] exactly when no record has that id. *)
Theorem getPostById_first (blogPosts : list BlogPost) (id : jsstring) :
  match getPostById blogPosts id with
  | Some post =>
      exists before after,
        blogPosts = before ++ post :: after
        /\ post_id post = id
        /\ Forall (fun p => post_id p <> id) before
  | None => Forall (fun p => post_id p <> id) blogPosts
  end.
Proof.
  unfold getPostById. induction blogPosts as [|p l IH]; cbn; [constructor|].
  case_bool_decide as E.
  - exists [], l. by split_and!.
  - destruct (List.find _ l) as [post|].
    + destruct IH as (before & after & -> & Hid & Hb).
      exists (p :: before), after. split_and!; [done|done|by constructor].
    + by constructor.
Qed.

(** X2.  [getPostsByTag] returns the records that carry the tag, in the order
    of [blogPosts], and it returns at least one record exactly for the tags
    that [getAllTags] lists. *)
Theorem getPostsByTag_spec (blogPosts : list BlogPost) (tag : jsstring) :
  (forall p, p ∈ getPostsByTag blogPosts tag <-> p ∈ blogPosts /\ tag ∈ post_tags p)
  /\ sublist (getPostsByTag blogPosts tag) blogPosts
  /\ (getPostsByTag blogPosts tag <> [] <-> tag ∈ getAllTags blogPosts).
Proof.
  assert (Hm : forall p, p ∈ getPostsByTag blogPosts tag
                         <-> p ∈ blogPosts /\ tag ∈ post_tags p).
  { intros p. unfold getPostsByTag. rewrite filter_elem.
    by rewrite Array_includes_elem. }
  split_and!; [exact Hm|apply filter_sublist|].
  rewrite getAllTags_elem. split.
  - intros Hne. destruct (getPostsByTag blogPosts tag) as [|p l]; [done|].
    exists p. apply (proj1 (Hm p)). by left.
  - intros (p & Hp) E. apply Hm in Hp. rewrite E in Hp. by apply elem_of_nil in Hp.
Qed.

(** X3.  The accessors keep the order of the generated collection: when
    [blogPosts] is in descending order of date, so are the results of
    [getFeaturedPosts] and [getPostsByTag]; [getFeaturedPosts] returns the
    records that are featured and no other. *)
Theorem accessors_keep_date_order
    (Date_getTime : jsstring -> option Z) (blogPosts : list BlogPost) (tag : jsstring) :
  StronglySorted (date_ge Date_getTime) blogPosts ->
  StronglySorted (date_ge Date_getTime) (getFeaturedPosts blogPosts)
  /\ StronglySorted (date_ge Date_getTime) (getPostsByTag blogPosts tag)
  /\ (forall p, p ∈ getFeaturedPosts blogPosts <-> p ∈ blogPosts /\ post_featured p = true).
Proof.
  intros H. split_and!.
  - eapply StronglySorted_sublist; [apply filter_sublist|done].
  - eapply StronglySorted_sublist; [apply filter_sublist|done].
  - intros p. apply filter_elem.
Qed.

Lemma accessors_keep_date_order_witness :
  StronglySorted (date_ge iso_getTime) [post_apr; post_mar; post_mar2]
  /\ StronglySorted (date_ge iso_getTime) (getFeaturedPosts [post_apr; post_mar; post_mar2])
  /\ StronglySorted (date_ge iso_getTime)
       (getPostsByTag [post_apr; post_mar; post_mar2] (str "race"))
  /\ (forall p, p ∈ getFeaturedPosts [post_apr; post_mar; post_mar2]
                <-> p ∈ [post_apr; post_mar; post_mar2] /\ post_featured p = true).
Proof.
  assert (Hs : StronglySorted (date_ge iso_getTime) [post_apr; post_mar; post_mar2]).
  { repeat constructor; intros ta tb Ha Hb; vm_compute in Ha, Hb;
      injection Ha as <-; injection Hb as <-; lia. }
  split; [exact Hs|].
  apply (accessors_keep_date_order iso_getTime [post_apr; post_mar; post_mar2]
           (str "race") Hs).
Defined.

(** ** Runs of the script *)

Lemma parseAll_length cwd path_join readFile matter files :
  (length (fst (parseAll cwd path_join readFile matter files)) <= length files)%nat.
Proof.
  induction files as [|file rest IH]; [done|].
  rewrite parseAll_cons. destruct (fst (parseMarkdownFile _ _ _)); cbn; lia.
Qed.

Lemma parseAll_origin cwd path_join readFile matter files p :
  p ∈ fst (parseAll cwd path_join readFile matter files) ->
  exists file,
    file ∈ files
    /\ fst (parseMarkdownFile readFile matter (path_join [blogPostsDir cwd path_join; file]))
       = Some p.
Proof.
  induction files as [|file rest IH]; [by intros ?%elem_of_nil|].
  rewrite parseAll_cons.
  destruct (fst (parseMarkdownFile _ _ _)) as [q|] eqn:E.
  - intros [->|H]%elem_of_cons.
    + exists file. split; [by left|done].
    + destruct (IH H) as (f & Hf & Hp). exists f. split; [by right|done].
  - intros H. destruct (IH H) as (f & Hf & Hp). exists f. split; [by right|done].
Qed.

Lemma syncFiles_outcome cwd path_join readFile writeFile matter getTime now json tmpl files :
  let posts := Array_sort (by_date_desc getTime)
                 (fst (parseAll cwd path_join readFile matter files)) in
  let content := generateBlogDataContent now json tmpl posts in
  let r := syncFiles cwd path_join readFile writeFile matter getTime now json tmpl files in
  match writeFile (outputPath cwd path_join) content with
  | Some _ =>
      exit_code r = 0
      /\ written r = Some (outputPath cwd path_join, content)
      /\ exists out hints,
           printed r
           = out ++ [(LOG, MsgUpdated); (LOG, MsgStats);
                     (LOG, MsgTotal (length posts));
                     (LOG, MsgFeatured (length (List.filter post_featured posts)));
                     (LOG, MsgTagCount (length (Set_of (flat_map post_tags posts))));
                     (LOG, MsgOutput (outputPath cwd path_join))] ++ hints
           /\ last (printed r) <> Some (ERROR, MsgSyncError)
  | None =>
      exit_code r = 1 /\ written r = None
      /\ exists out, printed r = out ++ [(ERROR, MsgSyncError)]
  end.
Proof.
  cbn zeta. unfold syncFiles.
  destruct (parseAll cwd path_join readFile matter files) as [posts out]. cbn [fst].
  destruct (writeFile _ _); cbn [exit_code written printed].
  - split_and!; [done|done|]. eexists _, _. split; [done|].
    rewrite !last_app. by destruct (Array_sort _ posts).
  - split_and!; [done|done|]. by eexists.
Qed.

Lemma Set_of_flat_map (blogPosts : list BlogPost) s :
  fold_left (fun s x => Set_add x s) (flat_map post_tags blogPosts) s
  = fold_left (fun tags post =>
                 fold_left (fun tags tag => Set_add tag tags) (post_tags post) tags)
              blogPosts s.
Proof.
  revert s. induction blogPosts as [|p l IH]; intros s; [done|].
  cbn [flat_map fold_left]. by rewrite fold_left_app, IH.
Qed.

Lemma getAllTags_length (blogPosts : list BlogPost) :
  length (getAllTags blogPosts) = length (Set_of (flat_map post_tags blogPosts)).
Proof.
  unfold getAllTags, Set_of. rewrite Set_of_flat_map.
  apply Permutation_length, Array_sort_perm.
Qed.

(** X4.  A run over a directory without Markdown files reads no file, writes
    the module for the empty collection, prints the notice and the statistics
    with three zeros, prints no git hint and ends with status 0. *)
Theorem syncBlog_empty_directory
    (cwd : jsstring) (path_join : list jsstring -> jsstring)
    (glob : jsstring -> jsstring -> option (list jsstring))
    (readFile : jsstring -> option jsstring)
    (writeFile : jsstring -> jsstring -> option unit)
    (matter : jsstring -> option (PostFrontMatter * jsstring))
    (Date_getTime : jsstring -> option Z) (now : jsstring)
    (JSON_stringify : list BlogPost -> jsstring)
    (template : jsstring -> jsstring -> jsstring) :
  glob (str "**/*.md") (blogPostsDir cwd path_join) = Some [] ->
  writeFile (outputPath cwd path_join)
    (generateBlogDataContent now JSON_stringify template []) = Some tt ->
  syncBlog cwd path_join glob readFile writeFile matter Date_getTime now
    JSON_stringify template
  = {| exit_code := 0;
       printed :=
         [(LOG, MsgStart); (LOG, MsgNoFiles);
          (LOG, MsgUpdated); (LOG, MsgStats); (LOG, MsgTotal 0);
          (LOG, MsgFeatured 0); (LOG, MsgTagCount 0);
          (LOG, MsgOutput (outputPath cwd path_join))];
       written :=
         Some (outputPath cwd path_join,
               generateBlogDataContent now JSON_stringify template []) |}.
Proof.
  intros Hg Hw. unfold syncBlog. rewrite Hg. unfold syncFiles. cbn [parseAll Array_sort].
  by rewrite Hw.
Qed.

Lemma syncBlog_empty_directory_witness :
  syncBlog (str "/site") join_slash (fun _ _ => Some []) (reads (str "raw")) write_ok
    (parses fm_run (str "body")) iso_getTime (str "2024-03-01T00:00:00.000Z")
    print_count paste
  = {| exit_code := 0;
       printed :=
         [(LOG, MsgStart); (LOG, MsgNoFiles);
          (LOG, MsgUpdated); (LOG, MsgStats); (LOG, MsgTotal 0);
          (LOG, MsgFeatured 0); (LOG, MsgTagCount 0);
          (LOG, MsgOutput (outputPath (str "/site") join_slash))];
       written :=
         Some (outputPath (str "/site") join_slash,
               generateBlogDataContent (str "2024-03-01T00:00:00.000Z") print_count paste
                 []) |}.
Proof.
  apply (syncBlog_empty_directory (str "/site") join_slash (fun _ _ => Some [])
           (reads (str "raw")) write_ok (parses fm_run (str "body")) iso_getTime
           (str "2024-03-01T00:00:00.000Z") print_count paste); reflexivity.
Defined.

(** X5.  The exit status of a run is 0 or 1.  It is 0 exactly when [glob]
    returned and the file was written, whatever the Markdown files contain;
    it is 1 exactly when nothing was written, and exactly then the last line
    printed is the error of the run. *)
Theorem syncBlog_exit_status
    (cwd : jsstring) (path_join : list jsstring -> jsstring)
    (glob : jsstring -> jsstring -> option (list jsstring))
    (readFile : jsstring -> option jsstring)
    (writeFile : jsstring -> jsstring -> option unit)
    (matter : jsstring -> option (PostFrontMatter * jsstring))
    (Date_getTime : jsstring -> option Z) (now : jsstring)
    (JSON_stringify : list BlogPost -> jsstring)
    (template : jsstring -> jsstring -> jsstring) :
  let r := syncBlog cwd path_join glob readFile writeFile matter Date_getTime now
             JSON_stringify template in
  (exit_code r = 0 \/ exit_code r = 1)
  /\ (exit_code r = 0 <->
      exists files content,
        glob (str "**/*.md") (blogPostsDir cwd path_join) = Some files
        /\ written r = Some (outputPath cwd path_join, content)
        /\ writeFile (outputPath cwd path_join) content = Some tt)
  /\ (exit_code r = 1 <-> written r = None)
  /\ (exit_code r = 1 <-> last (printed r) = Some (ERROR, MsgSyncError)).
Proof.
  cbn zeta. unfold syncBlog.
  destruct (glob _ _) as [files|] eqn:Hg.
  - pose proof (syncFiles_outcome cwd path_join readFile writeFile matter Date_getTime
                  now JSON_stringify template files) as H. cbn zeta in H.
    destruct (writeFile _ _) as [[]|] eqn:Hw.
    + destruct H as (He & Hwr & out & hints & Hp & Hl). rewrite He, Hwr.
      split_and!; [by left| |done|done].
      split; [|done]. intros _. by eexists _, _.
    + destruct H as (He & Hwr & out & Hp). rewrite He, Hwr, Hp.
      split_and!; [by right| |done|].
      * split; [done|]. intros (fs & c & _ & ? & _). done.
      * by rewrite last_app.
  - cbn. split_and!; [by right| |done|done].
    split; [done|]. intros (fs & c & ? & _). done.
Qed.

(** X6.  A file that cannot be read, or whose front matter cannot be parsed,
    gives no record and one line that tells it was skipped, and the run goes
    on: the records of the other files, the artifact and the exit status are
    those of the run without that file.  For a file that cannot be read the
    line is the [console.error] of [parseMarkdownFile]. *)
Theorem unreadable_file_skipped
    (cwd : jsstring) (path_join : list jsstring -> jsstring)
    (readFile : jsstring -> option jsstring)
    (writeFile : jsstring -> jsstring -> option unit)
    (matter : jsstring -> option (PostFrontMatter * jsstring))
    (Date_getTime : jsstring -> option Z) (now : jsstring)
    (JSON_stringify : list BlogPost -> jsstring)
    (template : jsstring -> jsstring -> jsstring)
    (before after : list jsstring) (file : jsstring) :
  readFile (path_join [blogPostsDir cwd path_join; file]) = None
  \/ (exists fileContent,
        readFile (path_join [blogPostsDir cwd path_join; file]) = Some fileContent
        /\ matter fileContent = None) ->
  fst (parseMarkdownFile readFile matter (path_join [blogPostsDir cwd path_join; file]))
  = None
  /\ (exists line,
        snd (parseMarkdownFile readFile matter
               (path_join [blogPostsDir cwd path_join; file])) = [line]
        /\ is_skip_line line = true)
  /\ (readFile (path_join [blogPostsDir cwd path_join; file]) = None ->
      parseMarkdownFile readFile matter (path_join [blogPostsDir cwd path_join; file])
      = (None, [(ERROR, MsgParseError (path_join [blogPostsDir cwd path_join; file]))]))
  /\ fst (parseAll cwd path_join readFile matter (before ++ file :: after))
     = fst (parseAll cwd path_join readFile matter before)
       ++ fst (parseAll cwd path_join readFile matter after)
  /\ written (syncFiles cwd path_join readFile writeFile matter Date_getTime now
                JSON_stringify template (before ++ file :: after))
     = written (syncFiles cwd path_join readFile writeFile matter Date_getTime now
                  JSON_stringify template (before ++ after))
  /\ exit_code (syncFiles cwd path_join readFile writeFile matter Date_getTime now
                  JSON_stringify template (before ++ file :: after))
     = exit_code (syncFiles cwd path_join readFile writeFile matter Date_getTime now
                    JSON_stringify template (before ++ after)).
Proof.
  intros H.
  assert (E : parseMarkdownFile readFile matter
                (path_join [blogPostsDir cwd path_join; file])
              = (None, [(ERROR, MsgParseError
                                  (path_join [blogPostsDir cwd path_join; file]))])).
  { unfold parseMarkdownFile. destruct H as [->|(fc & -> & ->)]; done. }
  assert (Hs : fst (parseAll cwd path_join readFile matter (before ++ file :: after))
               = fst (parseAll cwd path_join readFile matter (before ++ after))).
  { apply parseAll_skipped. by rewrite E. }
  rewrite E. cbn [fst snd].
  split; [done|]. split; [by eexists|]. split; [done|].
  split; [by rewrite Hs, parseAll_app|]. by apply syncFiles_posts.
Qed.

Lemma unreadable_file_skipped_witness :
  exists post_a post_c,
    fst (parseAll (str "/site") join_slash
           (reads_except (str "/site/blog-posts/b.md") (str "raw"))
           (parses fm_run (str "body"))
           ([str "a.md"] ++ str "b.md" :: [str "c.md"]))
    = [post_a; post_c]
    /\ post_id post_a = str "a" /\ post_id post_c = str "c".
Proof.
  destruct (unreadable_file_skipped (str "/site") join_slash
              (reads_except (str "/site/blog-posts/b.md") (str "raw")) write_ok
              (parses fm_run (str "body")) iso_getTime (str "2024-03-01T00:00:00.000Z")
              print_count paste [str "a.md"] [str "c.md"] (str "b.md")
              (or_introl eq_refl))
    as (_ & _ & _ & H & _).
  eexists _, _. split; [rewrite H; reflexivity|]. split; reflexivity.
Defined.

(** X7.  The collection a run writes holds the records assembled from the
    files, each of them once: it is a permutation of the records pushed by
    the loop, in descending order of date when the dates are parseable, it
    has at most one record per file, and each record comes from one of the
    files.  What is written is the module for that collection, at the output
    path. *)
Theorem syncFiles_artifact
    (cwd : jsstring) (path_join : list jsstring -> jsstring)
    (readFile : jsstring -> option jsstring)
    (writeFile : jsstring -> jsstring -> option unit)
    (matter : jsstring -> option (PostFrontMatter * jsstring))
    (Date_getTime : jsstring -> option Z) (now : jsstring)
    (JSON_stringify : list BlogPost -> jsstring)
    (template : jsstring -> jsstring -> jsstring)
    (files : list jsstring) :
  exists posts,
    posts ≡ₚ fst (parseAll cwd path_join readFile matter files)
    /\ (Forall (parseable Date_getTime) posts ->
        StronglySorted (date_ge Date_getTime) posts)
    /\ (length posts <= length files)%nat
    /\ (forall p, p ∈ posts ->
          exists file,
            file ∈ files
            /\ fst (parseMarkdownFile readFile matter
                      (path_join [blogPostsDir cwd path_join; file])) = Some p)
    /\ (forall path content,
          written (syncFiles cwd path_join readFile writeFile matter Date_getTime now
                     JSON_stringify template files) = Some (path, content) ->
          path = outputPath cwd path_join
          /\ content = generateBlogDataContent now JSON_stringify template posts
          /\ writeFile path content = Some tt).
Proof.
  exists (Array_sort (by_date_desc Date_getTime)
            (fst (parseAll cwd path_join readFile matter files))).
  pose proof (Array_sort_perm (by_date_desc Date_getTime)
                (fst (parseAll cwd path_join readFile matter files))) as Hp.
  split_and!.
  - exact Hp.
  - intros H. apply Array_sort_by_date_sorted. by rewrite <- Hp.
  - rewrite Hp. apply parseAll_length.
  - intros p H. rewrite Hp in H. by apply parseAll_origin in H.
  - intros path content.
    pose proof (syncFiles_outcome cwd path_join readFile writeFile matter Date_getTime
                  now JSON_stringify template files) as H. cbn zeta in H.
    destruct (writeFile _ _) as [[]|] eqn:Hw.
    + destruct H as (_ & -> & _). intros [= <- <-]. done.
    + destruct H as (_ & -> & _). done.
Qed.

Lemma parseAll_lines cwd path_join readFile matter files :
  Forall (fun line => match snd line with
                      | MsgProcessing _ | MsgParsed _ | MsgParseError _
                      | MsgMissingField _ => True
                      | _ => False
                      end)
         (snd (parseAll cwd path_join readFile matter files)).
Proof.
  induction files as [|file rest IH]; [constructor|].
  cbn [parseAll].
  destruct (parseMarkdownFile _ _ _) as [post out] eqn:E.
  assert (Ho : Forall (fun line => match snd line with
                      | MsgProcessing _ | MsgParsed _ | MsgParseError _
                      | MsgMissingField _ => True
                      | _ => False
                      end) out).
  { revert E. unfold parseMarkdownFile.
    destruct (readFile _); [|intros [= <- <-]; by repeat constructor].
    destruct (matter _) as [[fm c]|]; [|intros [= <- <-]; by repeat constructor].
    destruct (_ || _); intros [= <- <-]; by repeat constructor. }
  destruct (parseAll cwd path_join readFile matter rest) as [posts out'].
  cbn [snd] in IH.
  destruct post; cbn [snd]; constructor; try done; apply Forall_app; split; try done.
  by constructor.
Qed.

(** X8.  The statistics a successful run prints agree with the accessors of
    the module it wrote: the total is the number of records, the featured
    count is the number of records [getFeaturedPosts] returns and the tag
    count is the number of tags [getAllTags] returns. *)
Theorem syncFiles_statistics
    (cwd : jsstring) (path_join : list jsstring -> jsstring)
    (readFile : jsstring -> option jsstring)
    (writeFile : jsstring -> jsstring -> option unit)
    (matter : jsstring -> option (PostFrontMatter * jsstring))
    (Date_getTime : jsstring -> option Z) (now : jsstring)
    (JSON_stringify : list BlogPost -> jsstring)
    (template : jsstring -> jsstring -> jsstring)
    (files : list jsstring) (blogPosts : list BlogPost) :
  blogPosts = Array_sort (by_date_desc Date_getTime)
                (fst (parseAll cwd path_join readFile matter files)) ->
  writeFile (outputPath cwd path_join)
    (generateBlogDataContent now JSON_stringify template blogPosts) = Some tt ->
  forall n,
    ((LOG, MsgTotal n)
       ∈ printed (syncFiles cwd path_join readFile writeFile matter Date_getTime now
                    JSON_stringify template files) <-> n = length blogPosts)
    /\ ((LOG, MsgFeatured n)
          ∈ printed (syncFiles cwd path_join readFile writeFile matter Date_getTime now
                       JSON_stringify template files)
        <-> n = length (getFeaturedPosts blogPosts))
    /\ ((LOG, MsgTagCount n)
          ∈ printed (syncFiles cwd path_join readFile writeFile matter Date_getTime now
                       JSON_stringify template files)
        <-> n = length (getAllTags blogPosts)).
Proof.
  intros -> Hw n. rewrite getAllTags_length. unfold getFeaturedPosts.
  pose proof (parseAll_lines cwd path_join readFile matter files) as Hl.
  unfold syncFiles.
  destruct (parseAll cwd path_join readFile matter files) as [posts out].
  cbn [fst snd] in *. rewrite Hw. cbn [printed].
  set (sorted := Array_sort _ posts).
  rewrite Forall_forall in Hl.
  assert (Hout : forall m, (LOG, m) ∈ out ->
            match m with
            | MsgProcessing _ | MsgParsed _ | MsgParseError _ | MsgMissingField _ => True
            | _ => False
            end).
  { intros m Hm. apply (Hl _ Hm). }
  assert (Hh : forall m, (LOG, m) ∈ match sorted with
                           | [] => []
                           | _ :: _ => [(LOG, MsgDone); (LOG, MsgGitAdd);
                                        (LOG, MsgGitCommit); (LOG, MsgGitPush)]
                           end ->
               m = MsgDone \/ m = MsgGitAdd \/ m = MsgGitCommit \/ m = MsgGitPush).
  { intros m. destruct sorted; [by intros ?%elem_of_nil|].
    rewrite !elem_of_cons, elem_of_nil.
    intros [H|[H|[H|[H|[]]]]]; injection H as ->; auto. }
  split_and!.
  all: rewrite !elem_of_app, !elem_of_cons, elem_of_nil; split;
    [ intros [[H|[H|H]]|[[H|[H|[H|[H|[H|[H|H]]]]]]|H]];
      try (by destruct files);
      try (by apply Hout in H);
      try (by apply Hh in H; destruct H as [H|[H|[H|H]]]);
      try (by injection H as ->)
    | intros ->; right; left; auto 10 ].
Qed.

Lemma syncFiles_statistics_witness :
  (LOG, MsgTotal 1)
    ∈ printed (syncFiles (str "/site") join_slash (reads (str "raw")) write_ok
                 (parses fm_run (str "body")) iso_getTime
                 (str "2024-03-01T00:00:00.000Z") print_count paste [str "run.md"]).
Proof.
  apply (syncFiles_statistics (str "/site") join_slash (reads (str "raw")) write_ok
           (parses fm_run (str "body")) iso_getTime (str "2024-03-01T00:00:00.000Z")
           print_count paste [str "run.md"] _ eq_refl eq_refl 1%nat).
  reflexivity.
Defined.

Lemma truthy_Some x : truthy x = true -> exists s, x = Some s /\ s <> [].
Proof. destruct x as [[|c s]|]; [done| |done]. intros _. by eexists. Qed.

(** X10.  Whenever [parseMarkdownFile] returns a record, it printed nothing,
    the file was read and its front matter parsed, the title and the date of
    the record are those of the front matter and are not empty, the content
    is the body as parsed, the id is derived from the base name of the path,
    the reading time is that of the content and at least 1, the tags default
    to the empty list and [featured] is true only when the front matter says
    so.  The excerpt is empty only when the body has no text left after the
    Markdown is removed. *)
Theorem parseMarkdownFile_record_invariants
    (readFile : jsstring -> option jsstring)
    (matter : jsstring -> option (PostFrontMatter * jsstring))
    (filePath : jsstring) (post : BlogPost) (out : console) :
  parseMarkdownFile readFile matter filePath = (Some post, out) ->
  out = []
  /\ post_title post <> []
  /\ post_date post <> []
  /\ (post_excerpt post = [] -> trim (plainText (post_content post)) = [])
  /\ post_id post = generatePostId (basename filePath [])
  /\ post_readingTime post = calculateReadingTime (post_content post)
  /\ 1 <= post_readingTime post
  /\ exists fileContent frontMatter,
       readFile filePath = Some fileContent
       /\ matter fileContent = Some (frontMatter, post_content post)
       /\ fm_title frontMatter = Some (post_title post)
       /\ fm_date frontMatter = Some (post_date post)
       /\ post_tags post = default [] (fm_tags frontMatter)
       /\ (post_featured post = true <-> fm_featured frontMatter = Some true).
Proof.
  intros H.
  destruct (readFile filePath) as [fileContent|] eqn:Hr;
    [|unfold parseMarkdownFile in H; by rewrite Hr in H].
  destruct (matter fileContent) as [[fm content]|] eqn:Hm;
    [|unfold parseMarkdownFile in H; by rewrite Hr, Hm in H].
  destruct (parseMarkdownFile_inv readFile matter filePath fileContent fm content
              post out Hr Hm H) as [Ht Hd].
  rewrite (parseMarkdownFile_record readFile matter filePath fileContent fm content
             Hr Hm Ht Hd) in H.
  injection H as <- <-. cbn [post_title post_date post_excerpt post_content post_id
                             post_readingTime post_tags post_featured].
  destruct (truthy_Some _ Ht) as (t & Et & Hne). destruct (truthy_Some _ Hd) as (d & Ed & Hnd).
  rewrite Et, Ed. cbn [default].
  split_and!; try done.
  - destruct (fm_excerpt fm) as [[|c e]|]; cbn [truthy or_str]; try done.
    all: unfold auto_excerpt; case_decide; try done.
    all: intros E; apply (f_equal length) in E; rewrite length_app in E; cbn in E; lia.
  - rewrite calculateReadingTime_eq. lia.
  - exists fileContent, fm. split_and!; try done.
    by destruct (fm_featured fm) as [[]|].
Qed.

Lemma parseMarkdownFile_record_invariants_witness :
  exists post,
    parseMarkdownFile (reads (str "raw")) (parses fm_run (str "body"))
      (str "blog-posts/run.md") = (Some post, [])
    /\ post_title post <> [] /\ post_date post <> [] /\ 1 <= post_readingTime post.
Proof.
  eexists. split; [reflexivity|].
  destruct (parseMarkdownFile_record_invariants (reads (str "raw"))
              (parses fm_run (str "body")) (str "blog-posts/run.md") _ [] eq_refl)
    as (_ & H1 & H2 & _ & _ & _ & H3 & _).
  exact (conj H1 (conj H2 H3)).
Defined.

(** ** The matcher only moves forward *)

Lemma advances_refl st : advances st st.
Proof.
  exists 0%nat, []. split_and!; [lia|lia|done|by rewrite app_nil_r|constructor].
Qed.

Lemma advances_trans st1 st2 st3 : advances st1 st2 -> advances st2 st3 -> advances st1 st3.
Proof.
  intros (n & new & Hp & Hn & Hr & Hc & Hf) (n' & new' & Hp' & Hn' & Hr' & Hc' & Hf').
  exists (n + n')%nat, (new ++ new'). rewrite Hr in Hn', Hr'. rewrite length_drop in Hn'.
  split_and!; [lia|lia| | |].
  - by rewrite Hr', drop_drop.
  - by rewrite Hc', Hc, app_assoc.
  - apply Forall_app. split; eapply Forall_impl; try done; cbn; intros; lia.
Qed.

Lemma advances_step pos c t caps : advances (MState pos (c :: t) caps) (MState (S pos) t caps).
Proof.
  exists 1%nat, []. cbn. split_and!; [lia|lia|done|by rewrite app_nil_r|constructor].
Qed.

Lemma rep_match_adv lazy p lo hi s pos caps k res :
  rep_match lazy p lo hi s pos caps k = Some res ->
  exists st', advances (MState pos s caps) st' /\ k st' = Some res.
Proof.
  revert lo hi pos. induction s as [|c t IH]; intros lo hi pos; cbn [rep_match].
  - destruct lo; [|done]. intros H. eexists. split; [apply advances_refl|done].
  - assert (Hrec : forall lo' hi',
              rep_match lazy p lo' hi' t (S pos) caps k = Some res ->
              exists st', advances (MState pos (c :: t) caps) st' /\ k st' = Some res).
    { intros lo' hi' H. destruct (IH _ _ _ H) as (st' & Ha & Hk).
      exists st'. split; [|done]. eapply advances_trans; [apply advances_step|done]. }
    assert (Hhere : k (MState pos (c :: t) caps) = Some res ->
              exists st', advances (MState pos (c :: t) caps) st' /\ k st' = Some res).
    { intros H. eexists. split; [apply advances_refl|done]. }
    destruct (hi_allows hi && p c).
    + destruct lo; [|by apply Hrec].
      destruct lazy; unfold or_else.
      * destruct (k (MState pos (c :: t) caps)) eqn:E; [|by apply Hrec].
        intros [= ->]. by apply Hhere.
      * destruct (rep_match false p 0 (hi_pred hi) t (S pos) caps k) eqn:E; [|done].
        intros [= ->]. by apply (Hrec _ _ E).
    + destruct lo; [done|done].
Qed.

Lemma rmatch_adv r st k res :
  rmatch r st k = Some res -> exists st', advances st st' /\ k st' = Some res.
Proof.
  revert st k. induction r as [p|lazy lo hi p|r1 IH1 r2 IH2|r1 IH1 r2 IH2|r IH| |];
    intros [pos rest caps] k; cbn [rmatch ms_pos ms_rest ms_caps].
  - destruct rest as [|c t]; [done|]. destruct (p c); [|done].
    intros H. eexists. split; [apply advances_step|done].
  - apply rep_match_adv.
  - intros H. destruct (IH1 _ _ H) as (st1 & Ha1 & H1).
    destruct (IH2 _ _ H1) as (st2 & Ha2 & H2).
    exists st2. split; [by eapply advances_trans|done].
  - unfold or_else. destruct (rmatch r1 _ k) eqn:E; [|apply IH2].
    intros [= ->]. by apply (IH1 _ _ E).
  - intros H. destruct (IH _ _ H) as (st1 & Ha & H1). eexists. split; [|exact H1].
    destruct Ha as (n & new & Hp & Hn & Hr & Hc & Hf). cbn in *.
    exists n, (new ++ [take (ms_pos st1 - pos) rest]). cbn.
    split_and!; [done|done|done|by rewrite Hc, app_assoc|].
    apply Forall_app. split; [done|]. constructor; [|constructor].
    rewrite length_take. lia.
  - destruct pos; [|done]. intros H. eexists. split; [apply advances_refl|done].
  - destruct rest; [|done]. intros H. eexists. split; [apply advances_refl|done].
Qed.

Lemma exec_bounds r pos s len caps :
  exec r pos s = Some (len, caps) ->
  (len <= length s)%nat /\ Forall (fun c => (length c <= len)%nat) caps.
Proof.
  unfold exec. destruct (rmatch r _ Some) as [st|] eqn:E; [|done].
  intros [= <- <-]. destruct (rmatch_adv _ _ _ _ E) as (st' & Ha & [= ->]).
  destruct Ha as (n & new & Hp & Hn & Hr & Hc & Hf). cbn in *.
  rewrite Hp, Hc. replace (pos + n - pos)%nat with n by lia. done.
Qed.

Lemma expand_group_length n caps len :
  Forall (fun c => (length c <= len)%nat) caps -> (length (expand [RGroup n] caps) <= len)%nat.
Proof.
  intros H. unfold expand. cbn [flat_map]. rewrite app_nil_r.
  destruct (nth_in_or_default (Nat.pred n) caps []) as [Hin|E].
  - rewrite Forall_forall in H. exact (H _ (proj2 (list_elem_of_In _ _) Hin)).
  - apply Nat.le_trans with 0%nat; [|lia]. apply Nat.eq_le_incl. exact (f_equal length E).
Qed.

Lemma replace_from_length r tmpl :
  (forall pos s len caps,
     exec r pos s = Some (len, caps) -> (length (expand tmpl caps) <= len)%nat) ->
  forall s pos skip,
    (length (replace_from r tmpl pos skip s) + Nat.min skip (length s) <= length s)%nat.
Proof.
  intros Ht. induction s as [|c t IH]; intros pos skip; cbn [replace_from].
  - destruct skip; [|cbn; lia].
    destruct (exec r pos []) as [[len caps]|] eqn:E; [|cbn; lia].
    pose proof (Ht _ _ _ _ E). destruct (exec_bounds _ _ _ _ _ E) as [Hl _]. cbn in *. lia.
  - destruct skip as [|n].
    + destruct (exec r pos (c :: t)) as [[[|n] caps]|] eqn:E.
      * pose proof (Ht _ _ _ _ E). pose proof (IH (S pos) 0%nat).
        rewrite length_app. cbn in *. lia.
      * pose proof (Ht _ _ _ _ E). destruct (exec_bounds _ _ _ _ _ E) as [Hl _].
        pose proof (IH (S pos) n). rewrite length_app. cbn in *. lia.
      * pose proof (IH (S pos) 0%nat). cbn in *. lia.
    + pose proof (IH (S pos) n). cbn in *. lia.
Qed.

Lemma replace_delete_length r s : (length (replace r [] s) <= length s)%nat.
Proof.
  pose proof (replace_from_length r [] (fun _ _ _ _ _ => Nat.le_0_l _) s 0%nat 0%nat).
  unfold replace. lia.
Qed.

Lemma replace_group_length r n s : (length (replace r [RGroup n] s) <= length s)%nat.
Proof.
  assert (H : forall pos s len caps,
            exec r pos s = Some (len, caps) ->
            (length (expand [RGroup n] caps) <= len)%nat).
  { intros pos s' len caps E. apply expand_group_length. by apply exec_bounds in E as [_ ?]. }
  pose proof (replace_from_length r [RGroup n] H s 0%nat 0%nat).
  unfold replace. lia.
Qed.

Lemma plainText_newline content :
  plainText content
  = map newline_to_space
      (replace re_emphasis [RGroup 1]
        (replace re_heading []
          (replace re_link []
            (replace re_image []
              (replace re_inline_code []
                (replace re_code_block [] content)))))).
Proof. unfold plainText, re_newline, chr. by rewrite replace_cls_subst. Qed.

Lemma plainText_length content : (length (plainText content) <= length content)%nat.
Proof.
  rewrite plainText_newline, length_map.
  etrans; [apply replace_group_length|].
  do 5 (etrans; [apply replace_delete_length|]). done.
Qed.

Lemma plainText_no_newline content : Forall (fun c => c <> Chr.newline) (plainText content).
Proof.
  rewrite plainText_newline. apply Forall_forall. intros c Hc.
  apply list_elem_of_In, in_map_iff in Hc as (x & <- & _).
  unfold newline_to_space. destruct (Z.eqb_spec x Chr.newline); [done|done].
Qed.

(** ** [trim] *)

Lemma trimStart_split s :
  exists pre, s = pre ++ trimStart s /\ forallb is_space pre = true.
Proof.
  induction s as [|c t (pre & E & Hp)]; [by exists []|]. cbn [trimStart].
  destruct (is_space c) eqn:Hc.
  - exists (c :: pre). cbn. rewrite Hc, Hp. by rewrite <- E.
  - by exists [].
Qed.

Lemma trimStart_head s c t : trimStart s = c :: t -> is_space c = false.
Proof.
  induction s as [|x s IH]; [done|]. cbn [trimStart].
  destruct (is_space x) eqn:Hx; [done|]. by intros [= <- <-].
Qed.

Lemma trim_split s :
  exists pre post, s = pre ++ trim s ++ post.
Proof.
  destruct (trimStart_split s) as (pre & E & _).
  destruct (trimStart_split (rev (trimStart s))) as (post & E' & _).
  exists pre, (rev post). unfold trim.
  rewrite <- rev_app_distr, <- E', rev_involutive. done.
Qed.

Lemma trim_head s c t : trim s = c :: t -> is_space c = false.
Proof.
  unfold trim. intros H.
  destruct (trimStart_split (rev (trimStart s))) as (post & E' & _).
  apply (f_equal (@rev Z)) in E'. rewrite rev_involutive, rev_app_distr, H in E'.
  by apply trimStart_head in E'.
Qed.

Lemma trim_last s c : last (trim s) = Some c -> is_space c = false.
Proof.
  unfold trim.
  destruct (trimStart (rev (trimStart s))) as [|x t] eqn:E; [done|].
  cbn [rev]. rewrite last_snoc. intros [= ->]. by apply trimStart_head in E.
Qed.

Lemma trim_Forall (Q : Z -> Prop) s : Forall Q s -> Forall Q (trim s).
Proof.
  destruct (trim_split s) as (pre & post & E). intros H. rewrite E in H.
  by apply Forall_app in H as [_ [H _]%Forall_app].
Qed.

Lemma auto_excerpt_bounds content :
  (length (auto_excerpt content) <= 153)%nat
  /\ Forall (fun c => c <> Chr.newline) (auto_excerpt content)
  /\ (forall c t, auto_excerpt content = c :: t -> is_space c = false)
  /\ (auto_excerpt content = [] <-> trim (plainText content) = []).
Proof.
  unfold auto_excerpt.
  pose proof (trim_Forall _ _ (plainText_no_newline content)) as Hn.
  pose proof (trim_head (plainText content)) as Hh.
  destruct (trim (plainText content)) as [|x plain] eqn:E.
  { case_decide; [|cbn in *; lia]. split_and!; [cbn; lia|done|done|done]. }
  case_decide as Hl.
  - split_and!; [clear -Hl; lia|done|done|done].
  - split_and!.
    + rewrite length_app, length_take. change (length ellipsis) with 3%nat. clear. lia.
    + apply Forall_app. split; [by apply Forall_take|]. by repeat constructor.
    + cbn. intros c t [= <- _]. by eapply Hh.
    + done.
Qed.

(** ** Counts against the length *)

Lemma tokens_aux_length cur s :
  (length (tokens_aux cur s) <= length s + match cur with [] => 0 | _ :: _ => 1 end)%nat.
Proof.
  revert cur. induction s as [|c t IH]; intros cur; cbn [tokens_aux].
  - destruct cur; cbn; lia.
  - destruct (is_space c).
    + destruct cur; [pose proof (IH []); cbn in *; lia|].
      pose proof (IH []). cbn in *. lia.
    + pose proof (IH (c :: cur)). destruct cur; cbn in *; lia.
Qed.

Lemma filter_lengths {A} (p : A -> bool) l :
  (length (List.filter p l) + length (List.filter (fun x => negb (p x)) l))%nat = length l.
Proof. induction l as [|x l IH]; [done|]. cbn. destruct (p x); cbn; lia. Qed.

Lemma counts_length plain : 0 <= cjkCount plain /\ 0 <= wordCount plain
  /\ cjkCount plain + wordCount plain <= slen plain.
Proof.
  unfold cjkCount, wordCount, slen.
  pose proof (filter_lengths is_cjk plain) as H.
  pose proof (tokens_aux_length [] (List.filter (cnot is_cjk) plain)) as H'.
  unfold tokens. unfold cnot in *. cbn in H'. lia.
Qed.

(** ** Names that are already ids *)

Lemma collapse_fixed s : forall b,
  single_hyphens s = true ->
  (b = true -> head s <> Some Chr.hyphen) ->
  collapse b s = s.
Proof.
  induction s as [|c t IH]; intros b Hs Hb; [done|].
  apply single_hyphens_cons in Hs as [Ht Hh]. cbn [collapse].
  destruct (is_hyphen c) eqn:Hc.
  - apply is_hyphen_eq in Hc as ->. destruct b.
    + by destruct (Hb eq_refl).
    + f_equal. apply IH; [done|]. intros _. by apply Hh.
  - f_equal. by apply IH.
Qed.

Lemma drop_last_fixed s :
  match last s with Some c => is_hyphen c = false | None => True end ->
  drop_last_hyphen s = s.
Proof.
  induction s as [|c t IH]; [done|]. cbn [drop_last_hyphen].
  destruct t as [|c' t']; [cbn; by intros ->|].
  rewrite last_cons. intros H. f_equal. apply IH.
  by destruct (last (c' :: t')).
Qed.

Lemma trim_hyphens_fixed s :
  match head s with Some c => is_hyphen c = false | None => True end ->
  match last s with Some c => is_hyphen c = false | None => True end ->
  trim_hyphens s = s.
Proof.
  destruct s as [|c t]; [done|]. cbn [head trim_hyphens]. intros -> Hl. f_equal.
  apply drop_last_fixed. rewrite last_cons in Hl. by destruct (last t).
Qed.

Lemma is_slug_inv s :
  is_slug s = true ->
  forallb (cor slug_keep is_hyphen) s = true
  /\ single_hyphens s = true
  /\ match head s with Some c => is_hyphen c = false | None => True end
  /\ match last s with Some c => is_hyphen c = false | None => True end.
Proof.
  unfold is_slug. intros [[[H1 H2]%andb_prop H3]%andb_prop H4]%andb_prop.
  split_and!; [done|done| |].
  - destruct (head s); [by apply negb_true_iff|done].
  - destruct (last s); [by apply negb_true_iff|done].
Qed.

Lemma slug_map_fixed s :
  forallb (cor slug_keep is_hyphen) s = true ->
  map (fun c => if cnot slug_keep c then Chr.hyphen else c) s = s.
Proof.
  induction s as [|c t IH]; [done|]. cbn [forallb map].
  intros [Hc Ht]%andb_prop. rewrite (IH Ht). f_equal.
  unfold cnot. destruct (slug_keep c) eqn:E; [done|]. cbn.
  unfold cor in Hc. rewrite E in Hc. symmetry. by apply is_hyphen_eq.
Qed.

Lemma slugify_fixed s : is_slug s = true -> slugify s = s.
Proof.
  intros (H1 & H2 & H3 & H4)%is_slug_inv.
  rewrite slugify_eq, slug_map_fixed by done.
  rewrite collapse_fixed by done. by apply trim_hyphens_fixed.
Qed.

Lemma Forall_slug_char s :
  Forall slug_char s -> forallb (cor slug_keep is_hyphen) s = true.
Proof.
  induction 1 as [|c t Hc _ IH]; [done|]. cbn [forallb]. rewrite IH, andb_true_r.
  unfold cor. destruct Hc as [->| ->]; [done|]. by rewrite orb_true_r.
Qed.

Lemma slugify_is_slug name : is_slug (slugify name) = true.
Proof.
  destruct (slugify_shape name) as (Hf & Hh & Hl & _).
  assert (Hs : single_hyphens (slugify name) = true).
  { rewrite slugify_eq. apply trim_hyphens_shape, collapse_single. }
  unfold is_slug. rewrite (Forall_slug_char _ Hf), Hs. cbn [andb].
  unfold no_leading_hyphen, no_trailing_hyphen in *.
  apply andb_true_intro. split.
  - destruct (head (slugify name)) as [c|]; [|done]. apply negb_true_iff.
    destruct (is_hyphen c) eqn:E; [|done]. apply is_hyphen_eq in E. by subst.
  - destruct (last (slugify name)) as [c|]; [|done]. apply negb_true_iff.
    destruct (is_hyphen c) eqn:E; [|done]. apply is_hyphen_eq in E. by subst.
Qed.

Lemma toLowerCase_slug s :
  forallb (cor slug_keep is_hyphen) s = true -> toLowerCase s = s.
Proof.
  unfold toLowerCase. induction s as [|c t IH]; [done|]. cbn [forallb map].
  intros [Hc Ht]%andb_prop. rewrite (IH Ht). f_equal.
  destruct (in_range 65 90 c) eqn:E; [|done]. exfalso. revert Hc E.
  unfold cor, slug_keep, cor, is_lower, is_digit, is_cjk, is_hyphen, is_char, in_range,
    Chr.hyphen. lia.
Qed.

(** ** [path.basename] on a file name *)

Lemma not_slash_eqb c : cnot (is_char Chr.slash) c = true -> (c =? Chr.slash) = false.
Proof. unfold cnot, is_char. apply negb_true_iff. Qed.

Lemma bn_step_suffix_idle suffix st i c :
  (c =? Chr.slash) = false ->
  bn_extIdx st = -1 -> bn_firstNonSlashEnd st <> -1 ->
  bn_step_suffix suffix st i c = st.
Proof.
  intros Hc He Hf. unfold bn_step_suffix. rewrite Hc.
  apply Z.eqb_neq in Hf. rewrite Hf, He. done.
Qed.

Lemma bn_step_plain_idle st i c :
  (c =? Chr.slash) = false -> bn_end st <> -1 -> bn_step_plain st i c = st.
Proof.
  intros Hc He. unfold bn_step_plain. rewrite Hc.
  apply Z.eqb_neq in He. by rewrite He.
Qed.

Lemma bn_loop_suffix_idle suffix r : forall i st,
  no_slash r = true ->
  bn_extIdx st = -1 -> bn_firstNonSlashEnd st <> -1 -> bn_break st = false ->
  bn_loop (bn_step_suffix suffix) r i st = st.
Proof.
  induction r as [|c t IH]; intros i st Hr He Hf Hb; [done|].
  cbn [no_slash forallb] in Hr. apply andb_prop in Hr as [Hc%not_slash_eqb Ht].
  cbn [bn_loop]. rewrite bn_step_suffix_idle, Hb by done. by apply IH.
Qed.

Lemma bn_loop_plain_idle r : forall i st,
  no_slash r = true ->
  bn_end st <> -1 -> bn_break st = false ->
  bn_loop bn_step_plain r i st = st.
Proof.
  induction r as [|c t IH]; intros i st Hr He Hb; [done|].
  cbn [no_slash forallb] in Hr. apply andb_prop in Hr as [Hc%not_slash_eqb Ht].
  cbn [bn_loop]. rewrite bn_step_plain_idle, Hb by done. by apply IH.
Qed.

Lemma bn_loop_cons step c r i st :
  bn_loop step (c :: r) i st
  = if bn_break (step st i c) then step st i c else bn_loop step r (i - 1) (step st i c).
Proof. done. Qed.

Lemma bn_step_md x F k j c :
  (c =? Chr.slash) = false -> F <> -1 -> (k = 0 \/ k = 1 \/ k = 2) ->
  bn_step_suffix (str ".md") (BnState 0 (-1) x k (if x then -1 else F) false) j c
  = if c =? nth (Z.to_nat k) [46; 109; 100] 0
    then BnState 0 (if k =? 0 then j else -1) (if x then false else x) (k - 1)
                 (if x then j + 1 else F) false
    else BnState 0 (if x then j + 1 else F) (if x then false else x) (-1)
                 (if x then j + 1 else F) false.
Proof.
  intros Hc HF Hk. unfold bn_step_suffix.
  cbn [bn_start bn_end bn_matchedSlash bn_extIdx bn_firstNonSlashEnd bn_break].
  rewrite Hc. apply Z.eqb_neq in HF.
  destruct x; [|rewrite HF];
    cbn [bn_start bn_end bn_matchedSlash bn_extIdx bn_firstNonSlashEnd bn_break Z.eqb];
    destruct Hk as [->|[->| ->]]; cbn; by destruct (c =? _).
Qed.

Lemma bn_step_md2 j c :
  (c =? Chr.slash) = false ->
  bn_step_suffix (str ".md") (BnState 0 (-1) true 2 (-1) false) j c
  = if c =? 100 then BnState 0 (-1) false 1 (j + 1) false
    else BnState 0 (j + 1) false (-1) (j + 1) false.
Proof.
  intros Hc. exact (bn_step_md true 0 2 j c Hc ltac:(done) ltac:(auto)).
Qed.

Lemma bn_step_md1 F j c :
  (c =? Chr.slash) = false -> F <> -1 ->
  bn_step_suffix (str ".md") (BnState 0 (-1) false 1 F false) j c
  = if c =? 109 then BnState 0 (-1) false 0 F false
    else BnState 0 F false (-1) F false.
Proof.
  intros Hc HF. exact (bn_step_md false F 1 j c Hc HF ltac:(auto)).
Qed.

Lemma bn_step_md0 F j c :
  (c =? Chr.slash) = false -> F <> -1 ->
  bn_step_suffix (str ".md") (BnState 0 (-1) false 0 F false) j c
  = if c =? 46 then BnState 0 j false (-1) F false
    else BnState 0 F false (-1) F false.
Proof.
  intros Hc HF. exact (bn_step_md false F 0 j c Hc HF ltac:(auto)).
Qed.

(** The loop of [basename(name, '.md')] on a name of three code units or
    more, read from its end. *)
Lemma bn_loop_md a b c r i :
  0 <= i ->
  no_slash (a :: b :: c :: r) = true ->
  bn_loop (bn_step_suffix (str ".md")) (a :: b :: c :: r) i
          (BnState 0 (-1) true 2 (-1) false)
  = if (a =? 100) && (b =? 109) && (c =? 46)
    then BnState 0 (i - 1 - 1) false (-1) (i + 1) false
    else BnState 0 (i + 1) false (-1) (i + 1) false.
Proof.
  intros H0 H. cbn [no_slash forallb] in H.
  apply andb_prop in H as [Ha%not_slash_eqb H].
  apply andb_prop in H as [Hb%not_slash_eqb H].
  apply andb_prop in H as [Hc%not_slash_eqb Hr].
  assert (Hne : i + 1 <> -1) by lia.
  rewrite bn_loop_cons, bn_step_md2 by done.
  destruct (a =? 100); cbn [andb bn_break].
  2:{ rewrite bn_loop_cons, bn_step_suffix_idle by done. cbn [bn_break].
      rewrite bn_loop_cons, bn_step_suffix_idle by done. cbn [bn_break].
      by apply bn_loop_suffix_idle. }
  rewrite bn_loop_cons, bn_step_md1 by done.
  destruct (b =? 109); cbn [andb bn_break].
  2:{ rewrite bn_loop_cons, bn_step_suffix_idle by done. cbn [bn_break].
      by apply bn_loop_suffix_idle. }
  rewrite bn_loop_cons, bn_step_md0 by done.
  destruct (c =? 46); cbn [andb bn_break]; by apply bn_loop_suffix_idle.
Qed.

Lemma slice_prefix (s : jsstring) (n : nat) :
  (n <= length s)%nat -> slice s 0 (Z.of_nat n) = take n s.
Proof.
  intros H. unfold slice, slen. cbn [Z.ltb Z.compare].
  destruct (Z.ltb_spec (Z.of_nat n) 0); [lia|].
  rewrite !Z.min_l by lia. cbn [Z.to_nat drop].
  f_equal. lia.
Qed.

Lemma endsWith_md_short s : (length s < 3)%nat -> endsWith s (str ".md") = false.
Proof.
  intros H. unfold endsWith.
  assert (Hr : (length (rev s) < 3)%nat) by by rewrite length_rev.
  destruct (rev s) as [|a [|b [|c r]]]; cbn in *; [done| | |lia].
  - by rewrite andb_false_r.
  - by rewrite !andb_false_r.
Qed.

Lemma bn_step_plain_first i c :
  (c =? Chr.slash) = false ->
  bn_step_plain (BnState 0 (-1) true (-1) (-1) false) i c
  = BnState 0 (i + 1) false (-1) (-1) false.
Proof. intros Hc. unfold bn_step_plain. by rewrite Hc. Qed.

(** [basename(name, '.md')] on a name without a slash. *)
Lemma basename_md name :
  no_slash name = true ->
  basename name (str ".md")
  = if endsWith name (str ".md") then take (length name - 3) name else name.
Proof.
  intros Hn. unfold basename.
  change (slen (str ".md")) with 3. cbn [Z.ltb Z.compare andb].
  destruct (Z.leb_spec 3 (slen name)) as [Hl|Hl].
  - case_bool_decide as E.
    { subst name. done. }
    assert (Hr : no_slash (rev name) = true).
    { unfold no_slash in *. rewrite forallb_forall in *. intros x Hx. apply Hn.
      by apply in_rev. }
    assert (Hlr : length (rev name) = length name) by apply length_rev.
    unfold endsWith. unfold slen in *.
    destruct (rev name) as [|a [|b [|c r]]] eqn:Er; cbn [length] in Hlr; [lia|lia|lia|].
    change (3 - 1) with 2.
    rewrite bn_loop_md by (first [lia|done]).
    change (rev (str ".md")) with [100; 109; 46]. cbn [startsWith].
    rewrite andb_true_r, andb_assoc.
    destruct ((a =? 100) && (b =? 109) && (c =? 46)) eqn:Em;
      cbn [bn_start bn_end bn_firstNonSlashEnd].
    + destruct (Z.eqb_spec 0 (Z.of_nat (length name) - 1 - 1 - 1)) as [E0|E0].
      * exfalso. apply E. 
        apply andb_prop in Em as [[Ha%Z.eqb_eq Hb%Z.eqb_eq]%andb_prop Hc%Z.eqb_eq].
        subst. destruct r; [|cbn in Hlr; lia].
        apply (f_equal (@rev Z)) in Er. rewrite rev_involutive in Er. by subst.
      * destruct (Z.eqb_spec (Z.of_nat (length name) - 1 - 1 - 1) (-1)); [lia|].
        replace (Z.of_nat (length name) - 1 - 1 - 1) with (Z.of_nat (length name - 3)) by lia.
        apply slice_prefix. lia.
    + destruct (Z.eqb_spec 0 (Z.of_nat (length name) - 1 + 1)); [lia|].
      destruct (Z.eqb_spec (Z.of_nat (length name) - 1 + 1) (-1)); [lia|].
      replace (Z.of_nat (length name) - 1 + 1) with (Z.of_nat (length name)) by lia.
      rewrite slice_prefix by lia. by rewrite firstn_all.
  - rewrite endsWith_md_short by (unfold slen in Hl; lia).
    assert (Hr : no_slash (rev name) = true).
    { unfold no_slash in *. rewrite forallb_forall in *. intros x Hx. apply Hn.
      by apply in_rev. }
    destruct (rev name) as [|a r] eqn:Er.
    { apply (f_equal (@rev Z)) in Er. rewrite rev_involutive in Er. by subst. }
    cbn [no_slash forallb] in Hr. apply andb_prop in Hr as [Ha%not_slash_eqb Hr].
    rewrite bn_loop_cons, bn_step_plain_first by done. cbn [bn_break].
    rewrite bn_loop_plain_idle by (cbn; first [done|unfold slen; lia]).
    cbn [bn_end bn_start].
    destruct (Z.eqb_spec (slen name - 1 + 1) (-1)); [unfold slen in *; lia|].
    replace (slen name - 1 + 1) with (Z.of_nat (length name)) by (unfold slen; lia).
    rewrite slice_prefix by lia. by rewrite firstn_all.
Qed.

Lemma bn_step_plain_slash s e x f i :
  bn_step_plain (BnState s e false x f false) i Chr.slash = BnState (i + 1) e false x f true.
Proof. done. Qed.

Lemma bn_loop_plain_skip r rest : forall i st,
  no_slash r = true ->
  bn_end st <> -1 -> bn_break st = false ->
  bn_loop bn_step_plain (r ++ rest) i st
  = bn_loop bn_step_plain rest (i - Z.of_nat (length r)) st.
Proof.
  induction r as [|c t IH]; intros i st Hr He Hb.
  { cbn. f_equal. lia. }
  cbn [no_slash forallb] in Hr. apply andb_prop in Hr as [Hc%not_slash_eqb Ht].
  rewrite <- app_comm_cons, bn_loop_cons, bn_step_plain_idle, Hb by done.
  rewrite IH by done. f_equal. cbn [length]. lia.
Qed.

Lemma slice_suffix (s : jsstring) (n : nat) :
  (n <= length s)%nat -> slice s (Z.of_nat n) (slen s) = drop n s.
Proof.
  intros H. unfold slice, slen.
  destruct (Z.ltb_spec (Z.of_nat n) 0); [lia|].
  destruct (Z.ltb_spec (Z.of_nat (length s)) 0); [lia|].
  rewrite !Z.min_l by lia. rewrite Nat2Z.id.
  apply take_ge. rewrite length_drop. lia.
Qed.

Lemma no_slash_rev s : no_slash s = true -> no_slash (rev s) = true.
Proof.
  unfold no_slash. rewrite !forallb_forall. intros H x Hx. apply H. by apply in_rev.
Qed.

(** [basename(path)] is the part after the last slash. *)
Lemma basename_file_name dir name :
  name <> [] -> no_slash name = true ->
  basename (dir ++ Chr.slash :: name) [] = name /\ basename name [] = name.
Proof.
  intros Hne Hn. pose proof (no_slash_rev _ Hn) as Hr.
  assert (Hlr : length (rev name) = length name) by apply length_rev.
  destruct (rev name) as [|a r] eqn:Er.
  { apply (f_equal (@rev Z)) in Er. rewrite rev_involutive in Er. by subst. }
  cbn [no_slash forallb] in Hr. apply andb_prop in Hr as [Ha%not_slash_eqb Hr].
  cbn [length] in Hlr.
  unfold basename. change (slen []) with 0. cbn [Z.ltb Z.compare andb].
  split.
  - rewrite rev_app_distr. cbn [rev]. rewrite Er, <- !app_assoc, <- !app_comm_cons.
    set (L := slen (dir ++ Chr.slash :: name)).
    assert (HL : L = Z.of_nat (length dir + 1 + length name)).
    { unfold L, slen. rewrite length_app. cbn [length]. lia. }
    rewrite bn_loop_cons, bn_step_plain_first by done. cbn [bn_break].
    rewrite bn_loop_plain_skip by (cbn; first [done|lia]).
    rewrite bn_loop_cons, bn_step_plain_slash.
    cbn [bn_matchedSlash negb bn_break bn_end bn_start].
    destruct (Z.eqb_spec (L - 1 + 1) (-1)); [lia|].
    replace (L - 1 + 1) with L by lia.
    replace (L - 1 - 1 - Z.of_nat (length r) + 1) with (Z.of_nat (length dir + 1)) by lia.
    unfold L. rewrite slice_suffix by (rewrite length_app; cbn; lia).
    rewrite drop_app_ge by lia. replace (length dir + 1 - length dir)%nat with 1%nat by lia.
    done.
  - rewrite Er. rewrite bn_loop_cons, bn_step_plain_first by done. cbn [bn_break].
    rewrite bn_loop_plain_idle by (cbn; first [done|unfold slen; lia]).
    cbn [bn_end bn_start].
    destruct (Z.eqb_spec (slen name - 1 + 1) (-1)); [unfold slen in *; lia|].
    replace (slen name - 1 + 1) with (slen name) by lia.
    exact (slice_suffix name 0 ltac:(lia)).
Qed.

Lemma startsWith_app s t : startsWith (t ++ s) t = true.
Proof. induction t as [|y t IH]; [done|]. cbn. by rewrite Z.eqb_refl, IH. Qed.

Lemma startsWith_split s t : startsWith s t = true -> exists post, s = t ++ post.
Proof.
  revert s. induction t as [|y t IH]; intros s; [by exists s|].
  destruct s as [|x s]; [done|]. cbn.
  intros [->%Z.eqb_eq H]%andb_prop. destruct (IH _ H) as (post & ->). by exists post.
Qed.

Lemma endsWith_app s t : endsWith (s ++ t) t = true.
Proof. unfold endsWith. rewrite rev_app_distr. apply startsWith_app. Qed.

Lemma endsWith_split s t : endsWith s t = true -> exists pre, s = pre ++ t.
Proof.
  unfold endsWith. intros (post & E)%startsWith_split. exists (rev post).
  apply (f_equal (@rev Z)) in E. by rewrite rev_involutive, rev_app_distr, rev_involutive in E.
Qed.

Lemma slug_chars_no_slash s :
  forallb (cor slug_keep is_hyphen) s = true -> no_slash s = true.
Proof.
  unfold no_slash. rewrite !forallb_forall. intros H x Hx. specialize (H x Hx).
  revert H. unfold cor, slug_keep, cor, is_lower, is_digit, is_cjk, is_hyphen, is_char,
    in_range, cnot, Chr.hyphen, Chr.slash. lia.
Qed.

Lemma slug_chars_no_dot s :
  forallb (cor slug_keep is_hyphen) s = true -> ~ In Chr.dot s.
Proof.
  rewrite forallb_forall. intros H Hx. specialize (H _ Hx). done.
Qed.

Lemma generatePostId_slug s : is_slug s = true -> generatePostId s = s.
Proof.
  intros Hs. pose proof Hs as (H1 & _)%is_slug_inv. unfold generatePostId.
  rewrite basename_md by by apply slug_chars_no_slash.
  destruct (endsWith s (str ".md")) eqn:E.
  - apply endsWith_split in E as (pre & ->). exfalso.
    apply (slug_chars_no_dot _ H1). apply in_or_app. right. by left.
  - rewrite toLowerCase_slug by done. by apply slugify_fixed.
Qed.

(** ** Plain text, excerpts, reading time and ids *)

(** X12.  Removing the Markdown syntax never makes a text longer, and the
    plain text contains no line feed. *)
Theorem plainText_shrinks (content : jsstring) :
  (length (plainText content) <= length content)%nat
  /\ Forall (fun c => c <> Chr.newline) (plainText content).
Proof. split; [apply plainText_length|apply plainText_no_newline]. Qed.

(** X13.  A text without backtick, [[], [#], [*] and [_] is left as it is,
    except that each line feed becomes a space; its length is kept. *)
Theorem plainText_plain_prose (content : jsstring) :
  unmarked content ->
  plainText content = map newline_to_space content
  /\ length (plainText content) = length content.
Proof.
  intros H. rewrite (plainText_unmarked _ H). split; [done|apply length_map].
Qed.

Lemma plainText_plain_prose_witness :
  plainText (str "one two" ++ [Chr.newline] ++ str "three")
  = map newline_to_space (str "one two" ++ [Chr.newline] ++ str "three").
Proof.
  apply (plainText_plain_prose (str "one two" ++ [Chr.newline] ++ str "three")).
  unfold unmarked. rewrite Forall_forall. intros c Hc. apply list_elem_of_In in Hc.
  vm_compute in Hc. by repeat destruct Hc as [<-|Hc].
Defined.

(** X11.  An excerpt generated from the body has at most 153 code units,
    contains no line feed, does not start with white space, and is empty
    exactly when the trimmed plain text is empty. *)
Theorem generated_excerpt_shape
    (readFile : jsstring -> option jsstring)
    (matter : jsstring -> option (PostFrontMatter * jsstring))
    (filePath fileContent : jsstring) (fm : PostFrontMatter) (content : jsstring)
    (post : BlogPost) (out : console) :
  readFile filePath = Some fileContent ->
  matter fileContent = Some (fm, content) ->
  parseMarkdownFile readFile matter filePath = (Some post, out) ->
  truthy (fm_excerpt fm) = false ->
  (length (post_excerpt post) <= 153)%nat
  /\ Forall (fun c => c <> Chr.newline) (post_excerpt post)
  /\ (forall c rest, post_excerpt post = c :: rest -> is_space c = false)
  /\ (post_excerpt post = [] <-> trim (plainText content) = []).
Proof.
  intros Hr Hm Hp He.
  destruct (parseMarkdownFile_inv readFile matter filePath fileContent fm content
              post out Hr Hm Hp) as [Ht Hd].
  rewrite (parseMarkdownFile_record readFile matter filePath fileContent fm content
             Hr Hm Ht Hd) in Hp.
  injection Hp as <- <-. cbn [post_excerpt]. rewrite He. apply auto_excerpt_bounds.
Qed.

Lemma generated_excerpt_shape_witness :
  exists post,
    parseMarkdownFile (reads (str "raw")) (parses fm_run (str "  body text "))
      (str "blog-posts/run.md") = (Some post, [])
    /\ (length (post_excerpt post) <= 153)%nat.
Proof.
  eexists. split; [reflexivity|].
  apply (generated_excerpt_shape (reads (str "raw")) (parses fm_run (str "  body text "))
           (str "blog-posts/run.md") (str "raw") fm_run (str "  body text ") _ []
           eq_refl eq_refl eq_refl eq_refl).
Defined.

(** X14.  The reading time is bounded by the length of the content: for a
    content of fewer than 2^32 code units it is 1, or it is less than one
    minute above a 200th of the number of code units.  A content of at most
    200 code units reads in one minute. *)
Theorem readingTime_at_most_length (content : jsstring) :
  slen content < 2 ^ 32 ->
  calculateReadingTime content = 1
  \/ 200 * (calculateReadingTime content - 1) < slen content.
Proof.
  intros Hlen. rewrite calculateReadingTime_eq.
  destruct (counts_length (plainText content)) as (Hc & Hw & Hs).
  pose proof (plainText_length content) as Hp. unfold slen in *.
  rewrite minutes_exact by lia.
  pose proof (exact_minutes_spec (cjkCount (plainText content))
                (wordCount (plainText content))) as Hm.
  lia.
Qed.

Lemma readingTime_at_most_length_witness :
  calculateReadingTime (repeat 36305 201) = 1
  \/ 200 * (calculateReadingTime (repeat 36305 201) - 1) < slen (repeat 36305 201).
Proof.
  apply (readingTime_at_most_length (repeat 36305 201)). vm_compute. reflexivity.
Defined.

(** X15.  An id is its own id: [generatePostId] applied to one of its results
    returns it unchanged. *)
Theorem generatePostId_stable (filename : jsstring) :
  generatePostId (generatePostId filename) = generatePostId filename.
Proof. apply generatePostId_slug, slugify_is_slug. Qed.

(** X16.  Every well-formed id is the id of a file: for a non-empty string of
    lower-case letters, digits, ideographs of the range and single inner
    hyphens, the file of that name with the extension [.md] gets the string
    as its id. *)
Theorem generatePostId_of_slug (slug : jsstring) :
  is_slug slug = true -> slug <> [] ->
  generatePostId (slug ++ str ".md") = slug.
Proof.
  revert slug. intros s Hs Hne. pose proof Hs as (H1 & _)%is_slug_inv. unfold generatePostId.
  rewrite basename_md.
  - rewrite endsWith_app, length_app. change (length (str ".md")) with 3%nat.
    replace (length s + 3 - 3)%nat with (length s) by lia.
    rewrite take_app_length, toLowerCase_slug by done. by apply slugify_fixed.
  - unfold no_slash. rewrite forallb_app. apply andb_true_intro. split; [|done].
    by apply slug_chars_no_slash.
Qed.

Lemma generatePostId_of_slug_witness :
  generatePostId (str "2024-01-15-run" ++ str ".md") = str "2024-01-15-run".
Proof.
  apply (generatePostId_of_slug (str "2024-01-15-run")); [reflexivity|discriminate].
Defined.

(** X17.  [generatePostId] removes one final [.md] and nothing else of the
    name: for a name without a slash that does not end in [.md], the id of
    the name with the extension is the id of the name without it. *)
Theorem generatePostId_extension (name : jsstring) :
  no_slash name = true ->
  endsWith name (str ".md") = false ->
  generatePostId (name ++ str ".md") = generatePostId name.
Proof.
  intros Hn He. unfold generatePostId. rewrite !basename_md.
  - rewrite endsWith_app, He, length_app. change (length (str ".md")) with 3%nat.
    replace (length name + 3 - 3)%nat with (length name) by lia.
    by rewrite take_app_length.
  - done.
  - unfold no_slash in *. rewrite forallb_app. by rewrite Hn.
Qed.

Lemma generatePostId_extension_witness :
  generatePostId (str "My Run" ++ str ".md") = generatePostId (str "My Run").
Proof.
  apply (generatePostId_extension (str "My Run")); reflexivity.
Defined.

Lemma parseMarkdownFile_id readFile matter filePath post out :
  parseMarkdownFile readFile matter filePath = (Some post, out) ->
  post_id post = generatePostId (basename filePath []).
Proof.
  unfold parseMarkdownFile. destruct (readFile filePath); [|done].
  destruct (matter _) as [[fm content]|]; [|done].
  destruct (_ || _); [done|]. by intros [= <- <-].
Qed.

(** X18.  The id of a record depends on the file name only: two files of the
    same name in two directories give records with the same id, the id of
    that name. *)
Theorem post_id_ignores_directory
    (readFile : jsstring -> option jsstring)
    (matter : jsstring -> option (PostFrontMatter * jsstring))
    (dir1 dir2 name : jsstring) (post1 post2 : BlogPost) (out1 out2 : console) :
  name <> [] -> no_slash name = true ->
  parseMarkdownFile readFile matter (dir1 ++ Chr.slash :: name) = (Some post1, out1) ->
  parseMarkdownFile readFile matter (dir2 ++ Chr.slash :: name) = (Some post2, out2) ->
  post_id post1 = generatePostId name /\ post_id post2 = post_id post1.
Proof.
  intros Hne Hn H1 H2.
  apply parseMarkdownFile_id in H1 as E1. apply parseMarkdownFile_id in H2 as E2.
  rewrite E1, E2.
  destruct (basename_file_name dir1 name Hne Hn) as [-> _].
  by destruct (basename_file_name dir2 name Hne Hn) as [-> _].
Qed.

Lemma post_id_ignores_directory_witness :
  exists post1 post2,
    parseMarkdownFile (reads (str "raw")) (parses fm_run (str "body"))
      (str "blog-posts/2023" ++ Chr.slash :: str "run.md") = (Some post1, [])
    /\ parseMarkdownFile (reads (str "raw")) (parses fm_run (str "body"))
         (str "blog-posts/2024" ++ Chr.slash :: str "run.md") = (Some post2, [])
    /\ post_id post1 = generatePostId (str "run.md") /\ post_id post2 = post_id post1.
Proof.
  eexists _, _. split; [reflexivity|]. split; [reflexivity|].
  apply (post_id_ignores_directory (reads (str "raw")) (parses fm_run (str "body"))
           (str "blog-posts/2023") (str "blog-posts/2024") (str "run.md") _ _ [] []);
    [done|reflexivity|reflexivity|reflexivity].
Defined.

(** ** Stability of the sort *)

Lemma sort_insert_filter_time getTime t x l :
  List.filter (has_time getTime t) (sort_insert (by_date_desc getTime) x l)
  = List.filter (has_time getTime t) (x :: l).
Proof.
  induction l as [|y l IH]; [done|]. cbn [sort_insert].
  destruct (Z.leb_spec (SortCompare (by_date_desc getTime) x y) 0) as [|Hgt]; [done|].
  cbn [List.filter] in *. rewrite IH.
  destruct (has_time getTime t y) eqn:Hy; [|done].
  destruct (has_time getTime t x) eqn:Hx; [|done].
  exfalso. unfold has_time in *. apply bool_decide_eq_true in Hx, Hy.
  unfold SortCompare, by_date_desc in Hgt. rewrite Hx, Hy in Hgt. lia.
Qed.

Lemma Array_sort_filter_time getTime t l :
  List.filter (has_time getTime t) (Array_sort (by_date_desc getTime) l)
  = List.filter (has_time getTime t) l.
Proof.
  induction l as [|x l IH]; [done|]. cbn [Array_sort].
  rewrite sort_insert_filter_time. cbn [List.filter]. by rewrite IH.
Qed.

(** X19.  [sortPostsByDate] keeps the records of one date in the order they
    had: for records with parseable dates and every time stamp, the records
    of that time stamp occur in the result in the same order as in the
    argument. *)
Theorem sortPostsByDate_stable
    (Date_getTime : jsstring -> option Z)
    (h : gmap positive (list BlogPost)) (posts : positive) (l : list BlogPost) (t : Z) :
  h !! posts = Some l ->
  Forall (parseable Date_getTime) l ->
  exists copy h' sorted,
    sortPostsByDate Date_getTime posts h = Some (copy, h')
    /\ h' !! copy = Some sorted
    /\ List.filter (has_time Date_getTime t) sorted
       = List.filter (has_time Date_getTime t) l.
Proof.
  intros Hl _. eexists _, _, _. split; [by apply sortPostsByDate_eq|].
  split; [by rewrite lookup_insert_eq|]. apply Array_sort_filter_time.
Qed.

Lemma sortPostsByDate_stable_witness :
  exists copy h' sorted,
    sortPostsByDate iso_getTime 1%positive
      {[ 1%positive := [post_mar; post_apr; post_mar2] ]} = Some (copy, h')
    /\ h' !! copy = Some sorted
    /\ List.filter (has_time iso_getTime 1709251200000) sorted
       = List.filter (has_time iso_getTime 1709251200000) [post_mar; post_apr; post_mar2].
Proof.
  apply (sortPostsByDate_stable iso_getTime {[ 1%positive := [post_mar; post_apr; post_mar2] ]}
           1%positive [post_mar; post_apr; post_mar2] 1709251200000).
  - reflexivity.
  - repeat constructor; eexists; vm_compute; reflexivity.
Defined.

Example ties_keep_their_order :
  Array_sort (by_date_desc iso_getTime) [post_mar; post_apr; post_mar2]
  = [post_apr; post_mar; post_mar2].
Proof. reflexivity. Qed.

(** ** Every file is accounted for *)

Lemma parseAll_accounts cwd path_join readFile matter files :
  omap processed_file (snd (parseAll cwd path_join readFile matter files)) = files
  /\ (length (List.filter is_skip_line (snd (parseAll cwd path_join readFile matter files)))
      + length (fst (parseAll cwd path_join readFile matter files)))%nat
     = length files.
Proof.
  induction files as [|file rest [IH1 IH2]]; [done|].
  cbn [parseAll].
  destruct (parseMarkdownFile readFile matter _) as [post out] eqn:E.
  assert (Ho : (post = None /\ exists line, out = [line] /\ is_skip_line line = true
                                           /\ processed_file line = None)
               \/ (exists p, post = Some p) /\ out = []).
  { revert E. unfold parseMarkdownFile.
    destruct (readFile _); [|intros [= <- <-]; left; split; [done|by eexists]].
    destruct (matter _) as [[fm c]|]; [|intros [= <- <-]; left; split; [done|by eexists]].
    destruct (_ || _); intros [= <- <-]; [left; split; [done|by eexists]|].
    right. split; [by eexists|done]. }
  destruct (parseAll cwd path_join readFile matter rest) as [posts out'].
  cbn [fst snd] in *.
  destruct Ho as [(-> & line & -> & Hs & Hpf)|[[p ->] ->]]; cbn [fst snd app].
  - cbn [omap list_omap processed_file List.filter is_skip_line]. rewrite Hs, Hpf. cbn [length].
    split; [by f_equal|lia].
  - cbn [omap list_omap processed_file List.filter is_skip_line length].
    split; [by f_equal|lia].
Qed.

(** X9.  Every file is accounted for.  The files are announced once each, in
    the order [glob] gave them, and each file gives either a record or one
    line of warning or error: the number of such lines plus the number of
    records is the number of files.  This holds whether or not the final
    write succeeds. *)
Theorem run_accounts_for_every_file
    (cwd : jsstring) (path_join : list jsstring -> jsstring)
    (readFile : jsstring -> option jsstring)
    (writeFile : jsstring -> jsstring -> option unit)
    (matter : jsstring -> option (PostFrontMatter * jsstring))
    (Date_getTime : jsstring -> option Z) (now : jsstring)
    (JSON_stringify : list BlogPost -> jsstring)
    (template : jsstring -> jsstring -> jsstring)
    (files : list jsstring) :
  omap processed_file
    (printed (syncFiles cwd path_join readFile writeFile matter Date_getTime now
                JSON_stringify template files)) = files
  /\ (length (List.filter is_skip_line
                (printed (syncFiles cwd path_join readFile writeFile matter Date_getTime
                            now JSON_stringify template files)))
      + length (fst (parseAll cwd path_join readFile matter files)))%nat
     = length files.
Proof.
  destruct (parseAll_accounts cwd path_join readFile matter files) as [H1 H2].
  assert (Ht : exists found tail,
            printed (syncFiles cwd path_join readFile writeFile matter Date_getTime now
                       JSON_stringify template files)
            = [(LOG, MsgStart); found]
              ++ snd (parseAll cwd path_join readFile matter files) ++ tail
            /\ processed_file found = None /\ is_skip_line found = false
            /\ omap processed_file tail = [] /\ List.filter is_skip_line tail = []).
  { unfold syncFiles.
    destruct (parseAll cwd path_join readFile matter files) as [posts out].
    destruct (writeFile _ _); cbn [printed snd]; eexists _, _.
    - split; [cbn [app]; reflexivity|].
      split_and!; [by destruct files|by destruct files| |];
        by destruct (Array_sort _ posts).
    - split; [cbn [app]; reflexivity|].
      split_and!; [by destruct files|by destruct files|done|done]. }
  destruct Ht as (found & tail & -> & Hf1 & Hf2 & Ht1 & Ht2).
  cbn [app omap list_omap List.filter processed_file is_skip_line]. rewrite Hf1, Hf2.
  rewrite omap_app, List.filter_app, Ht1, Ht2, !app_nil_r. done.
Qed.

(** X21.  The post page shows a record only for a non-empty id of the route,
    and that record is one of [blogPosts] with this id: a record whose id is
    the empty string is never shown. *)
Theorem currentPost_spec
    (blogPosts : list BlogPost) (id : option jsstring) (post : BlogPost) :
  currentPost blogPosts id = Some post ->
  post ∈ blogPosts /\ id = Some (post_id post) /\ post_id post <> [].
Proof.
  unfold currentPost, getPostById. destruct id as [[|c id]|]; cbn [truthy default]; try done.
  intros [Hin Hid%bool_decide_eq_true]%find_some. rewrite Hid.
  split_and!; [by apply list_elem_of_In|done|done].
Qed.

Lemma currentPost_spec_witness :
  post_jan ∈ [post_feb; post_jan] /\ Some (str "jan") = Some (post_id post_jan)
  /\ post_id post_jan <> [].
Proof.
  apply (currentPost_spec [post_feb; post_jan] (Some (str "jan")) post_jan). reflexivity.
Defined.

(** ** Substrings *)

Lemma String_includes_spec s t :
  String_includes s t = true <-> exists pre post, s = pre ++ t ++ post.
Proof.
  split.
  - induction s as [|c s IH]; cbn [String_includes].
    + rewrite orb_false_r. intros (post & E)%startsWith_split. by exists [], post.
    + intros [H|H]%orb_prop.
      * apply startsWith_split in H as (post & E). by exists [], post.
      * destruct (IH H) as (pre & post & ->). by exists (c :: pre), post.
  - intros (pre & post & ->). induction pre as [|c pre IH].
    + cbn [app]. destruct (t ++ post) eqn:E; cbn [String_includes];
        rewrite <- E, startsWith_app; done.
    + cbn [app String_includes]. by rewrite IH, orb_true_r.
Qed.

(** ** The list page *)

Section ListPage.
Context (lower : jsstring -> jsstring) (getTime : jsstring -> option Z)
  (blogPosts : list BlogPost).

Lemma sortedCopy_elem posts p : p ∈ sortedCopy getTime posts <-> p ∈ posts.
Proof. unfold sortedCopy. by rewrite Array_sort_perm. Qed.

Lemma matchesSearch_spec searchTerm post :
  matchesSearch lower searchTerm post = true
  <-> exists field pre suf,
        (field = post_title post \/ field = post_excerpt post \/ field ∈ post_tags post)
        /\ lower field = pre ++ lower searchTerm ++ suf.
Proof.
  unfold matchesSearch. rewrite !orb_true_iff, existsb_exists.
  setoid_rewrite String_includes_spec. split.
  - intros [[(pre & suf & E)|(pre & suf & E)]|(tag & Ht & pre & suf & E)].
    + exists (post_title post), pre, suf. auto.
    + exists (post_excerpt post), pre, suf. auto.
    + exists tag, pre, suf. split; [|done]. right. right. by apply list_elem_of_In.
  - intros (field & pre & suf & [->|[->|Ht]] & E); [left; left|left; right|right]; eauto.
    exists field. split; [by apply list_elem_of_In|eauto].
Qed.

End ListPage.

(** X20.  The posts the list page shows are the records of [blogPosts] that
    carry the selected tag, when one is selected, and whose title, excerpt or
    one of whose tags contains the search term, when one is typed, both
    compared after [toLowerCase]; they are shown in descending order of date
    when the dates are parseable, and without tag and search term all the
    records are shown. *)
Theorem filteredPosts_spec
    (String_toLowerCase : jsstring -> jsstring) (Date_getTime : jsstring -> option Z)
    (blogPosts : list BlogPost) (selectedTag searchTerm : jsstring) :
  (forall p,
     p ∈ filteredPosts String_toLowerCase Date_getTime blogPosts selectedTag searchTerm
     <-> p ∈ blogPosts
         /\ (selectedTag = [] \/ selectedTag ∈ post_tags p)
         /\ (searchTerm = []
             \/ exists field pre suf,
                  (field = post_title p \/ field = post_excerpt p \/ field ∈ post_tags p)
                  /\ String_toLowerCase field
                     = pre ++ String_toLowerCase searchTerm ++ suf))
  /\ (Forall (parseable Date_getTime) blogPosts ->
      StronglySorted (date_ge Date_getTime)
        (filteredPosts String_toLowerCase Date_getTime blogPosts selectedTag searchTerm))
  /\ filteredPosts String_toLowerCase Date_getTime blogPosts [] [] ≡ₚ blogPosts.
Proof.
  split_and!.
  - intros p. unfold filteredPosts. rewrite sortedCopy_elem.
    destruct selectedTag as [|c tag], searchTerm as [|d term]; cbn [truthy].
    + split; [by auto|by intros [? _]].
    + rewrite filter_elem, matchesSearch_spec. split.
      * intros [? ?]. split_and!; [done|by left|by right].
      * intros (? & _ & [?|?]); done.
    + unfold getPostsByTag. rewrite filter_elem, Array_includes_elem. split.
      * intros [? ?]. split_and!; [done|by right|by left].
      * intros (? & [?|?] & _); done.
    + unfold getPostsByTag. rewrite !filter_elem, Array_includes_elem, matchesSearch_spec.
      split.
      * intros [[? ?] ?]. split_and!; [done|by right|by right].
      * intros (? & [?|?] & [?|?]); done.
  - intros Hp. unfold filteredPosts, sortedCopy. apply Array_sort_by_date_sorted.
    assert (Hsub : forall f (l : list BlogPost),
              Forall (parseable Date_getTime) l ->
              Forall (parseable Date_getTime) (List.filter f l)).
    { intros f l H. rewrite Forall_forall in *. intros x Hx%filter_elem. apply H, Hx. }
    destruct (truthy (Some selectedTag)), (truthy (Some searchTerm)); unfold getPostsByTag;
      auto.
  - unfold filteredPosts, sortedCopy. cbn [truthy]. apply Array_sort_perm.
Qed.

(** ** The post page *)

Lemma take_sublist {A} n (l : list A) : sublist (take n l) l.
Proof.
  revert n. induction l as [|x l IH]; intros [|n]; cbn; try constructor; auto.
  apply sublist_nil_l.
Qed.

Lemma filter_take_all {A} (f : A -> bool) l n x :
  (length (take n (List.filter f l)) < n)%nat -> x ∈ l -> f x = true ->
  x ∈ take n (List.filter f l).
Proof.
  intros Hl Hx Hf. rewrite take_ge; [by apply filter_elem|].
  rewrite length_take in Hl. lia.
Qed.

(** X22.  The related posts of a post are at most three records of
    [blogPosts], in that order, each with another id than the post and with
    a tag in common with it; when fewer than three are shown, every such
    record is among them. *)
Theorem relatedPosts_spec (blogPosts : list BlogPost) (post : BlogPost) :
  (length (relatedPosts blogPosts post) <= 3)%nat
  /\ sublist (relatedPosts blogPosts post) blogPosts
  /\ Forall (fun p => post_id p <> post_id post
                      /\ exists tag, tag ∈ post_tags p /\ tag ∈ post_tags post)
            (relatedPosts blogPosts post)
  /\ ((length (relatedPosts blogPosts post) < 3)%nat ->
      forall p tag,
        p ∈ blogPosts -> post_id p <> post_id post ->
        tag ∈ post_tags p -> tag ∈ post_tags post ->
        p ∈ relatedPosts blogPosts post).
Proof.
  unfold relatedPosts. set (f := fun p : BlogPost => _ && _).
  assert (Hf : forall p, f p = true <->
            post_id p <> post_id post
            /\ exists tag, tag ∈ post_tags p /\ tag ∈ post_tags post).
  { intros p. unfold f. rewrite andb_true_iff, negb_true_iff, bool_decide_eq_false.
    rewrite existsb_exists. setoid_rewrite Array_includes_elem.
    setoid_rewrite <- list_elem_of_In. done. }
  split_and!.
  - rewrite length_take. lia.
  - etrans; [apply take_sublist|apply filter_sublist].
  - apply Forall_forall. intros p Hp. apply Hf.
    pose proof (elem_of_sublist _ _ _ Hp (take_sublist _ _)) as Hp'.
    by apply filter_elem in Hp' as [_ ?].
  - intros Hl p tag Hp Hid Ht Ht'. apply filter_take_all; [done|done|].
    apply Hf. eauto.
Qed.

Lemma findIndex_from_found {A} (f : A -> bool) l : forall i x,
  x ∈ l -> f x = true ->
  exists k y,
    l !! k = Some y /\ f y = true /\ findIndex_from f i l = i + Z.of_nat k
    /\ (forall j z, (j < k)%nat -> l !! j = Some z -> f z = false).
Proof.
  induction l as [|a l IH]; intros i x Hx Hf; [by apply elem_of_nil in Hx|].
  cbn [findIndex_from]. destruct (f a) eqn:Ea.
  - exists 0%nat, a. split_and!; [done|done|lia|intros; lia].
  - apply elem_of_cons in Hx as [->|Hx]; [congruence|].
    destruct (IH (i + 1) x Hx Hf) as (k & y & Hk & Hy & Hi & Hj).
    exists (S k), y. split_and!; [done|done|lia|].
    intros [|j] z Hlt; cbn; [by intros [= <-]|]. apply Hj. lia.
Qed.

Lemma StronglySorted_lookup {A} (R : A -> A -> Prop) l j k a b :
  StronglySorted R l -> (j < k)%nat -> l !! j = Some a -> l !! k = Some b -> R a b.
Proof.
  intros Hs Hjk Ha Hb. rewrite <- (take_drop k l) in Hs.
  apply (StronglySorted_app_1_elem_of _ _ _ a b Hs).
  - apply list_elem_of_lookup. exists j. by rewrite lookup_take_lt.
  - apply list_elem_of_lookup. exists 0%nat. rewrite lookup_drop. by rewrite Nat.add_0_r.
Qed.

(** X23.  For a post of [blogPosts] the post page finds the first record with
    the id of the post in the list sorted by date; the previous post is the record
    just before it, or none at the head of the list, and the next post is the
    record just after it, or none at the end.  With parseable dates the
    previous post is not older, and the next post not newer, than the record
    found. *)
Theorem neighbours_by_date
    (Date_getTime : jsstring -> option Z) (blogPosts : list BlogPost) (post : BlogPost) :
  post ∈ blogPosts ->
  exists (i : nat) (cur : BlogPost),
    currentIndex Date_getTime blogPosts post = Z.of_nat i
    /\ sortedPosts Date_getTime blogPosts !! i = Some cur
    /\ post_id cur = post_id post
    /\ (forall j p, (j < i)%nat -> sortedPosts Date_getTime blogPosts !! j = Some p ->
                    post_id p <> post_id post)
    /\ prevPost Date_getTime blogPosts post
       = match i with
         | O => None
         | S j => sortedPosts Date_getTime blogPosts !! j
         end
    /\ nextPost Date_getTime blogPosts post = sortedPosts Date_getTime blogPosts !! S i
    /\ (Forall (parseable Date_getTime) blogPosts ->
        (forall p, prevPost Date_getTime blogPosts post = Some p ->
                   date_ge Date_getTime p cur)
        /\ (forall n, nextPost Date_getTime blogPosts post = Some n ->
                      date_ge Date_getTime cur n)).
Proof.
  intros Hin.
  assert (Hs : post ∈ sortedPosts Date_getTime blogPosts).
  { unfold sortedPosts, sortedCopy. by rewrite Array_sort_perm. }
  destruct (findIndex_from_found
              (fun p => bool_decide (post_id p = post_id post)) _ 0 post Hs)
    as (i & cur & Hi & Hid & Hidx & Hmin); [by apply bool_decide_eq_true|].
  apply bool_decide_eq_true in Hid.
  assert (Hc : currentIndex Date_getTime blogPosts post = Z.of_nat i).
  { unfold currentIndex, findIndex. rewrite Hidx. lia. }
  assert (Hprev : prevPost Date_getTime blogPosts post
                  = match i with
                    | O => None
                    | S j => sortedPosts Date_getTime blogPosts !! j
                    end).
  { unfold prevPost. rewrite Hc. destruct i as [|j].
    - done.
    - destruct (Z.ltb_spec 0 (Z.of_nat (S j))); [|lia].
      unfold Array_at. destruct (Z.ltb_spec (Z.of_nat (S j) - 1) 0); [lia|].
      f_equal. lia. }
  assert (Hnext : nextPost Date_getTime blogPosts post
                  = sortedPosts Date_getTime blogPosts !! S i).
  { unfold nextPost. rewrite Hc.
    destruct (Z.ltb_spec (Z.of_nat i)
                (Z.of_nat (length (sortedPosts Date_getTime blogPosts)) - 1)).
    - unfold Array_at. destruct (Z.ltb_spec (Z.of_nat i + 1) 0); [lia|].
      f_equal. lia.
    - symmetry. apply lookup_ge_None. lia. }
  exists i, cur. split_and!; [done|done|done| |done|done|].
  { intros j p Hj Hp. pose proof (Hmin j p Hj Hp) as Hf.
    by apply bool_decide_eq_false in Hf. }
  intros Hp.
  assert (Hsorted : StronglySorted (date_ge Date_getTime)
                      (sortedPosts Date_getTime blogPosts)).
  { by apply Array_sort_by_date_sorted. }
  split.
  - intros p. rewrite Hprev. destruct i as [|j]; [done|]. intros Hj.
    apply (StronglySorted_lookup _ _ j (S j) _ _ Hsorted); [lia|done|done].
  - intros n. rewrite Hnext. intros Hn.
    apply (StronglySorted_lookup _ _ i (S i) _ _ Hsorted); [lia|done|done].
Qed.

Lemma neighbours_by_date_witness :
  exists (i : nat) (cur : BlogPost),
    currentIndex iso_getTime [post_jan; post_feb] post_jan = Z.of_nat i
    /\ sortedPosts iso_getTime [post_jan; post_feb] !! i = Some cur
    /\ post_id cur = post_id post_jan
    /\ (forall j p, (j < i)%nat ->
                    sortedPosts iso_getTime [post_jan; post_feb] !! j = Some p ->
                    post_id p <> post_id post_jan)
    /\ prevPost iso_getTime [post_jan; post_feb] post_jan
       = match i with
         | O => None
         | S j => sortedPosts iso_getTime [post_jan; post_feb] !! j
         end
    /\ nextPost iso_getTime [post_jan; post_feb] post_jan
       = sortedPosts iso_getTime [post_jan; post_feb] !! S i
    /\ (Forall (parseable iso_getTime) [post_jan; post_feb] ->
        (forall p, prevPost iso_getTime [post_jan; post_feb] post_jan = Some p ->
                   date_ge iso_getTime p cur)
        /\ (forall n, nextPost iso_getTime [post_jan; post_feb] post_jan = Some n ->
                      date_ge iso_getTime cur n)).
Proof.
  apply (neighbours_by_date iso_getTime [post_jan; post_feb] post_jan).
  constructor.
Defined.

(** ** Paragraphs *)

Lemma split_str_from_nonempty sep s : forall skip cur, split_str_from sep skip cur s <> [].
Proof.
  induction s as [|c t IH]; intros skip cur; cbn [split_str_from]; [done|].
  destruct skip; [|apply IH]. destruct (startsWith _ _); [done|apply IH].
Qed.

Lemma Array_join_cons sep x l : l <> [] -> Array_join sep (x :: l) = x ++ sep ++ Array_join sep l.
Proof. by destruct l. Qed.

Lemma split_str_from_join sep : sep <> [] -> forall s skip cur,
  Array_join sep (split_str_from sep skip cur s) = rev cur ++ drop skip s.
Proof.
  intros Hsep. induction s as [|c t IH]; intros skip cur; cbn [split_str_from].
  { cbn. by rewrite drop_nil, app_nil_r. }
  destruct skip as [|n]; [|by rewrite IH].
  destruct (startsWith (c :: t) sep) eqn:E.
  - rewrite Array_join_cons by apply split_str_from_nonempty. rewrite IH. cbn [rev app drop].
    apply startsWith_split in E as (post & E). f_equal.
    destruct sep as [|y sep']; [done|]. injection E as -> ->.
    cbn [length]. rewrite Nat.sub_1_r. cbn [Nat.pred].
    by rewrite drop_app_length.
  - rewrite IH. cbn [rev drop]. by rewrite <- app_assoc.
Qed.

Lemma split_str_from_pieces sep : sep <> [] -> forall s skip cur,
  (skip = 0%nat ->
   forall pre suf, rev cur ++ s = pre ++ sep ++ suf -> (length cur <= length pre)%nat) ->
  (skip <> 0%nat -> cur = []) ->
  Forall (fun p => String_includes p sep = false) (split_str_from sep skip cur s).
Proof.
  intros Hsep.
  assert (Hpiece : forall cur s,
            (forall pre suf, rev cur ++ s = pre ++ sep ++ suf ->
                             (length cur <= length pre)%nat) ->
            String_includes (rev cur) sep = false).
  { intros cur s H. destruct (String_includes (rev cur) sep) eqn:E; [|done].
    apply String_includes_spec in E as (pre & suf & E).
    specialize (H pre (suf ++ s)). rewrite E, <- !app_assoc in H. specialize (H eq_refl).
    apply (f_equal length) in E. rewrite length_rev, !length_app in E.
    destruct sep; [done|]. cbn in E. lia. }
  induction s as [|c t IH]; intros skip cur H0 H1; cbn [split_str_from].
  - destruct skip as [|n].
    + constructor; [|constructor]. by apply (Hpiece cur []), H0.
    + rewrite H1 by done. constructor; [|constructor]. cbn. by destruct sep.
  - destruct skip as [|n].
    + destruct (startsWith (c :: t) sep) eqn:E.
      * constructor; [by apply (Hpiece cur (c :: t)), H0|].
        apply IH; [|done]. intros _ pre suf _. cbn. lia.
      * apply IH; [|done]. intros _ pre suf Eq. cbn [rev length] in *.
        rewrite <- app_assoc in Eq. cbn [app] in Eq.
        pose proof (H0 eq_refl pre suf Eq) as Hle.
        destruct (decide (length pre = length cur)) as [El|]; [|lia].
        exfalso. apply app_inj_1 in Eq as [_ Eq]; [|by rewrite length_rev].
        assert (startsWith (c :: t) sep = true) by (rewrite Eq; apply startsWith_app).
        congruence.
    + rewrite H1 by done. apply IH; [|done]. intros _ pre suf _. cbn. lia.
Qed.

(** X24.  [renderContent] loses nothing of the content: the paragraphs joined
    by two line feeds are the content, there is at least one paragraph, and
    no paragraph contains two line feeds in a row. *)
Theorem renderContent_paragraphs (content : jsstring) :
  Array_join [Chr.newline; Chr.newline] (renderContent content) = content
  /\ renderContent content <> []
  /\ Forall (fun paragraph => String_includes paragraph [Chr.newline; Chr.newline] = false)
            (renderContent content).
Proof.
  unfold renderContent, split_str. split_and!.
  - by rewrite split_str_from_join.
  - apply split_str_from_nonempty.
  - apply split_str_from_pieces; [done| |done]. intros _ pre suf _. cbn. lia.
Qed.

(** ** The base path *)

Lemma slice_drop_last (s : jsstring) c : slice (s ++ [c]) 0 (-1) = s.
Proof.
  unfold slice, slen. rewrite length_app. cbn [length Z.ltb Z.compare].
  rewrite Z.min_l by lia. change (Z.to_nat 0) with 0%nat. cbn [drop].
  replace (Z.to_nat _) with (length s) by lia. apply take_app_length.
Qed.

Lemma trim_getBasePath_slash pre :
  SiteMetadataTrim.getBasePath (pre ++ str "/") = pre.
Proof.
  unfold SiteMetadataTrim.getBasePath. case_bool_decide as E.
  - destruct pre as [|c [|d pre]]; [done|done|]. by destruct pre.
  - rewrite endsWith_app. apply slice_drop_last.
Qed.

Lemma trim_getBasePath_other b :
  endsWith b (str "/") = false -> SiteMetadataTrim.getBasePath b = b.
Proof.
  intros H. unfold SiteMetadataTrim.getBasePath. rewrite H. by case_bool_decide; subst.
Qed.

(** X25.  The [getBasePath] that trims removes one final slash of the base
    URL and nothing else, so that a link built from a base URL that ends in a
    slash is the base URL followed by the page; a base URL without a final
    slash is returned as it is.  The result still ends in a slash exactly
    when the base URL ends in two. *)
Theorem getBasePath_trims_one_slash (BASE_URL page : jsstring) :
  (endsWith BASE_URL (str "/") = true ->
   SiteMetadataTrim.getBasePath BASE_URL ++ str "/" = BASE_URL
   /\ SiteMetadataTrim.getBasePath BASE_URL ++ Chr.slash :: page = BASE_URL ++ page)
  /\ (endsWith BASE_URL (str "/") = false ->
      SiteMetadataTrim.getBasePath BASE_URL = BASE_URL)
  /\ (endsWith (SiteMetadataTrim.getBasePath BASE_URL) (str "/") = true
      <-> endsWith BASE_URL (str "//") = true).
Proof.
  split_and!.
  - intros (pre & ->)%endsWith_split. rewrite trim_getBasePath_slash.
    split; [done|]. by rewrite <- app_assoc.
  - apply trim_getBasePath_other.
  - destruct (endsWith BASE_URL (str "/")) eqn:E.
    + apply endsWith_split in E as (pre & ->). rewrite trim_getBasePath_slash. split.
      * intros (pre' & ->)%endsWith_split. rewrite <- app_assoc. apply endsWith_app.
      * intros (pre' & E)%endsWith_split.
        change (str "//") with (str "/" ++ str "/") in E. rewrite app_assoc in E.
        apply app_inj_tail in E as [-> _]. apply endsWith_app.
    + rewrite trim_getBasePath_other by done. rewrite E. split; [done|].
      intros (pre' & ->)%endsWith_split.
      change (str "//") with (str "/" ++ str "/") in E. rewrite app_assoc in E.
      by rewrite endsWith_app in E.
Qed.

(** X26.  The two copies of the site metadata build the same links exactly
    when the base URL is [/] or does not end in a slash; for any other base
    URL that ends in a slash the copy that does not trim builds links with a
    doubled slash at the junction where the other has one. *)
Theorem navLinks_agree (BASE_URL : jsstring) :
  SiteMetadata.navLinks BASE_URL = SiteMetadataTrim.navLinks BASE_URL
  <-> BASE_URL = str "/" \/ endsWith BASE_URL (str "/") = false.
Proof.
  split.
  - intros H. destruct (endsWith BASE_URL (str "/")) eqn:E; [|by right]. left.
    apply endsWith_split in E as (pre & ->).
    unfold SiteMetadata.navLinks, SiteMetadataTrim.navLinks in H.
    rewrite trim_getBasePath_slash in H. injection H as H _.
    unfold SiteMetadata.getBasePath in H. case_bool_decide as E; [done|].
    rewrite <- app_assoc in H. apply app_inv_head in H. done.
  - unfold SiteMetadata.navLinks, SiteMetadataTrim.navLinks. intros [->|H]; [done|].
    rewrite trim_getBasePath_other by done.
    unfold SiteMetadata.getBasePath. case_bool_decide as E; [by subst|done].
Qed.

(** ** The script and the pages together *)

Lemma sort_insert_ext {A} (cmp1 cmp2 : A -> A -> option Z) x l :
  Forall (fun y => cmp1 x y = cmp2 x y) l ->
  sort_insert cmp1 x l = sort_insert cmp2 x l.
Proof.
  induction 1 as [|y l Hy _ IH]; [done|]. cbn [sort_insert].
  unfold SortCompare. rewrite Hy, IH. done.
Qed.

Lemma Array_sort_ext {A} (cmp1 cmp2 : A -> A -> option Z) l :
  (forall x y, x ∈ l -> y ∈ l -> cmp1 x y = cmp2 x y) ->
  Array_sort cmp1 l = Array_sort cmp2 l.
Proof.
  induction l as [|x l IH]; intros H; [done|]. cbn [Array_sort].
  rewrite IH by (intros a b Ha Hb; apply H; by right).
  apply sort_insert_ext. apply Forall_forall. intros y Hy.
  apply H; [by left|]. right. by rewrite Array_sort_perm in Hy.
Qed.

(** X27.  The pages find the collection in the order they show it, when the
    date parser of the browser reads the dates of the collection as the one
    of the script did: for the collection a run writes, with parseable dates,
    sorting it again in the browser changes nothing, so that the list page
    without filters shows the records in the order of the artifact and the
    neighbours of a post are its neighbours in the artifact. *)
Theorem written_collection_is_sorted
    (cwd : jsstring) (path_join : list jsstring -> jsstring)
    (readFile : jsstring -> option jsstring)
    (matter : jsstring -> option (PostFrontMatter * jsstring))
    (String_toLowerCase : jsstring -> jsstring)
    (Node_getTime Browser_getTime : jsstring -> option Z)
    (files : list jsstring) (blogPosts : list BlogPost) :
  blogPosts = Array_sort (by_date_desc Node_getTime)
                (fst (parseAll cwd path_join readFile matter files)) ->
  Forall (parseable Node_getTime) blogPosts ->
  Forall (fun post => Browser_getTime (post_date post) = Node_getTime (post_date post))
         blogPosts ->
  sortedPosts Browser_getTime blogPosts = blogPosts
  /\ filteredPosts String_toLowerCase Browser_getTime blogPosts [] [] = blogPosts
  /\ StronglySorted (date_ge Browser_getTime) blogPosts.
Proof.
  intros Hb Hp Ha.
  assert (Hpb : Forall (parseable Browser_getTime) blogPosts).
  { rewrite Forall_forall in *. intros p Hin. unfold parseable. rewrite (Ha p Hin).
    by apply Hp. }
  assert (Hs : Array_sort (by_date_desc Browser_getTime) blogPosts = blogPosts).
  { rewrite (Array_sort_ext _ (by_date_desc Node_getTime)).
    - subst blogPosts. apply Array_sort_by_date_twice.
      by rewrite <- (Array_sort_perm (by_date_desc Node_getTime)).
    - rewrite Forall_forall in Ha. intros x y Hx Hy. unfold by_date_desc.
      by rewrite (Ha x Hx), (Ha y Hy). }
  unfold sortedPosts, filteredPosts, sortedCopy. cbn [truthy]. rewrite Hs.
  split_and!; [done|done|]. rewrite <- Hs. by apply Array_sort_by_date_sorted.
Qed.

Lemma written_collection_is_sorted_witness :
  sortedPosts iso_getTime
    (Array_sort (by_date_desc iso_getTime)
       (fst (parseAll (str "/site") join_slash (reads (str "raw"))
               (parses fm_run (str "body")) [str "a.md"; str "b.md"])))
  = Array_sort (by_date_desc iso_getTime)
      (fst (parseAll (str "/site") join_slash (reads (str "raw"))
              (parses fm_run (str "body")) [str "a.md"; str "b.md"])).
Proof.
  apply (written_collection_is_sorted (str "/site") join_slash (reads (str "raw"))
           (parses fm_run (str "body")) (fun s => s) iso_getTime iso_getTime
           [str "a.md"; str "b.md"] _ eq_refl).
  - repeat constructor; eexists; vm_compute; reflexivity.
  - repeat constructor.
Defined.
